(** * ngorm/scope: schema resolution, relationship inference and parameter binding

    A shallow embedding of [scope/scope.go].  Go's heap is explicit: every
    [*model.StructField] is an address into a store of descriptors, every
    [*model.Struct] an address into a store of schema descriptions, and the
    engine's [StructMap] maps a record shape to the address of its published
    description.  Functions that call back into [GetModelStruct] are written
    against the recursive call as a parameter and tied together by a fuel
    argument, since a shape embedding a pointer to itself makes the Go code
    recurse without end. *)

From Stdlib Require Import ZArith Ascii String List Lia Bool.
From stdpp Require Import base option list gmap strings.

Local Open Scope list_scope.
Set Warnings "-register-all".

(** ** The Go [strings] functions used by the package, on byte strings. *)
Module GoStrings.

(** [strings.HasPrefix(s, prefix)]. *)
Fixpoint HasPrefix (s prefix : string) : bool :=
  match prefix, s with
  | EmptyString, _ => true
  | String _ _, EmptyString => false
  | String c p, String d t => if Ascii.eqb c d then HasPrefix t p else false
  end.

Fixpoint drop_bytes (n : nat) (s : string) : string :=
  match n, s with
  | O, _ => s
  | S _, EmptyString => EmptyString
  | S k, String _ t => drop_bytes k t
  end.

(** [strings.TrimPrefix(s, prefix)]. *)
Definition TrimPrefix (s prefix : string) : string :=
  if HasPrefix s prefix then drop_bytes (String.length prefix) s else s.

(** [strings.Index(s, sep)]: the byte offset of the first [sep], or [-1]. *)
Fixpoint Index (s sep : string) : Z :=
  if HasPrefix s sep then 0%Z
  else match s with
       | EmptyString => (-1)%Z
       | String _ t => let r := Index t sep in
                       if (r =? -1)%Z then (-1)%Z else (r + 1)%Z
       end.

(** [strings.Split(s, sep)] for a one-byte separator, which is how every
    call site of the package uses it ([","] and ["."]). *)
Fixpoint Split (s : string) (sep : ascii) : list string :=
  match s with
  | EmptyString => [EmptyString]
  | String c t =>
      if Ascii.eqb c sep then EmptyString :: Split t sep
      else match Split t sep with
           | seg :: segs => String c seg :: segs
           | [] => [String c EmptyString]
           end
  end.

(** [strings.Join(elems, sep)]. *)
Fixpoint Join (elems : list string) (sep : string) : string :=
  match elems with
  | [] => EmptyString
  | [e] => e
  | e :: rest => e +:+ sep +:+ Join rest sep
  end.

(** [strings.Replace(s, old, new, 1)] for a one-byte [old]: only the first
    occurrence is replaced. *)
Fixpoint Replace1 (s : string) (old : ascii) (new : string) : string :=
  match s with
  | EmptyString => EmptyString
  | String c t => if Ascii.eqb c old then new +:+ t
                  else String c (Replace1 t old new)
  end.

(** Does the byte occur in the string. *)
Fixpoint has_byte (c : ascii) (s : string) : bool :=
  match s with
  | EmptyString => false
  | String d t => Ascii.eqb d c || has_byte c t
  end.

End GoStrings.

(** ** Types as [reflect] shows them. *)

Inductive GoType : Type :=
| TStruct (id : string)   (* a named struct type, declared in the environment *)
| TPtr (elem : GoType)
| TSlice (elem : GoType)
| TOther (name : string). (* any type of another kind: int, string, map, ... *)

Inductive ReflectKind : Type := KStruct | KPtr | KSlice | KOther.

Definition kindOf (t : GoType) : ReflectKind :=
  match t with
  | TStruct _ => KStruct
  | TPtr _ => KPtr
  | TSlice _ => KSlice
  | TOther _ => KOther
  end.

Global Instance GoType_eq_dec : EqDecision GoType.
Proof. solve_decision. Defined.

Global Instance ReflectKind_eq_dec : EqDecision ReflectKind.
Proof. solve_decision. Defined.

(** [reflect.StructField]: what the resolver reads of a declared field. *)
Record FieldDecl : Type := {
  fdName : string;
  fdType : GoType;
  fdTag : string;
  fdAnonymous : bool
}.

(** How a struct type answers the [TableName] capability checks:
    [engine.Tabler] ([TableName() string]) or [engine.DBTabler]
    (the same method taking the engine); the method may be declared on the
    pointer receiver, and is taken to return a constant. *)
Inductive TablerKind : Type := IsTabler | IsDBTabler.

Global Instance TablerKind_eq_dec : EqDecision TablerKind.
Proof. solve_decision. Defined.

Record TablerImpl : Type := {
  tablerKind : TablerKind;
  tablerPtrReceiver : bool;
  tablerName : string
}.

Record StructDecl : Type := {
  sName : string;                 (* reflect.Type.Name() *)
  sFields : list FieldDecl;       (* all fields, exported or not, in order *)
  sTabler : option TablerImpl
}.

(** The error values the package creates. *)
Inductive error : Type :=
| ErrNilValue                 (* "nil value" *)
| ErrNotSupported (k : ReflectKind)  (* "<kind> is not supported, value should be a struct" *)
| ErrInvalidForeignKeys       (* "invalid foreign keys, should have same length" *)
| ErrFieldNotFound            (* "field not found" *)
| ErrNoFieldFound.            (* "no field found" *)

(** A Go call returning [(T, error)]. *)
Inductive result (T : Type) : Type :=
| Val (v : T)
| Err (e : error).
Arguments Val {T} v.
Arguments Err {T} e.

(** ** [model.Relationship], [model.StructField], [model.Struct]. *)

Record Relationship : Type := {
  Kind : string;
  PolymorphicType : string;
  PolymorphicDBName : string;
  PolymorphicValue : string;
  ForeignFieldNames : list string;
  ForeignDBNames : list string;
  AssociationForeignFieldNames : list string;
  AssociationForeignDBNames : list string
}.

Record StructField : Type := {
  DBName : string;
  Name : string;
  Names : list string;
  IsPrimaryKey : bool;
  IsNormal : bool;
  IsIgnored : bool;
  IsScanner : bool;
  HasDefaultValue : bool;
  Tag : string;
  TagSettings : gmap string string;
  Struct : FieldDecl;
  IsForeignKey : bool;
  Relationship_ : option Relationship
}.

(** [model.Struct].  [StructFields] and [PrimaryFields] hold pointers to
    descriptors.  (Projections whose Go name is taken by a type or function
    of the development carry a trailing underscore.) *)
Record ModelStruct : Type := {
  PrimaryFields_ : list nat;
  StructFields : list nat;
  ModelType : string;
  DefaultTableName : string
}.

(** A value as [reflect] walks it: the zero value of a type (a nil pointer, a
    nil slice, a struct of zero fields), a non-nil pointer, or a struct with
    some fields set (the others are zero).  An [interface{}] is an
    [option RValue], [None] being the nil interface; the zero [reflect.Value]
    is [None] too. *)
Inductive RValue : Type :=
| RZero (t : GoType)
| RPtr (v : RValue)
| RStruct (id : string) (fs : list (string * RValue)).

Fixpoint typeOf (v : RValue) : GoType :=
  match v with
  | RZero t => t
  | RPtr x => TPtr (typeOf x)
  | RStruct id _ => TStruct id
  end.

(** [reflect.New(t).Interface()]. *)
Definition reflectNew (t : GoType) : option RValue := Some (RPtr (RZero t)).

(** [model.Field]: a descriptor with the field's value in one instance. *)
Record Field : Type := {
  fStructField : nat;
  fValue : option RValue;
  IsBlank : bool
}.

(** Values bound as SQL parameters, and [*model.Expr]. *)
Inductive GoVal : Type :=
| VNull
| VInt (z : Z)
| VStr (s : string)
| VBool (b : bool).

Inductive SQLArg : Type :=
| ArgVal (v : GoVal)
| ArgExpr (Q : string) (Args : list SQLArg).

(** ** The engine and the heap. *)
Record State : Type := {
  StructMap : gmap string nat;      (* e.StructMap: shape -> *model.Struct *)
  SingularTable : bool;             (* e.SingularTable *)
  Search : option string;           (* e.Search (nil or not) and its TableName *)
  SQLVars : list GoVal;             (* e.Scope.SQLVars *)
  fieldHeap : list StructField;     (* the *model.StructField objects *)
  structHeap : list ModelStruct     (* the *model.Struct objects *)
}.

(** A fresh engine: nothing resolved, nothing bound. *)
Definition newEngine (singular : bool) (search : option string) : State :=
  {| StructMap := ∅; SingularTable := singular; Search := search;
     SQLVars := []; fieldHeap := []; structHeap := [] |}.

(** ** Running Go code: state, panics, and the fuel of the recursion. *)

Inductive panic : Type :=
| PanicIndexOutOfRange     (* runtime error: index out of range *)
| PanicNilDereference      (* runtime error: invalid memory address or nil pointer dereference *)
| PanicReflect.            (* reflect: call of reflect.Value.FieldByName on a non-struct Value *)

Inductive outcome (A : Type) : Type :=
| Done (a : A) (s : State)
| Panics (p : panic)
| OutOfFuel.
Arguments Done {A} a s.
Arguments Panics {A} p.
Arguments OutOfFuel {A}.

Definition M (A : Type) : Type := State → outcome A.

Definition ret {A} (a : A) : M A := λ s, Done a s.

Definition bind {A B} (m : M A) (k : A → M B) : M B :=
  λ s, match m s with
       | Done a s' => k a s'
       | Panics p => Panics p
       | OutOfFuel => OutOfFuel
       end.

Definition throw {A} (p : panic) : M A := λ _, Panics p.
Definition get : M State := λ s, Done s s.
Definition put (s' : State) : M unit := λ _, Done tt s'.

Notation "x <- m ;; k" := (bind m (λ x, k))
  (at level 100, m at next level, right associativity).
Notation "m ;;; k" := (bind m (λ _, k))
  (at level 100, right associativity).
(** [x, err := f(); if err != nil { return err }]. *)
Notation "x <-? m ;; k" :=
  (bind m (λ r, match r with Val x => k | Err e => ret (Err e) end))
  (at level 100, m at next level, right associativity).

(** *** Field updates. *)

Definition setDBName (v : string) (f : StructField) : StructField :=
  {| DBName := v; Name := Name f; Names := Names f;
     IsPrimaryKey := IsPrimaryKey f; IsNormal := IsNormal f;
     IsIgnored := IsIgnored f; IsScanner := IsScanner f;
     HasDefaultValue := HasDefaultValue f; Tag := Tag f;
     TagSettings := TagSettings f; Struct := Struct f;
     IsForeignKey := IsForeignKey f; Relationship_ := Relationship_ f |}.

Definition setNames (v : list string) (f : StructField) : StructField :=
  {| DBName := DBName f; Name := Name f; Names := v;
     IsPrimaryKey := IsPrimaryKey f; IsNormal := IsNormal f;
     IsIgnored := IsIgnored f; IsScanner := IsScanner f;
     HasDefaultValue := HasDefaultValue f; Tag := Tag f;
     TagSettings := TagSettings f; Struct := Struct f;
     IsForeignKey := IsForeignKey f; Relationship_ := Relationship_ f |}.

Definition setIsPrimaryKey (v : bool) (f : StructField) : StructField :=
  {| DBName := DBName f; Name := Name f; Names := Names f;
     IsPrimaryKey := v; IsNormal := IsNormal f;
     IsIgnored := IsIgnored f; IsScanner := IsScanner f;
     HasDefaultValue := HasDefaultValue f; Tag := Tag f;
     TagSettings := TagSettings f; Struct := Struct f;
     IsForeignKey := IsForeignKey f; Relationship_ := Relationship_ f |}.

Definition setIsNormal (v : bool) (f : StructField) : StructField :=
  {| DBName := DBName f; Name := Name f; Names := Names f;
     IsPrimaryKey := IsPrimaryKey f; IsNormal := v;
     IsIgnored := IsIgnored f; IsScanner := IsScanner f;
     HasDefaultValue := HasDefaultValue f; Tag := Tag f;
     TagSettings := TagSettings f; Struct := Struct f;
     IsForeignKey := IsForeignKey f; Relationship_ := Relationship_ f |}.

Definition setIsIgnored (v : bool) (f : StructField) : StructField :=
  {| DBName := DBName f; Name := Name f; Names := Names f;
     IsPrimaryKey := IsPrimaryKey f; IsNormal := IsNormal f;
     IsIgnored := v; IsScanner := IsScanner f;
     HasDefaultValue := HasDefaultValue f; Tag := Tag f;
     TagSettings := TagSettings f; Struct := Struct f;
     IsForeignKey := IsForeignKey f; Relationship_ := Relationship_ f |}.

Definition setIsScanner (v : bool) (f : StructField) : StructField :=
  {| DBName := DBName f; Name := Name f; Names := Names f;
     IsPrimaryKey := IsPrimaryKey f; IsNormal := IsNormal f;
     IsIgnored := IsIgnored f; IsScanner := v;
     HasDefaultValue := HasDefaultValue f; Tag := Tag f;
     TagSettings := TagSettings f; Struct := Struct f;
     IsForeignKey := IsForeignKey f; Relationship_ := Relationship_ f |}.

Definition setHasDefaultValue (v : bool) (f : StructField) : StructField :=
  {| DBName := DBName f; Name := Name f; Names := Names f;
     IsPrimaryKey := IsPrimaryKey f; IsNormal := IsNormal f;
     IsIgnored := IsIgnored f; IsScanner := IsScanner f;
     HasDefaultValue := v; Tag := Tag f;
     TagSettings := TagSettings f; Struct := Struct f;
     IsForeignKey := IsForeignKey f; Relationship_ := Relationship_ f |}.

Definition setTagSettings (v : gmap string string) (f : StructField) : StructField :=
  {| DBName := DBName f; Name := Name f; Names := Names f;
     IsPrimaryKey := IsPrimaryKey f; IsNormal := IsNormal f;
     IsIgnored := IsIgnored f; IsScanner := IsScanner f;
     HasDefaultValue := HasDefaultValue f; Tag := Tag f;
     TagSettings := v; Struct := Struct f;
     IsForeignKey := IsForeignKey f; Relationship_ := Relationship_ f |}.

Definition setIsForeignKey (v : bool) (f : StructField) : StructField :=
  {| DBName := DBName f; Name := Name f; Names := Names f;
     IsPrimaryKey := IsPrimaryKey f; IsNormal := IsNormal f;
     IsIgnored := IsIgnored f; IsScanner := IsScanner f;
     HasDefaultValue := HasDefaultValue f; Tag := Tag f;
     TagSettings := TagSettings f; Struct := Struct f;
     IsForeignKey := v; Relationship_ := Relationship_ f |}.

Definition setRelationship (v : option Relationship) (f : StructField) : StructField :=
  {| DBName := DBName f; Name := Name f; Names := Names f;
     IsPrimaryKey := IsPrimaryKey f; IsNormal := IsNormal f;
     IsIgnored := IsIgnored f; IsScanner := IsScanner f;
     HasDefaultValue := HasDefaultValue f; Tag := Tag f;
     TagSettings := TagSettings f; Struct := Struct f;
     IsForeignKey := IsForeignKey f; Relationship_ := v |}.

(** *** State updates. *)

Definition withFieldHeap (h : list StructField) (s : State) : State :=
  {| StructMap := StructMap s; SingularTable := SingularTable s;
     Search := Search s; SQLVars := SQLVars s;
     fieldHeap := h; structHeap := structHeap s |}.

Definition withStructHeap (h : list ModelStruct) (s : State) : State :=
  {| StructMap := StructMap s; SingularTable := SingularTable s;
     Search := Search s; SQLVars := SQLVars s;
     fieldHeap := fieldHeap s; structHeap := h |}.

Definition withStructMap (c : gmap string nat) (s : State) : State :=
  {| StructMap := c; SingularTable := SingularTable s;
     Search := Search s; SQLVars := SQLVars s;
     fieldHeap := fieldHeap s; structHeap := structHeap s |}.

Definition withSQLVars (vs : list GoVal) (s : State) : State :=
  {| StructMap := StructMap s; SingularTable := SingularTable s;
     Search := Search s; SQLVars := vs;
     fieldHeap := fieldHeap s; structHeap := structHeap s |}.

(** [&model.StructField{...}]: a new descriptor; its address is returned. *)
Definition newField (f : StructField) : M nat :=
  λ s, Done (length (fieldHeap s)) (withFieldHeap (fieldHeap s ++ [f]) s).

(** [*p] for a [*model.StructField]. *)
Definition loadField (a : nat) : M StructField :=
  λ s, match fieldHeap s !! a with
       | Some f => Done f s
       | None => Panics PanicNilDereference
       end.

(** [p.X = v] for a [*model.StructField]. *)
Definition updateField (a : nat) (upd : StructField → StructField) : M unit :=
  λ s, match fieldHeap s !! a with
       | Some f => Done tt (withFieldHeap (<[a := upd f]> (fieldHeap s)) s)
       | None => Panics PanicNilDereference
       end.

(** The [model.Struct] of a finished resolution moves to the heap. *)
Definition newStruct (m : ModelStruct) : M nat :=
  λ s, Done (length (structHeap s)) (withStructHeap (structHeap s ++ [m]) s).

Definition loadStruct (p : nat) : M ModelStruct :=
  λ s, match structHeap s !! p with
       | Some m => Done m s
       | None => Panics PanicNilDereference
       end.

(** [e.StructMap.Set(refType, &m)]. *)
Definition StructMapSet (refType : string) (p : nat) : M unit :=
  λ s, Done tt (withStructMap (<[refType := p]> (StructMap s)) s).

Definition gets {A} (proj : State → A) : M A := λ s, Done (proj s) s.

(** [for _, x := range xs] with a body that only reads the heap. *)
Fixpoint loadFields (ptrs : list nat) : M (list StructField) :=
  match ptrs with
  | [] => ret []
  | a :: rest => f <- loadField a ;; fs <- loadFields rest ;; ret (f :: fs)
  end.

(** Reading a Go map: [m[k]] is the zero value when [k] is absent, and
    [_, ok := m[k]] tells whether it is present. *)
Definition tagValue (ts : gmap string string) (k : string) : string :=
  default "" (ts !! k).
Definition hasTag (ts : gmap string string) (k : string) : bool :=
  match ts !! k with Some _ => true | None => false end.

(** [time.Time], the one struct type the resolver singles out. *)
Definition timeType : GoType := TStruct "time.Time".

(** [for t.Kind() == reflect.Ptr { t = t.Elem() }]. *)
Fixpoint stripPtr (t : GoType) : GoType :=
  match t with
  | TPtr e => stripPtr e
  | _ => t
  end.

(** [for t.Kind() == reflect.Slice || t.Kind() == reflect.Ptr { t = t.Elem() }]. *)
Fixpoint stripSlicePtr (t : GoType) : GoType :=
  match t with
  | TPtr e => stripSlicePtr e
  | TSlice e => stripSlicePtr e
  | _ => t
  end.

(** The unwrapping at the head of [GetModelStruct]: one pointer, then one
    slice and one pointer under it. *)
Definition unwrapType (t : GoType) : GoType :=
  let t1 := match t with TPtr e => e | _ => t end in
  match t1 with
  | TSlice e => match e with TPtr e' => e' | _ => e end
  | _ => t1
  end.

(** Calls registered with [defer] in [GetModelStruct]: the builder and the
    descriptor it was registered for (the other arguments are the same for
    every call of one resolution). *)
Inductive Deferred : Type :=
| DeferSlice (field : nat)
| DeferStruct (field : nat).

(** [model.Relationship{}] and the appends the builders make to it. *)
Definition emptyRelationship : Relationship :=
  {| Kind := ""; PolymorphicType := ""; PolymorphicDBName := "";
     PolymorphicValue := ""; ForeignFieldNames := []; ForeignDBNames := [];
     AssociationForeignFieldNames := []; AssociationForeignDBNames := [] |}.

Definition setKind (k : string) (r : Relationship) : Relationship :=
  {| Kind := k; PolymorphicType := PolymorphicType r;
     PolymorphicDBName := PolymorphicDBName r;
     PolymorphicValue := PolymorphicValue r;
     ForeignFieldNames := ForeignFieldNames r;
     ForeignDBNames := ForeignDBNames r;
     AssociationForeignFieldNames := AssociationForeignFieldNames r;
     AssociationForeignDBNames := AssociationForeignDBNames r |}.

Definition setPolymorphic (ty db val : string) (r : Relationship) : Relationship :=
  {| Kind := Kind r; PolymorphicType := ty; PolymorphicDBName := db;
     PolymorphicValue := val;
     ForeignFieldNames := ForeignFieldNames r;
     ForeignDBNames := ForeignDBNames r;
     AssociationForeignFieldNames := AssociationForeignFieldNames r;
     AssociationForeignDBNames := AssociationForeignDBNames r |}.

Definition addForeign (name db : string) (r : Relationship) : Relationship :=
  {| Kind := Kind r; PolymorphicType := PolymorphicType r;
     PolymorphicDBName := PolymorphicDBName r;
     PolymorphicValue := PolymorphicValue r;
     ForeignFieldNames := ForeignFieldNames r ++ [name];
     ForeignDBNames := ForeignDBNames r ++ [db];
     AssociationForeignFieldNames := AssociationForeignFieldNames r;
     AssociationForeignDBNames := AssociationForeignDBNames r |}.

Definition addAssociation (name db : string) (r : Relationship) : Relationship :=
  {| Kind := Kind r; PolymorphicType := PolymorphicType r;
     PolymorphicDBName := PolymorphicDBName r;
     PolymorphicValue := PolymorphicValue r;
     ForeignFieldNames := ForeignFieldNames r;
     ForeignDBNames := ForeignDBNames r;
     AssociationForeignFieldNames := AssociationForeignFieldNames r ++ [name];
     AssociationForeignDBNames := AssociationForeignDBNames r ++ [db] |}.

Definition addPrimaryField (a : nat) (m : ModelStruct) : ModelStruct :=
  {| PrimaryFields_ := PrimaryFields_ m ++ [a]; StructFields := StructFields m;
     ModelType := ModelType m; DefaultTableName := DefaultTableName m |}.

Definition addStructField (a : nat) (m : ModelStruct) : ModelStruct :=
  {| PrimaryFields_ := PrimaryFields_ m; StructFields := StructFields m ++ [a];
     ModelType := ModelType m; DefaultTableName := DefaultTableName m |}.

(** *** Walking a value with [reflect]. *)

(** [v.Kind()] of a [reflect.Value]; [None] is the Invalid kind. *)
Definition valueKind (v : option RValue) : option ReflectKind :=
  match v with
  | Some x => Some (kindOf (typeOf x))
  | None => None
  end.

(** [v.Elem()] of a pointer value: a nil pointer gives the zero Value. *)
Definition valueElem (v : option RValue) : option RValue :=
  match v with
  | Some (RPtr x) => Some x
  | _ => None
  end.

(** [reflect.Indirect(v)]. *)
Definition Indirect (v : option RValue) : option RValue :=
  match valueKind v with
  | Some KPtr => valueElem v
  | _ => v
  end.

(** Modelled from the spec: [model.StructField.Clone], which is not part of
    the sources at hand.  The spec has every sub-field of an embedded record
    "cloned": the clone is a new descriptor with the contents of the
    original; [GetModelStruct] stores it at a fresh address. *)
Definition Clone (f : StructField) : StructField := f.

(** The program the package runs in: the declarations of its struct types
    and the helpers of the sibling packages, which [scope.go] only calls
    ([model.ParseTagSetting], [util.ToDBName], [inflection.Plural],
    [ast.IsExported], [util.IsBlank]); [isScanner t] says whether a pointer
    to [t] implements [sql.Scanner]. *)
Class Program : Type := {
  decl : string → StructDecl;
  ParseTagSetting : string → gmap string string;
  ToDBName : string → string;
  Plural : string → string;
  IsExported : string → bool;
  utilIsBlank : option RValue → bool;
  isScanner : GoType → bool
}.

(** [engine.Dialect], as far as the package calls it: [e.Dialect.Quote] and
    [e.Dialect.BindVar]. *)
Class Dialect : Type := {
  DialectQuote : string → string;
  BindVar : nat → string
}.

Section Scope.

Context {P : Program} {D : Dialect}.

(** *** Quote *)
Definition Quote (str : string) : string :=
  if negb (GoStrings.Index str "." =? -1)%Z then
    GoStrings.Join (map DialectQuote (GoStrings.Split str ".")) "."
  else DialectQuote str.

(** *** AddToVars *)
Fixpoint AddToVars (value : SQLArg) : M string :=
  match value with
  | ArgExpr Q Args =>
      (fix range (args : list SQLArg) (exp : string) : M string :=
         match args with
         | [] => ret exp
         | arg :: rest =>
             tok <- AddToVars arg ;;
             range rest (GoStrings.Replace1 exp "?" tok)
         end) Args Q
  | ArgVal v =>
      s <- get ;;
      put (withSQLVars (SQLVars s ++ [v]) s) ;;;
      vars <- gets SQLVars ;;
      ret (BindVar (length vars))
  end.

(** *** GetForeignField *)
Definition matchesColumn (column : string) (f : StructField) : bool :=
  String.eqb (Name f) column || String.eqb (DBName f) column
  || String.eqb (DBName f) (ToDBName column).

(** The first descriptor of [fields] the column names; the heap is read
    for the descriptors' [Name] and [DBName]. *)
Definition GetForeignField (column : string) (fields : list nat)
    (h : list StructField) : option nat :=
  List.find (λ a, match h !! a with
                  | Some f => matchesColumn column f
                  | None => false
                  end) fields.

(** [v.FieldByName(name)] of [reflect]: a panic ([None]) unless [v] is a
    struct; the zero Value when the struct declares no such field. *)
Definition valueFieldByName (v : option RValue) (name : string)
  : option (option RValue) :=
  let declared id :=
    List.find (λ fd, String.eqb (fdName fd) name) (sFields (decl id)) in
  match v with
  | Some (RZero (TStruct id)) =>
      Some (match declared id with
            | Some fd => Some (RZero (fdType fd))
            | None => None
            end)
  | Some (RStruct id fs) =>
      Some (match declared id with
            | Some fd =>
                match List.find (λ kv, String.eqb (fst kv) name) fs with
                | Some kv => Some (snd kv)
                | None => Some (RZero (fdType fd))
                end
            | None => None
            end)
  | _ => None
  end.

(** [for _, name := range names { v = reflect.Indirect(v).FieldByName(name) }],
    [None] when one of the calls panics. *)
Fixpoint walkNames (v : option RValue) (names : list string)
  : option (option RValue) :=
  match names with
  | [] => Some v
  | name :: rest =>
      match valueFieldByName (Indirect v) name with
      | Some v' => walkNames v' rest
      | None => None
      end
  end.

(** Does the dynamic type of [value] have the [TableName] method of the
    given interface in its method set. *)
Definition tablerOf (k : TablerKind) (value : option RValue)
  : option TablerImpl :=
  match value with
  | Some v =>
      match typeOf v with
      | TStruct id =>
          match sTabler (decl id) with
          | Some t => if bool_decide (tablerKind t = k)
                         && negb (tablerPtrReceiver t)
                      then Some t else None
          | None => None
          end
      | TPtr (TStruct id) =>
          match sTabler (decl id) with
          | Some t => if bool_decide (tablerKind t = k) then Some t else None
          | None => None
          end
      | _ => None
      end
  | None => None
  end.

(** Calling the method: a value receiver dereferences the pointer. *)
Definition callTableName (t : TablerImpl) (value : option RValue) : M string :=
  match value with
  | Some (RZero (TPtr _)) =>
      if tablerPtrReceiver t then ret (tablerName t)
      else throw PanicNilDereference
  | _ => ret (tablerName t)
  end.

Section Recursion.

(** The recursive call. *)
Variable getModelStruct : option RValue → M (result nat).

(** *** Fields *)
Fixpoint snapshot (isStruct : bool) (i : option RValue)
    (structFields : list nat) : M (list Field) :=
  match structFields with
  | [] => ret []
  | structField :: rest =>
      fd <- (if isStruct then
               sf <- loadField structField ;;
               match walkNames i (Names sf) with
               | Some fieldValue =>
                   ret {| fStructField := structField;
                          fValue := fieldValue;
                          IsBlank := utilIsBlank fieldValue |}
               | None => throw PanicReflect
               end
             else
               ret {| fStructField := structField; fValue := None;
                      IsBlank := true |}) ;;
      fds <- snapshot isStruct i rest ;;
      ret (fd :: fds)
  end.

Definition Fields (value : option RValue) : M (result (list Field)) :=
  let i := value in
  let i := match valueKind i with
           | Some KPtr => valueElem i
           | _ => i
           end in
  let isStruct := bool_decide (valueKind i = Some KStruct) in
  m <-? getModelStruct value ;;
  ms <- loadStruct m ;;
  fields <- snapshot isStruct i (StructFields ms) ;;
  ret (Val fields).

(** *** FieldByName *)
Fixpoint lookupByName (name dbName : string) (fds : list Field)
  : M (result Field) :=
  match fds with
  | [] => ret (Err ErrFieldNotFound)
  | field :: rest =>
      sf <- loadField (fStructField field) ;;
      if String.eqb (Name sf) name || String.eqb (DBName sf) name then
        ret (Val field)
      else if String.eqb (DBName sf) dbName then ret (Val field)
      else lookupByName name dbName rest
  end.

Definition FieldByName (value : option RValue) (name : string)
  : M (result Field) :=
  let dbName := ToDBName name in
  fds <-? Fields value ;;
  lookupByName name dbName fds.

(** *** PrimaryFields *)
Fixpoint keepPrimary (fds : list Field) : M (list Field) :=
  match fds with
  | [] => ret []
  | field :: rest =>
      sf <- loadField (fStructField field) ;;
      fields <- keepPrimary rest ;;
      ret (if IsPrimaryKey sf then field :: fields else fields)
  end.

Definition PrimaryFields (value : option RValue) : M (result (list Field)) :=
  fds <-? Fields value ;;
  fields <- keepPrimary fds ;;
  ret (Val fields).

(** *** PrimaryField *)
Definition PrimaryField (value : option RValue) : M (result Field) :=
  m <-? getModelStruct value ;;
  ms <- loadStruct m ;;
  let primaryFields := PrimaryFields_ ms in
  if Nat.ltb 0 (length primaryFields) then
    if Nat.ltb 1 (length primaryFields) then
      field <-? FieldByName value "id" ;;
      ret (Val field)
    else
      pf <-? PrimaryFields value ;;
      match pf !! 0 with
      | Some f => ret (Val f)
      | None => throw PanicIndexOutOfRange
      end
  else ret (Err ErrNoFieldFound).

(** *** PrimaryKey *)
Definition PrimaryKey (value : option RValue) : M (result string) :=
  pf <-? PrimaryField value ;;
  sf <- loadField (fStructField pf) ;;
  ret (Val (DBName sf)).

(** The part of [TableName] after the search override. *)
Definition tableNameOfValue (value : option RValue) : M string :=
  match tablerOf IsTabler value, tablerOf IsDBTabler value with
  | Some t, _ => callTableName t value
  | None, Some t => callTableName t value
  | None, None =>
      r <- getModelStruct value ;;
      match r with
      | Err _ => ret ""
      | Val ms => m <- loadStruct ms ;; ret (DefaultTableName m)
      end
  end.

(** *** TableName *)
Definition TableName (value : option RValue) : M string :=
  search <- gets Search ;;
  match search with
  | Some name =>
      if Nat.ltb 0 (String.length name) then ret name
      else tableNameOfValue value
  | None => tableNameOfValue value
  end.

(** *** QuotedTableName *)
Definition QuotedTableName (value : option RValue) : M string :=
  search <- gets Search ;;
  match search with
  | Some name =>
      if Nat.ltb 0 (String.length name) then
        if negb (GoStrings.Index name " " =? -1)%Z then ret name
        else ret (Quote name)
      else
        name <- TableName value ;;
        ret (Quote name)
  | None =>
      name <- TableName value ;;
      ret (Quote name)
  end.

(** *** HasColumn *)

(** [for _, field := range ms.StructFields], until a normal field answers
    to the column. *)
Fixpoint anyNormalColumn (column : string) (fields : list nat) : M bool :=
  match fields with
  | [] => ret false
  | field :: rest =>
      f <- loadField field ;;
      if IsNormal f
         && (String.eqb (Name f) column || String.eqb (DBName f) column)
      then ret true
      else anyNormalColumn column rest
  end.

Definition HasColumn (modelValue : option RValue) (column : string) : M bool :=
  r <- getModelStruct modelValue ;;
  match r with
  | Err _ => ret false
  | Val ms =>
      m <- loadStruct ms ;;
      anyNormalColumn column (StructFields m)
  end.

(** *** The relationship builders *)

(** [strings.Split(tags[key], ",")] when the annotation is not empty. *)
Definition tagList (ts : gmap string string) (key : string) : list string :=
  if String.eqb (tagValue ts key) "" then []
  else GoStrings.Split (tagValue ts key) ",".

(** The descriptors the names of [keys] resolve to among [fields]. *)
Definition resolveAmong (fields : list nat) (h : list StructField)
    (keys : list string) : list StructField :=
  omap (λ key, match GetForeignField key fields h with
               | Some a => h !! a
               | None => None
               end) keys.

(** The polymorphic-owner annotation, written alike in both builders:
    when the target has the [<label>Type] column the association type
    becomes the label, the relationship records the column, and the
    column is flagged as a foreign key.  [defaultValue] is what the
    builder falls back to without [POLYMORPHIC_VALUE]. *)
Definition polymorphicOwner (ts : gmap string string) (toFields : list nat)
    (defaultValue : M string) (associationType : string)
    (rel : Relationship) : M (string * Relationship) :=
  let polymorphic := tagValue ts "POLYMORPHIC" in
  if String.eqb polymorphic "" then ret (associationType, rel)
  else
    h <- gets fieldHeap ;;
    match GetForeignField (polymorphic +:+ "Type") toFields h with
    | Some polymorphicType =>
        pt <- loadField polymorphicType ;;
        value <- match ts !! "POLYMORPHIC_VALUE" with
                 | Some value => ret value
                 | None => defaultValue
                 end ;;
        updateField polymorphicType (setIsForeignKey true) ;;;
        ret (polymorphic,
             setPolymorphic (Name pt) (DBName pt) value rel)
    | None => ret (associationType, rel)
    end.

(** The derivation of the two key lists, which the source writes three
    times (has_many, has_one, belongs_to) with the same shape:
    - neither list annotated: one pair per primary field;
    - only the association keys annotated: a foreign key for each that
      names a field of [lookupIn] (the new names are appended after the
      annotated ones);
    - only the foreign keys annotated: the association keys are the
      foreign keys without [prefix] that name a field of [lookupIn], or
      the primary key when a single foreign key gave none;
    - both annotated: they must be equally long. *)
Definition deriveKeys (prefix : string) (lookupIn : list nat)
    (primaries : M (result (list StructField)))
    (primaryKey : M (result string))
    (fks associationForeignKeys : list string)
  : M (result (list string * list string)) :=
  match fks with
  | [] =>
      match associationForeignKeys with
      | [] =>
          pfs <-? primaries ;;
          ret (Val (map (λ f, prefix +:+ Name f) pfs, map Name pfs))
      | _ =>
          h <- gets fieldHeap ;;
          let found := resolveAmong lookupIn h associationForeignKeys in
          ret (Val (map (λ f, prefix +:+ Name f) found,
                    associationForeignKeys ++ map Name found))
      end
  | _ =>
      match associationForeignKeys with
      | [] =>
          h <- gets fieldHeap ;;
          let afks :=
            omap (λ fk,
                    if GoStrings.HasPrefix fk prefix then
                      let associationForeignKey :=
                        GoStrings.TrimPrefix fk prefix in
                      match GetForeignField associationForeignKey lookupIn h with
                      | Some _ => Some associationForeignKey
                      | None => None
                      end
                    else None) fks in
          match afks, fks with
          | [], [_] =>
              pk <-? primaryKey ;;
              ret (Val (fks, [pk]))
          | _, _ => ret (Val (fks, afks))
          end
      | _ =>
          if negb (length fks =? length associationForeignKeys)%nat then
            ret (Err ErrInvalidForeignKeys)
          else ret (Val (fks, associationForeignKeys))
      end
  end.

(** [for idx, fk := range fks]: a pair is kept when [fk] names a field
    of [foreignIn] and [associationForeignKeys[idx]] one of
    [associationIn]; the foreign field is flagged. *)
Fixpoint resolvePairs (foreignIn associationIn : list nat)
    (associationForeignKeys : list string) (idx : nat)
    (fks : list string) (rel : Relationship) : M Relationship :=
  match fks with
  | [] => ret rel
  | fk :: rest =>
      h <- gets fieldHeap ;;
      match GetForeignField fk foreignIn h with
      | Some foreignField =>
          match associationForeignKeys !! idx with
          | None => throw PanicIndexOutOfRange
          | Some afk =>
              match GetForeignField afk associationIn h with
              | Some associationField =>
                  updateField foreignField (setIsForeignKey true) ;;;
                  af <- loadField associationField ;;
                  ff <- loadField foreignField ;;
                  resolvePairs foreignIn associationIn
                    associationForeignKeys (S idx) rest
                    (addForeign (Name ff) (DBName ff)
                       (addAssociation (Name af) (DBName af) rel))
              | None =>
                  resolvePairs foreignIn associationIn
                    associationForeignKeys (S idx) rest rel
              end
          end
      | None =>
          resolvePairs foreignIn associationIn
            associationForeignKeys (S idx) rest rel
      end
  end.

(** The association side of a many-to-many relationship. *)
Fixpoint joinAssociations (toScope : option RValue) (elemName : string)
    (names : list string) (rel : Relationship) : M (result Relationship) :=
  match names with
  | [] => ret (Val rel)
  | name :: rest =>
      field <-? FieldByName toScope name ;;
      sf <- loadField (fStructField field) ;;
      joinAssociations toScope elemName rest
        (addAssociation (DBName sf)
           (ToDBName elemName +:+ "_" +:+ DBName sf) rel)
  end.

(** [m.PrimaryFields], as descriptors. *)
Definition ownPrimaries (m : ModelStruct) : M (result (list StructField)) :=
  pfs <- loadFields (PrimaryFields_ m) ;;
  ret (Val pfs).

(** [PrimaryFields(e, toScope)], as descriptors. *)
Definition targetPrimaries (toScope : option RValue)
  : M (result (list StructField)) :=
  pf <-? PrimaryFields toScope ;;
  pfs <- loadFields (map fStructField pf) ;;
  ret (Val pfs).

Definition attachIfResolved (field : nat) (kind : string)
    (rel : Relationship) : M unit :=
  if negb (length (ForeignFieldNames rel) =? 0)%nat then
    updateField field (setRelationship (Some (setKind kind rel)))
  else ret tt.

Definition buildRelationSlice (modelValue : option RValue)
    (refType : string) (m : ModelStruct) (field : nat) : M (result unit) :=
  f <- loadField field ;;
  let rel := emptyRelationship in
  let toScope := reflectNew (fdType (Struct f)) in
  let fks := tagList (TagSettings f) "FOREIGNKEY" in
  let associationForeignKeys :=
    tagList (TagSettings f) "ASSOCIATIONFOREIGNKEY" in
  match stripSlicePtr (fdType (Struct f)) with
  | TStruct elemType =>
      if negb (String.eqb (tagValue (TagSettings f) "MANY2MANY") "") then
        let rel := setKind "many_to_many" rel in
        fks <- match fks with
               | [] => pfs <- loadFields (PrimaryFields_ m) ;;
                       ret (map DBName pfs)
               | _ => ret fks
               end ;;
        h <- gets fieldHeap ;;
        let rel :=
          fold_left
            (λ r foreignField,
               addForeign (DBName foreignField)
                 (ToDBName (sName (decl refType)) +:+ "_"
                    +:+ DBName foreignField) r)
            (resolveAmong (StructFields m) h fks) rel in
        names <-? match associationForeignKeys with
                  | [] => pfs <-? targetPrimaries toScope ;;
                          ret (Val (map DBName pfs))
                  | _ => ret (Val associationForeignKeys)
                  end ;;
        rel <-? joinAssociations toScope (sName (decl elemType)) names rel ;;
        updateField field (setRelationship (Some rel)) ;;;
        ret (Val tt)
      else
        let associationType := sName (decl refType) in
        ms <-? getModelStruct toScope ;;
        target <- loadStruct ms ;;
        let toFields := StructFields target in
        let rel := setKind "has_many" rel in
        owner <- polymorphicOwner (TagSettings f) toFields
                   (search <- gets Search ;;
                    match search with
                    | Some name => ret name
                    | None => throw PanicNilDereference
                    end)
                   associationType rel ;;
        keys <-? deriveKeys (fst owner) (StructFields m) (ownPrimaries m)
                   (PrimaryKey modelValue) fks associationForeignKeys ;;
        rel <- resolvePairs toFields (StructFields m) (snd keys) 0
                 (fst keys) (snd owner) ;;
        attachIfResolved field "has_many" rel ;;;
        ret (Val tt)
  | _ =>
      updateField field (setIsNormal true) ;;;
      ret (Val tt)
  end.

Definition buildRelationStruct (modelValue : option RValue)
    (refType : string) (m : ModelStruct) (field : nat) : M (result unit) :=
  f <- loadField field ;;
  let associationType := sName (decl refType) in
  let rel := emptyRelationship in
  let toScope := reflectNew (fdType (Struct f)) in
  ms <-? getModelStruct toScope ;;
  target <- loadStruct ms ;;
  let toFields := StructFields target in
  let tagForeignKeys := tagList (TagSettings f) "FOREIGNKEY" in
  let tagAssociationForeignKeys :=
    tagList (TagSettings f) "ASSOCIATIONFOREIGNKEY" in
  owner <- polymorphicOwner (TagSettings f) toFields
             (TableName modelValue) associationType rel ;;
  (* Has One *)
  keys <-? deriveKeys (fst owner) (StructFields m) (ownPrimaries m)
             (PrimaryKey modelValue)
             tagForeignKeys tagAssociationForeignKeys ;;
  rel <- resolvePairs toFields (StructFields m) (snd keys) 0 (fst keys)
           (snd owner) ;;
  if negb (length (ForeignFieldNames rel) =? 0)%nat then
    updateField field (setRelationship (Some (setKind "has_one" rel))) ;;;
    ret (Val tt)
  else
    (* Belongs To *)
    keys <-? deriveKeys (Name f) toFields (targetPrimaries toScope)
               (PrimaryKey toScope)
               tagForeignKeys tagAssociationForeignKeys ;;
    rel <- resolvePairs (StructFields m) toFields (snd keys) 0 (fst keys)
             rel ;;
    attachIfResolved field "belongs_to" rel ;;;
    ret (Val tt).

(** The deferred calls, newest first; what a builder returns is dropped,
    as [defer] does with the results of the call. *)
Fixpoint runDeferred (value : option RValue) (refType : string)
    (m : ModelStruct) (deferred : list Deferred) : M unit :=
  match deferred with
  | [] => ret tt
  | DeferSlice field :: rest =>
      buildRelationSlice value refType m field ;;;
      runDeferred value refType m rest
  | DeferStruct field :: rest =>
      buildRelationStruct value refType m field ;;;
      runDeferred value refType m rest
  end.

(** *** GetModelStruct *)

(** The tag settings of every field of a scanner's struct type, merged
    into the settings of the field. *)
Definition scannerTags (inType : GoType) (ts : gmap string string)
  : gmap string string :=
  match inType with
  | TStruct id =>
      fold_left (λ acc fd, ParseTagSetting (fdTag fd) ∪ acc)
        (sFields (decl id)) ts
  | _ => ts
  end.

(** The sub-fields of an embedded record, cloned into [m]. *)
Fixpoint embedSubFields (fStructName : string) (ts : gmap string string)
    (subFields : list nat) (m : ModelStruct) : M ModelStruct :=
  match subFields with
  | [] => ret m
  | subField :: rest =>
      sf <- loadField subField ;;
      let c := setNames (fStructName :: Names sf) (Clone sf) in
      let c := match ts !! "EMBEDDED_PREFIX" with
               | Some prefix => setDBName (prefix +:+ DBName c) c
               | None => c
               end in
      a <- newField c ;;
      let m := if IsPrimaryKey c then addPrimaryField a m else m in
      embedSubFields fStructName ts rest (addStructField a m)
  end.

(** The column name and the append that end the loop body. *)
Definition appendField (fStruct : FieldDecl) (a : nat)
    (field : StructField) (m : ModelStruct) (deferred : list Deferred)
  : M (ModelStruct * list Deferred * option error) :=
  let field :=
    setDBName (match TagSettings field !! "COLUMN" with
               | Some value => value
               | None => ToDBName (fdName fStruct)
               end) field in
  updateField a (λ _, field) ;;;
  ret (addStructField a m, deferred, None).

(** One turn of the loop over the fields of the type.  The descriptor is
    allocated where the source builds it; the local updates of the turn
    are written to it when the turn hands it on.  The third component
    of the result is the error of an early [return nil, err]. *)
Definition fieldStep (fStruct : FieldDecl) (m : ModelStruct)
    (deferred : list Deferred)
  : M (ModelStruct * list Deferred * option error) :=
  if negb (IsExported (fdName fStruct)) then ret (m, deferred, None)
  else
    let field :=
      {| DBName := ""; Name := fdName fStruct; Names := [fdName fStruct];
         IsPrimaryKey := false; IsNormal := false; IsIgnored := false;
         IsScanner := false; HasDefaultValue := false;
         Tag := fdTag fStruct;
         TagSettings := ParseTagSetting (fdTag fStruct);
         Struct := fStruct; IsForeignKey := false;
         Relationship_ := None |} in
    a <- newField field ;;
    if hasTag (TagSettings field) "-" then
      appendField fStruct a (setIsIgnored true field) m deferred
    else
      let isPrimary := hasTag (TagSettings field) "PRIMARY_KEY" in
      let field := if isPrimary then setIsPrimaryKey true field else field in
      let m := if isPrimary then addPrimaryField a m else m in
      let field := if hasTag (TagSettings field) "DEFAULT"
                   then setHasDefaultValue true field else field in
      let field := if hasTag (TagSettings field) "AUTO_INCREMENT"
                      && negb (IsPrimaryKey field)
                   then setHasDefaultValue true field else field in
      let inType := stripPtr (fdType fStruct) in
      if isScanner inType then
        appendField fStruct a
          (setTagSettings (scannerTags inType (TagSettings field))
             (setIsNormal true (setIsScanner true field)))
          m deferred
      else if bool_decide (inType = timeType) then
        appendField fStruct a (setIsNormal true field) m deferred
      else if hasTag (TagSettings field) "EMBEDDED" || fdAnonymous fStruct then
        updateField a (λ _, field) ;;;
        r <- getModelStruct (reflectNew inType) ;;
        match r with
        | Err err => ret (m, deferred, Some err)
        | Val ms =>
            sub <- loadStruct ms ;;
            m <- embedSubFields (fdName fStruct) (TagSettings field)
                   (StructFields sub) m ;;
            ret (m, deferred, None)
        end
      else
        match kindOf inType with
        | KSlice => appendField fStruct a field m (DeferSlice a :: deferred)
        | KStruct => appendField fStruct a field m (DeferStruct a :: deferred)
        | _ => appendField fStruct a (setIsNormal true field) m deferred
        end.

Fixpoint fieldLoop (fields : list FieldDecl) (m : ModelStruct)
    (deferred : list Deferred)
  : M (ModelStruct * list Deferred * option error) :=
  match fields with
  | [] => ret (m, deferred, None)
  | fStruct :: rest =>
      r <- fieldStep fStruct m deferred ;;
      match r with
      | (m', deferred', None) => fieldLoop rest m' deferred'
      | (_, _, Some _) => ret r
      end
  end.

(** [if len(m.PrimaryFields) == 0]: the field named [id] is promoted. *)
Definition promoteID (m : ModelStruct) : M ModelStruct :=
  match PrimaryFields_ m with
  | [] =>
      h <- gets fieldHeap ;;
      match GetForeignField "id" (StructFields m) h with
      | Some field =>
          updateField field (setIsPrimaryKey true) ;;;
          ret (addPrimaryField field m)
      | None => ret m
      end
  | _ => ret m
  end.

(** The table name a shape gets by default. *)
Definition defaultTableName (refType : string) : M string :=
  match sTabler (decl refType) with
  | Some {| tablerKind := IsTabler; tablerName := name |} => ret name
  | _ =>
      let tableName := ToDBName (sName (decl refType)) in
      singular <- gets SingularTable ;;
      ret (if negb singular then Plural tableName else tableName)
  end.

Definition GetModelStruct_body (value : option RValue) : M (result nat) :=
  match value with
  | None => ret (Err ErrNilValue)
  | Some v =>
      match unwrapType (typeOf v) with
      | TStruct refType =>
          cache <- gets StructMap ;;
          match cache !! refType with
          | Some p => ret (Val p)
          | None =>
              tableName <- defaultTableName refType ;;
              let m := {| PrimaryFields_ := []; StructFields := [];
                          ModelType := refType;
                          DefaultTableName := tableName |} in
              r <- fieldLoop (sFields (decl refType)) m [] ;;
              match r with
              | (m, deferred, Some err) =>
                  runDeferred value refType m deferred ;;;
                  ret (Err err)
              | (m, deferred, None) =>
                  m <- promoteID m ;;
                  p <- newStruct m ;;
                  StructMapSet refType p ;;;
                  runDeferred value refType m deferred ;;;
                  ret (Val p)
              end
          end
      | t => ret (Err (ErrNotSupported (kindOf t)))
      end
  end.

End Recursion.
End Scope.

(** [GetModelStruct], with the depth of its recursion bounded by [fuel]. *)
Fixpoint GetModelStruct {P : Program} (fuel : nat) (value : option RValue)
  : M (result nat) :=
  match fuel with
  | O => λ _, OutOfFuel
  | S n => GetModelStruct_body (GetModelStruct n) value
  end.

(** ** A concrete program: collaborators and record shapes for the examples. *)
Module Fixture.

Definition isUpper (c : ascii) : bool :=
  (65 <=? nat_of_ascii c)%nat && (nat_of_ascii c <=? 90)%nat.
Definition isLower (c : ascii) : bool :=
  (97 <=? nat_of_ascii c)%nat && (nat_of_ascii c <=? 122)%nat.
Definition toLower (c : ascii) : ascii :=
  if isUpper c then ascii_of_nat (nat_of_ascii c + 32) else c.
Definition toUpper (c : ascii) : ascii :=
  if isLower c then ascii_of_nat (nat_of_ascii c - 32) else c.

Fixpoint mapBytes (f : ascii → ascii) (s : string) : string :=
  match s with
  | EmptyString => EmptyString
  | String c t => String (f c) (mapBytes f t)
  end.

(** [ast.IsExported] on ASCII identifiers. *)
Definition isExported (name : string) : bool :=
  match name with
  | String c _ => isUpper c
  | EmptyString => false
  end.

(** A snake-case transform: an underscore before every upper-case letter
    that follows a lower-case one, then everything in lower case
    ([UserID] gives [user_id], [ID] gives [id]). *)
Fixpoint snake (prevLower : bool) (s : string) : string :=
  match s with
  | EmptyString => EmptyString
  | String c t =>
      if isUpper c && prevLower then String "_" (String (toLower c) (snake false t))
      else String (toLower c) (snake (isLower c) t)
  end.
Definition toDBName (name : string) : string := snake false name.

Definition plural (name : string) : string := name +:+ "s".

(** Tag settings, read from the text of the [gorm] key of a struct tag:
    settings are separated by [;], a key and its value by [:], keys are
    upper-cased, and a setting without a value has its key as value. *)
Definition parseTagSetting (tag : string) : gmap string string :=
  fold_left
    (λ setting value,
       match GoStrings.Split value ":" with
       | [k] => <[mapBytes toUpper k := mapBytes toUpper k]> setting
       | k :: v => <[mapBytes toUpper k := GoStrings.Join v ":"]> setting
       | [] => setting
       end)
    (GoStrings.Split tag ";") ∅.

(** The scanner types of the examples: [sql.NullString]. *)
Definition scanner (t : GoType) : bool :=
  bool_decide (t = TStruct "sql.NullString").

Definition isBlank (v : option RValue) : bool :=
  match v with
  | Some (RZero _) | None => true
  | Some _ => false
  end.

(** A dialect quoting with double quotes and numbering parameters [$n]. *)
Definition doubleQuote : string := String (ascii_of_nat 34) EmptyString.
Definition quote (s : string) : string :=
  doubleQuote +:+ s +:+ doubleQuote.

Definition digit (n : nat) : string :=
  String (ascii_of_nat (48 + n)) EmptyString.
Fixpoint decimal (fuel n : nat) : string :=
  match fuel with
  | O => ""
  | S k => if (n <? 10)%nat then digit n
           else decimal k (n / 10) +:+ digit (n mod 10)
  end.
Definition bindVar (n : nat) : string := "$" +:+ decimal (S n) n.

Definition fld (name : string) (t : GoType) (tag : string) : FieldDecl :=
  {| fdName := name; fdType := t; fdTag := tag; fdAnonymous := false |}.
Definition anon (name : string) (t : GoType) (tag : string) : FieldDecl :=
  {| fdName := name; fdType := t; fdTag := tag; fdAnonymous := true |}.
Definition plain (name : string) (fields : list FieldDecl) : StructDecl :=
  {| sName := name; sFields := fields; sTabler := None |}.

Definition int : GoType := TOther "int".
Definition str : GoType := TOther "string".

(** The record shapes. *)
Definition declarations (id : string) : StructDecl :=
  match id with
  (* type User struct { ID int; Name string; Age int } *)
  | "User" => plain "User" [fld "ID" int ""; fld "Name" str ""; fld "Age" int ""]
  (* type CustomizeColumn struct { ID int `column:mapped_id;primary_key`; Name string } *)
  | "CustomizeColumn" =>
      plain "CustomizeColumn"
        [fld "ID" int "column:mapped_id;primary_key"; fld "Name" str ""]
  (* type Pet struct { ID int; Name string } *)
  | "Pet" => plain "Pet" [fld "ID" int ""; fld "Name" str ""]
  (* type Owner struct { ID int; Pet Pet `foreignkey:OwnerID,OwnerName;associationforeignkey:ID` } *)
  | "Owner" =>
      plain "Owner"
        [fld "ID" int "";
         fld "Pet" (TStruct "Pet")
           "foreignkey:OwnerID,OwnerName;associationforeignkey:ID"]
  (* type Label struct { Text string } *)
  | "Label" => plain "Label" [fld "Text" str ""]
  (* type Post struct { ID int; Labels []Label } *)
  | "Post" => plain "Post" [fld "ID" int ""; fld "Labels" (TSlice (TStruct "Label")) ""]
  (* type Note struct { Labels []Label `many2many:note_labels` } *)
  | "Note" =>
      plain "Note" [fld "Labels" (TSlice (TStruct "Label")) "many2many:note_labels"]
  (* type Memo struct { ID int; Labels []Label `many2many:memo_labels;foreignkey:ID;associationforeignkey:Text,Text` } *)
  | "Memo" =>
      plain "Memo"
        [fld "ID" int "";
         fld "Labels" (TSlice (TStruct "Label"))
           "many2many:memo_labels;foreignkey:ID;associationforeignkey:Text,Text"]
  (* type Comment struct { ID int; PostID int } *)
  | "Comment" => plain "Comment" [fld "ID" int ""; fld "PostID" int ""]
  (* type Thread struct { ID int; Comments []Comment `foreignkey:PostID,ID;associationforeignkey:ID` } *)
  | "Thread" =>
      plain "Thread"
        [fld "ID" int "";
         fld "Comments" (TSlice (TStruct "Comment"))
           "foreignkey:PostID,ID;associationforeignkey:ID"]
  (* type Pair struct { Left int `primary_key`; Right int `primary_key` } *)
  | "Pair" =>
      plain "Pair" [fld "Left" int "primary_key"; fld "Right" int "primary_key"]
  (* type Keyless struct { Title string } *)
  | "Keyless" => plain "Keyless" [fld "Title" str ""]
  (* type Base struct { ID int; CreatedAt time.Time } *)
  | "Base" => plain "Base" [fld "ID" int ""; fld "CreatedAt" timeType ""]
  (* type Doc struct { Base `embedded_prefix:base_`; Title string } *)
  | "Doc" =>
      plain "Doc" [anon "Base" (TStruct "Base") "embedded_prefix:base_"; fld "Title" str ""]
  (* type Hidden struct { Base `-`; Title string } *)
  | "Hidden" => plain "Hidden" [anon "Base" (TStruct "Base") "-"; fld "Title" str ""]
  (* type Stamped struct { time.Time; Title string } *)
  | "Stamped" => plain "Stamped" [anon "Time" timeType ""; fld "Title" str ""]
  (* type Entry struct { ID int; BlogID int } *)
  | "Entry" => plain "Entry" [fld "ID" int ""; fld "BlogID" int ""]
  (* type Blog struct { ID int; Entries []Entry } *)
  | "Blog" => plain "Blog" [fld "ID" int ""; fld "Entries" (TSlice (TStruct "Entry")) ""]
  (* type Loop struct { *Loop } *)
  | "Loop" => plain "Loop" [anon "Loop" (TPtr (TStruct "Loop")) ""]
  | _ => plain id []
  end.

Global Instance program : Program :=
  {| decl := declarations; ParseTagSetting := parseTagSetting;
     ToDBName := toDBName; Plural := plural; IsExported := isExported;
     utilIsBlank := isBlank; isScanner := scanner |}.

Global Instance dialect : Dialect :=
  {| DialectQuote := quote; BindVar := bindVar |}.

(** [&T{}] for a declared struct type. *)
Definition ptrTo (id : string) : option RValue := Some (RPtr (RZero (TStruct id))).

Definition engine : State := newEngine false (Some "").

(** The engine after [GetModelStruct(e, &T{})] on a new engine. *)
Definition resolvedState (id : string) : State :=
  match GetModelStruct 3 (ptrTo id) engine with
  | Done _ s => s
  | _ => engine
  end.

End Fixture.

(** * What the properties are stated with *)

(** ** AddToVars *)

(** The bound values an argument contributes: itself, or for an expression
    what its arguments contribute, in order. *)
Fixpoint boundValues (value : SQLArg) : list GoVal :=
  match value with
  | ArgVal v => [v]
  | ArgExpr _ Args => concat (map boundValues Args)
  end.

(** The expression text [seg1 ? seg2 ? ... segn ? tail]. *)
Fixpoint template (segments : list string) (tail : string) : string :=
  match segments with
  | [] => tail
  | seg :: rest => seg +:+ "?" +:+ template rest tail
  end.

(** The same text with the [i]-th [?] replaced by the placeholder of
    position [pos + i]. *)
Fixpoint filled {D : Dialect} (pos : nat) (segments : list string)
    (tail : string) : string :=
  match segments with
  | [] => tail
  | seg :: rest => seg +:+ BindVar pos +:+ filled (S pos) rest tail
  end.

(** The loop of [AddToVars] over the arguments of an expression. *)
Definition rangeArgs {D : Dialect} : list SQLArg → string → M string :=
  fix range (args : list SQLArg) (exp : string) : M string :=
    match args with
    | [] => ret exp
    | arg :: rest =>
        tok <- AddToVars arg ;;
        range rest (GoStrings.Replace1 exp "?" tok)
    end.

(** ** The condition compiler, for primary-key conditions *)

(** A condition on the primary key: one value, or a collection of values. *)
Inductive Condition : Type :=
| PrimaryKeyValue (v : GoVal)
| PrimaryKeyValues (vs : list GoVal).

Section Builder.
Context {D : Dialect}.

(** Every value of a collection goes through [AddToVars], in order. *)
Fixpoint bindAll (vs : list GoVal) : M (list string) :=
  match vs with
  | [] => ret []
  | v :: rest =>
      tok <- AddToVars (ArgVal v) ;;
      toks <- bindAll rest ;;
      ret (tok :: toks)
  end.

(** Modelled from the spec: the compilation of a primary-key condition by
    [builder.Where] and, negated, by [builder.Not], whose code is not part
    of the sources at hand (only its tests are).  After section 4.3 of
    the spec: a scalar compiles to
    [quotedTable.quotedPrimaryKeyColumn = placeholder], with [<>] when
    negated; a collection to [... IN (placeholder, ...)], with [NOT IN]
    when negated; an empty collection to the empty fragment, negated or
    not; the fragment is wrapped in one pair of parentheses and every
    value is routed through the parameter binder. *)
Definition compileCondition (negated : bool) (table primaryKey : string)
    (cond : Condition) : M string :=
  let column :=
    Quote table +:+ "." +:+ Quote primaryKey in
  match cond with
  | PrimaryKeyValue v =>
      tok <- AddToVars (ArgVal v) ;;
      ret ("(" +:+ column +:+ (if negated then " <> " else " = ")
             +:+ tok +:+ ")")
  | PrimaryKeyValues [] => ret ""
  | PrimaryKeyValues vs =>
      toks <- bindAll vs ;;
      ret ("(" +:+ column +:+ (if negated then " NOT IN (" else " IN (")
             +:+ GoStrings.Join toks "," +:+ "))")
  end.

End Builder.

(** ** What a run may change, and what every reachable state satisfies *)

(** A descriptor without the parts the relationship builders write. *)
Definition core (f : StructField) : StructField :=
  setIsForeignKey false (setRelationship None (setIsNormal false f)).

(** Two states of one descriptor: equal but for [IsForeignKey],
    [Relationship] and [IsNormal]. *)
Definition stable (f f' : StructField) : Prop := core f = core f'.

(** The state after a run, seen from the state before it: published shapes
    stay published, the schema descriptions that existed are unchanged, the
    descriptors that existed are [stable], the descriptions added refer to
    descriptors added, and the rest of the engine is as it was. *)
Record extends (s s' : State) : Prop := {
  ext_cache : ∀ k p, StructMap s !! k = Some p → StructMap s' !! k = Some p;
  ext_structs : ∀ p m, structHeap s !! p = Some m → structHeap s' !! p = Some m;
  ext_structs_len : length (structHeap s) ≤ length (structHeap s');
  ext_fields : ∀ a f, fieldHeap s !! a = Some f →
                      ∃ f', fieldHeap s' !! a = Some f' ∧ stable f f';
  ext_fields_len : length (fieldHeap s) ≤ length (fieldHeap s');
  ext_fresh : ∀ p m a, structHeap s' !! p = Some m →
                       length (structHeap s) ≤ p →
                       a ∈ StructFields m → length (fieldHeap s) ≤ a;
  ext_singular : SingularTable s' = SingularTable s;
  ext_search : Search s' = Search s;
  ext_vars : SQLVars s' = SQLVars s
}.

(** A field the resolver treats as a plain column: a scanner, a time, or a
    type that is neither a record nor a collection of records. *)
Definition normalShape {P : Program} (fd : FieldDecl) : Prop :=
  isScanner (stripPtr (fdType fd)) = true
  ∨ stripPtr (fdType fd) = timeType
  ∨ ∀ id, stripSlicePtr (fdType fd) ≠ TStruct id.

(** A relationship as the builders attach it: many-to-many, or with at
    least one resolved pair of keys. *)
Definition relationshipResolved (rel : Relationship) : Prop :=
  Kind rel = "many_to_many" ∨ ForeignFieldNames rel ≠ [].

Definition fieldOK {P : Program} (f : StructField) : Prop :=
  (∀ rel, Relationship_ f = Some rel → relationshipResolved rel)
  ∧ (IsNormal f = true → normalShape (Struct f)).

(** A schema description against the heap: its descriptors exist, its
    primary fields are flagged, and the flagged descriptors of its field
    list are among its primary fields. *)
Definition structOK (h : list StructField) (m : ModelStruct) : Prop :=
  (∀ a, a ∈ StructFields m → a < length h)
  ∧ (∀ a, a ∈ PrimaryFields_ m →
          ∃ f, h !! a = Some f ∧ IsPrimaryKey f = true)
  ∧ (∀ a f, a ∈ StructFields m → h !! a = Some f →
            IsPrimaryKey f = true → a ∈ PrimaryFields_ m).

Record wellFormed {P : Program} (s : State) : Prop := {
  wf_fields : Forall fieldOK (fieldHeap s);
  wf_structs : Forall (structOK (fieldHeap s)) (structHeap s);
  wf_cache : ∀ k p, StructMap s !! k = Some p → p < length (structHeap s)
}.

(** Every completed run of [c] extends the state and keeps it well formed. *)
Definition sound {P : Program} {A} (c : M A) : Prop :=
  ∀ s a s', c s = Done a s' → extends s s' ∧ (wellFormed s → wellFormed s').

(** No published description refers to a descriptor of [m]: the
    descriptors of a description under construction are its own. *)
Definition unshared (m : ModelStruct) (s : State) : Prop :=
  ∀ p m' a, structHeap s !! p = Some m' → a ∈ StructFields m →
            a ∉ StructFields m'.

(** What a stretch of the field loop does to the description it builds:
    descriptors are only appended, and the appended ones are new. *)
Definition appended (s : State) (m : ModelStruct) (s' : State)
    (m' : ModelStruct) : Prop :=
  ∃ added, StructFields m' = StructFields m ++ added
           ∧ ∀ a, a ∈ added →
                  length (fieldHeap s) ≤ a < length (fieldHeap s').

(** The invariant of the field loop over the description [m] it builds. *)
Definition building {P : Program} (m : ModelStruct) (s : State) : Prop :=
  wellFormed s ∧ structOK (fieldHeap s) m ∧ unshared m s.

(** The errors of [GetModelStruct] itself: its argument is nil, or unwraps
    to something that is no struct. *)
Definition shapeError (e : error) : Prop :=
  e = ErrNilValue ∨ ∃ k, e = ErrNotSupported k.

(** The value [Fields] walks: the value itself, or what it points to. *)
Definition walked (value : option RValue) : option RValue :=
  match valueKind value with
  | Some KPtr => valueElem value
  | _ => value
  end.

(** [reflect] can walk every name path of [m] through the value. *)
Definition walkable {P : Program} (value : option RValue) (m : ModelStruct)
    (s : State) : Prop :=
  valueKind (walked value) = Some KStruct →
  ∀ a f, a ∈ StructFields m → fieldHeap s !! a = Some f →
         is_Some (walkNames (walked value) (Names f)).

(** The shape of [value] is published in [s], with description [m] at [p]. *)
Definition resolved (value : option RValue) (p : nat) (m : ModelStruct)
    (s : State) : Prop :=
  ∃ v refType,
    value = Some v ∧ unwrapType (typeOf v) = TStruct refType
    ∧ StructMap s !! refType = Some p ∧ structHeap s !! p = Some m.

(** The descriptors of a list that carry the primary-key flag. *)
Definition flagged (h : list StructField) (fields : list nat) : list nat :=
  List.filter (λ a, match h !! a with
                    | Some f => IsPrimaryKey f
                    | None => false
                    end) fields.

(** [walkable], decided on the heap at hand. *)
Definition walkableb {P : Program} (value : option RValue) (m : ModelStruct)
    (s : State) : bool :=
  negb (bool_decide (valueKind (walked value) = Some KStruct))
  || forallb (λ a, match fieldHeap s !! a with
                   | Some f =>
                       match walkNames (walked value) (Names f) with
                       | Some _ => true
                       | None => false
                       end
                   | None => true
                   end) (StructFields m).

(** A descriptor without its four flags that a resolution may still set
    after the descriptor is built: [IsPrimaryKey] and the parts the
    relationship builders write. *)
Definition shell (f : StructField) : StructField :=
  setIsPrimaryKey false (core f).

(** What the loop makes of the sub-field [g] of the embedded field [name]:
    a clone with the name path extended at the front, and the column
    prefixed when the embedding field has [EMBEDDED_PREFIX]. *)
Definition embeddedClone (name : string) (ts : gmap string string)
    (g : StructField) : StructField :=
  let c := setNames (name :: Names g) (Clone g) in
  match ts !! "EMBEDDED_PREFIX" with
  | Some prefix => setDBName (prefix +:+ DBName c) c
  | None => c
  end.

(** The fields the loop of [GetModelStruct] expands in place: exported,
    not ignored, neither a scanner nor a time, and annotated [EMBEDDED] or
    anonymous. *)
Definition embedsAt {P : Program} (fStruct : FieldDecl) : Prop :=
  IsExported (fdName fStruct) = true
  ∧ hasTag (ParseTagSetting (fdTag fStruct)) "-" = false
  ∧ isScanner (stripPtr (fdType fStruct)) = false
  ∧ stripPtr (fdType fStruct) ≠ timeType
  ∧ hasTag (ParseTagSetting (fdTag fStruct)) "EMBEDDED"
    || fdAnonymous fStruct = true.

(** What the rest of the resolution of [refType] keeps of a state on its
    way: the shapes published under other names, the schema descriptions,
    and every descriptor but for its flags. *)
Definition carried (refType : string) (s s' : State) : Prop :=
  (∀ k p, k ≠ refType → StructMap s !! k = Some p → StructMap s' !! k = Some p)
  ∧ (∀ p m, structHeap s !! p = Some m → structHeap s' !! p = Some m)
  ∧ (∀ a f, fieldHeap s !! a = Some f →
            ∃ f', fieldHeap s' !! a = Some f' ∧ shell f = shell f').

(** The clones of the descriptors [subs], in order, in the heap [h]. *)
Definition clonesOf (name : string) (ts : gmap string string)
    (h : list StructField) (subs clones : list nat) : Prop :=
  Forall2 (λ b c, b ≠ c
                  ∧ ∃ g cl, h !! b = Some g ∧ h !! c = Some cl
                            ∧ shell cl = shell (embeddedClone name ts g))
    subs clones.

(** The name path and the column of each descriptor of a field list. *)
Definition namePaths (s : State) (m : ModelStruct)
  : list (option (list string * string)) :=
  map (λ a, (λ f, (Names f, DBName f)) <$> fieldHeap s !! a) (StructFields m).

(** ** What the further properties are stated with *)

(** The part of a description the loop over the fields leaves alone. *)
Definition sameTable (m m' : ModelStruct) : Prop :=
  ModelType m' = ModelType m ∧ DefaultTableName m' = DefaultTableName m.

(** The values [GetModelStruct] rejects, with the error it gives them: nil,
    and the values whose type, without one pointer and then one slice and
    one pointer under it, is no struct. *)
Definition rejected (value : option RValue) (e : error) : Prop :=
  (value = None ∧ e = ErrNilValue)
  ∨ ∃ v, value = Some v
         ∧ (∀ id, unwrapType (typeOf v) ≠ TStruct id)
         ∧ e = ErrNotSupported (kindOf (unwrapType (typeOf v))).

(** What [Fields] makes of the descriptor at [a] for the value [i]. *)
Definition snapshotOf {P : Program} (h : list StructField)
    (i : option RValue) (fd : Field) : Prop :=
  match valueKind i with
  | Some KStruct =>
      ∃ f, h !! fStructField fd = Some f
           ∧ walkNames i (Names f) = Some (fValue fd)
           ∧ IsBlank fd = utilIsBlank (fValue fd)
  | _ => fValue fd = None ∧ IsBlank fd = true
  end.

(** The four name lists of a relationship are equally long. *)
Definition aligned (rel : Relationship) : Prop :=
  length (ForeignDBNames rel) = length (ForeignFieldNames rel)
  ∧ length (AssociationForeignFieldNames rel) = length (ForeignFieldNames rel)
  ∧ length (AssociationForeignDBNames rel) = length (ForeignFieldNames rel).

(** The heap [h'] is [h] with the foreign-key flag set on some
    descriptors. *)
Definition flagsSet (h h' : list StructField) : Prop :=
  length h' = length h
  ∧ ∀ a f, h !! a = Some f →
           h' !! a = Some f ∨ h' !! a = Some (setIsForeignKey true f).

(** A foreign key of [fks], at the position [i] from [idx] on, that names
    a field of [foreignIn] and has no association key at its position. *)
Definition unpaired {P : Program} (foreignIn : list nat)
    (h : list StructField) (associationForeignKeys : list string)
    (idx : nat) (fks : list string) : Prop :=
  ∃ i fk, fks !! i = Some fk
          ∧ is_Some (GetForeignField fk foreignIn h)
          ∧ associationForeignKeys !! (idx + i) = None.

(** The annotations of a field's descriptor: those of the field's tag, and
    for a scanner that is not ignored those of the fields of the
    scanner's struct over them. *)
Definition settingsOf {P : Program} (fd : FieldDecl) : gmap string string :=
  let ts := ParseTagSetting (fdTag fd) in
  if hasTag ts "-" then ts
  else if isScanner (stripPtr (fdType fd))
       then scannerTags (stripPtr (fdType fd)) ts
       else ts.

(** The descriptor of a field that joins the field list as itself: what
    the loop of [GetModelStruct] reads off the declaration. *)
Definition describes {P : Program} (fd : FieldDecl) (f : StructField) : Prop :=
  let ts := ParseTagSetting (fdTag fd) in
  Name f = fdName fd
  ∧ Names f = [fdName fd]
  ∧ Struct f = fd
  ∧ Tag f = fdTag fd
  ∧ TagSettings f = settingsOf fd
  ∧ DBName f = match settingsOf fd !! "COLUMN" with
               | Some column => column
               | None => ToDBName (fdName fd)
               end
  ∧ IsIgnored f = hasTag ts "-"
  ∧ IsScanner f = negb (hasTag ts "-") && isScanner (stripPtr (fdType fd))
  ∧ HasDefaultValue f
    = negb (hasTag ts "-")
      && (hasTag ts "DEFAULT"
          || hasTag ts "AUTO_INCREMENT" && negb (hasTag ts "PRIMARY_KEY")).

(** The types of the values [GetModelStruct] takes for the record type
    [id]: the record, a slice of it or of pointers to it, and a pointer to
    one of these. *)
Definition formsOf (id : string) : list GoType :=
  [ TStruct id; TPtr (TStruct id);
    TSlice (TStruct id); TSlice (TPtr (TStruct id));
    TPtr (TSlice (TStruct id)); TPtr (TSlice (TPtr (TStruct id))) ].

(** ** More record shapes and a second dialect, for the examples *)
Module Samples.

(** The record shapes of [Fixture], and besides them. *)
Definition declarations (id : string) : StructDecl :=
  match id with
  (* type Scalar struct { ID int; Age int `sql:"embedded"` } *)
  | "Scalar" =>
      Fixture.plain "Scalar"
        [Fixture.fld "ID" Fixture.int ""; Fixture.fld "Age" Fixture.int "embedded"]
  (* type Inner struct { ID int } *)
  | "Inner" => Fixture.plain "Inner" [Fixture.fld "ID" Fixture.int ""]
  (* type Outer struct { *Inner; Title string } *)
  | "Outer" =>
      Fixture.plain "Outer"
        [Fixture.anon "Inner" (TPtr (TStruct "Inner")) "";
         Fixture.fld "Title" Fixture.str ""]
  (* type Account struct { ID int }
     func (a *Account) TableName() string { return "accts" } *)
  | "Account" =>
      {| sName := "Account"; sFields := [Fixture.fld "ID" Fixture.int ""];
         sTabler := Some {| tablerKind := IsTabler; tablerPtrReceiver := true;
                            tablerName := "accts" |} |}
  | _ => Fixture.declarations id
  end.

Definition program : Program :=
  {| decl := declarations; ParseTagSetting := Fixture.parseTagSetting;
     ToDBName := Fixture.toDBName; Plural := Fixture.plural;
     IsExported := Fixture.isExported; utilIsBlank := Fixture.isBlank;
     isScanner := Fixture.scanner |}.

(** A dialect that leaves identifiers as they are, as [ql] does. *)
Definition plainDialect : Dialect :=
  {| DialectQuote := λ s, s; BindVar := Fixture.bindVar |}.

(** The engine after [GetModelStruct(e, &T{})] on a new engine. *)
Definition resolvedState (id : string) : State :=
  match GetModelStruct (P:=program) 3 (Fixture.ptrTo id) Fixture.engine with
  | Done _ s => s
  | _ => Fixture.engine
  end.

End Samples.

(** Record shapes at the edges of the primary-key lookup and of the
    polymorphic annotation. *)
Module Corners.

Definition declarations (id : string) : StructDecl :=
  match id with
  (* type InnerN struct { N int } *)
  | "InnerN" => Fixture.plain "InnerN" [Fixture.fld "N" Fixture.int ""]
  (* type OuterPK struct { InnerN `primary_key`; Title string } *)
  | "OuterPK" =>
      Fixture.plain "OuterPK"
        [Fixture.anon "InnerN" (TStruct "InnerN") "primary_key";
         Fixture.fld "Title" Fixture.str ""]
  (* type DocX struct { Base `embedded_prefix:base_`; ID int; Title string } *)
  | "DocX" =>
      Fixture.plain "DocX"
        [Fixture.anon "Base" (TStruct "Base") "embedded_prefix:base_";
         Fixture.fld "ID" Fixture.int ""; Fixture.fld "Title" Fixture.str ""]
  (* type Toy struct { ID int; OwnerID int; OwnerType string } *)
  | "Toy" =>
      Fixture.plain "Toy"
        [Fixture.fld "ID" Fixture.int ""; Fixture.fld "OwnerID" Fixture.int "";
         Fixture.fld "OwnerType" Fixture.str ""]
  (* type Dog struct { ID int; Toys []Toy `polymorphic:Owner;foreignkey:A,B;associationforeignkey:ID` } *)
  | "Dog" =>
      Fixture.plain "Dog"
        [Fixture.fld "ID" Fixture.int "";
         Fixture.fld "Toys" (TSlice (TStruct "Toy"))
           "polymorphic:Owner;foreignkey:A,B;associationforeignkey:ID"]
  (* type OuterTwo struct { *Inner; Code int `primary_key` } *)
  | "OuterTwo" =>
      Fixture.plain "OuterTwo"
        [Fixture.anon "Inner" (TPtr (TStruct "Inner")) "";
         Fixture.fld "Code" Fixture.int "primary_key"]
  | _ => Samples.declarations id
  end.

Definition program : Program :=
  {| decl := declarations; ParseTagSetting := Fixture.parseTagSetting;
     ToDBName := Fixture.toDBName; Plural := Fixture.plural;
     IsExported := Fixture.isExported; utilIsBlank := Fixture.isBlank;
     isScanner := Fixture.scanner |}.

(** An engine without search: [e.Search] is nil. *)
Definition bareEngine : State := newEngine false None.

(** The engine after [GetModelStruct(e, &T{})] on a new engine. *)
Definition resolvedState (id : string) : State :=
  match GetModelStruct (P:=program) 3 (Fixture.ptrTo id) Fixture.engine with
  | Done _ s => s
  | _ => Fixture.engine
  end.

End Corners.

(** * Properties *)

(** ** Strings *)
Module GoStringsFacts.
Import GoStrings.

Lemma Index_lower (s sep : string) : (-1 <= Index s sep)%Z.
Proof.
  induction s as [|c t IH]; cbn [Index].
  - destruct (HasPrefix "" sep); lia.
  - destruct (HasPrefix (String c t) sep); [lia|].
    destruct (Index t sep =? -1)%Z eqn:E; lia.
Qed.

(** [strings.Index(s, ".") != -1] says that a dot occurs in [s]. *)
Lemma Index_byte (c : ascii) (s : string) :
  negb (Index s (String c EmptyString) =? -1)%Z = has_byte c s.
Proof.
  induction s as [|d t IH]; simpl; [done|].
  rewrite (Ascii.eqb_sym c d).
  destruct (Ascii.eqb d c) eqn:E; simpl.
  - destruct t; done.
  - destruct (Index t (String c "") =? -1)%Z eqn:E1; simpl in *.
    + done.
    + rewrite <- IH. pose proof (Index_lower t (String c "")).
      apply Z.eqb_neq in E1.
      destruct (Index t (String c "") + 1 =? -1)%Z eqn:E2; [|done].
      apply Z.eqb_eq in E2. lia.
Qed.

Lemma Split_nonempty (s : string) (sep : ascii) : Split s sep ≠ [].
Proof.
  destruct s as [|c t]; simpl; [done|].
  destruct (Ascii.eqb c sep); [done|].
  destruct (Split t sep); done.
Qed.

(** Joining the segments of a split gives the string back. *)
Lemma Join_Split (s : string) (sep : ascii) :
  Join (Split s sep) (String sep EmptyString) = s.
Proof.
  induction s as [|c t IH]; simpl; [done|].
  destruct (Ascii.eqb c sep) eqn:E.
  - apply Ascii.eqb_eq in E. subst c.
    pose proof (Split_nonempty t sep).
    destruct (Split t sep) as [|seg segs] eqn:Es; [done|].
    simpl in *. by rewrite IH.
  - pose proof (Split_nonempty t sep).
    destruct (Split t sep) as [|seg segs] eqn:Es; [done|].
    simpl in *. destruct segs; simpl in *; by rewrite <- IH.
Qed.

(** No segment of a split contains the separator. *)
Lemma Split_segments (s : string) (sep : ascii) :
  Forall (λ seg, has_byte sep seg = false) (Split s sep).
Proof.
  induction s as [|c t IH]; simpl.
  - by constructor.
  - destruct (Ascii.eqb c sep) eqn:E.
    + by constructor.
    + pose proof (Split_nonempty t sep).
      destruct (Split t sep) as [|seg segs] eqn:Es; [done|].
      inversion IH; subst. constructor; [|done].
      simpl. by rewrite E.
Qed.

(** A string without the separator is its own single segment. *)
Lemma Split_no_sep (s : string) (sep : ascii) :
  has_byte sep s = false → Split s sep = [s].
Proof.
  induction s as [|c t IH]; simpl; [done|].
  intros H. apply orb_false_iff in H as [H1 H2].
  rewrite H1, (IH H2). done.
Qed.

End GoStringsFacts.

Section QuoteFacts.
Context {D : Dialect}.

(** C8. [Quote] on a string with a dot quotes each segment between the
    dots with the dialect's function and joins the quoted segments with
    dots again, where the segments are those [strings.Split] gives: they
    contain no dot and joined by dots they are the string; a string
    without a dot is quoted whole. *)
Theorem Quote_segmentwise (str : string) :
  let segments := GoStrings.Split str "." in
  GoStrings.Join segments "." = str
  ∧ Forall (λ seg, GoStrings.has_byte "." seg = false) segments
  ∧ Quote str
    = (if GoStrings.has_byte "." str
       then GoStrings.Join (map DialectQuote segments) "."
       else DialectQuote str).
Proof.
  simpl. split; [apply GoStringsFacts.Join_Split|].
  split; [apply GoStringsFacts.Split_segments|].
  unfold Quote. by rewrite GoStringsFacts.Index_byte.
Qed.

End QuoteFacts.

(** ** AddToVars *)

(** Induction over arguments, through the argument lists of expressions. *)
Lemma SQLArg_nested_ind (P : SQLArg → Prop) :
  (∀ v, P (ArgVal v)) →
  (∀ Q Args, Forall P Args → P (ArgExpr Q Args)) →
  ∀ value, P value.
Proof.
  intros Hv He. fix IH 1. intros [v|Q Args]; [apply Hv|].
  apply He. induction Args as [|a l IHl]; constructor; [apply IH | apply IHl].
Qed.

Module AddToVarsFacts.
Import GoStrings.

Lemma append_nil (b : string) : "" +:+ b = b.
Proof. done. Qed.

Lemma append_cons (c : ascii) (a b : string) :
  String c a +:+ b = String c (a +:+ b).
Proof. done. Qed.

Lemma append_assoc (a b c : string) : (a +:+ b) +:+ c = a +:+ (b +:+ c).
Proof.
  induction a as [|d a IH]; [done|].
  rewrite !append_cons. by rewrite IH.
Qed.

Lemma has_byte_app (c : ascii) (a b : string) :
  has_byte c (a +:+ b) = has_byte c a || has_byte c b.
Proof.
  induction a as [|d a IH]; [done|].
  rewrite append_cons. simpl. rewrite IH. by rewrite orb_assoc.
Qed.

(** The first [?] after a prefix without one is the one replaced. *)
Lemma Replace1_prefix (pre rest new : string) (old : ascii) :
  has_byte old pre = false →
  Replace1 (pre +:+ String old rest) old new = pre +:+ new +:+ rest.
Proof.
  induction pre as [|d pre IH]; intros H.
  - rewrite !append_nil. simpl. by rewrite Ascii.eqb_refl.
  - simpl in H. apply orb_false_iff in H as [H1 H2].
    rewrite !append_cons. simpl. rewrite H1. by rewrite IH.
Qed.

Lemma withSQLVars_app (s : State) (xs ys : list GoVal) :
  withSQLVars (SQLVars (withSQLVars (SQLVars s ++ xs) s) ++ ys)
    (withSQLVars (SQLVars s ++ xs) s)
  = withSQLVars (SQLVars s ++ xs ++ ys) s.
Proof. unfold withSQLVars. simpl. by rewrite <- app_assoc. Qed.

Lemma withSQLVars_nil (s : State) : withSQLVars (SQLVars s ++ []) s = s.
Proof. destruct s. unfold withSQLVars. simpl. by rewrite app_nil_r. Qed.

Section Dialect.
Context {D : Dialect}.

Lemma AddToVars_expr (Q : string) (Args : list SQLArg) :
  AddToVars (ArgExpr Q Args) = rangeArgs Args Q.
Proof. done. Qed.

(** Nothing but appends: the bound values of the argument, in order. *)
Lemma AddToVars_appends (value : SQLArg) :
  ∀ s, ∃ tok,
    AddToVars value s
    = Done tok (withSQLVars (SQLVars s ++ boundValues value) s).
Proof.
  induction value as [v|Q Args HF] using SQLArg_nested_ind.
  - intros s. eexists. reflexivity.
  - rewrite AddToVars_expr. simpl boundValues.
    revert Q. induction HF as [|a l Ha _ IHl]; intros Q s.
    + exists Q. simpl. unfold ret. by rewrite withSQLVars_nil.
    + destruct (Ha s) as [tok Htok]. simpl. unfold bind. rewrite Htok.
      destruct (IHl (Replace1 Q "?" tok)
                  (withSQLVars (SQLVars s ++ boundValues a) s)) as [tok' H'].
      exists tok'. fold rangeArgs. rewrite H'.
      by rewrite withSQLVars_app.
Qed.

(** With arguments that are plain values and placeholders free of [?],
    the question marks are filled from left to right. *)
Lemma rangeArgs_fills (vs : list GoVal) :
  ∀ (segments : list string) (pre tail : string) (s : State),
    length segments = length vs →
    Forall (λ seg, has_byte "?" seg = false) segments →
    (∀ n, has_byte "?" (BindVar n) = false) →
    has_byte "?" pre = false →
    rangeArgs (map ArgVal vs) (pre +:+ template segments tail) s
    = Done (pre +:+ filled (S (length (SQLVars s))) segments tail)
        (withSQLVars (SQLVars s ++ vs) s).
Proof.
  induction vs as [|v vs IH]; intros segments pre tail s Hlen Hseg Hbv Hpre.
  - destruct segments; [|done]. simpl. unfold ret.
    by rewrite withSQLVars_nil.
  - destruct segments as [|seg segments]; [done|].
    inversion Hseg as [|? ? Hs Hrest]; subst.
    simpl. unfold bind, get, put, gets, ret. simpl. fold rangeArgs.
    replace (pre +:+ seg +:+ "?" +:+ template segments tail)
      with ((pre +:+ seg) +:+ String "?" (template segments tail))
      by (by rewrite append_assoc).
    rewrite Replace1_prefix by (by rewrite has_byte_app, Hpre, Hs).
    rewrite <- append_assoc.
    rewrite IH; [| simpl in Hlen; lia | done | done |].
    2:{ by rewrite !has_byte_app, Hpre, Hs, Hbv. }
    simpl. rewrite length_app. simpl.
    replace (length (SQLVars s) + 1) with (S (length (SQLVars s))) by lia.
    rewrite !append_assoc. f_equal.
    unfold withSQLVars. simpl. by rewrite <- app_assoc.
Qed.

End Dialect.
End AddToVarsFacts.

(** C7, as the code has it.  A plain value is appended to the bound values,
    which are otherwise left as they were, and the placeholder of the new
    length is returned.  An expression appends the bound values of its
    arguments in order, an argument that is itself an expression
    contributing those of its own arguments; when the arguments are plain
    values and the dialect's placeholders contain no question mark, the
    question marks of the text are replaced from left to right by the
    placeholders of the positions the values were given. *)
Theorem AddToVars_binds {D : Dialect} :
  (∀ (v : GoVal) (s : State),
     AddToVars (ArgVal v) s
     = Done (BindVar (S (length (SQLVars s))))
         (withSQLVars (SQLVars s ++ [v]) s))
  ∧ (∀ (value : SQLArg) (s : State), ∃ tok,
       AddToVars value s
       = Done tok (withSQLVars (SQLVars s ++ boundValues value) s))
  ∧ (∀ (vs : list GoVal) (segments : list string) (tail : string) (s : State),
       length segments = length vs →
       Forall (λ seg, GoStrings.has_byte "?" seg = false) segments →
       (∀ n, GoStrings.has_byte "?" (BindVar n) = false) →
       AddToVars (ArgExpr (template segments tail) (map ArgVal vs)) s
       = Done (filled (S (length (SQLVars s))) segments tail)
           (withSQLVars (SQLVars s ++ vs) s)).
Proof.
  split; [|split].
  - intros v s. simpl. unfold bind, get, put, gets, ret. simpl.
    rewrite length_app. simpl. do 2 f_equal. lia.
  - apply AddToVarsFacts.AddToVars_appends.
  - intros vs segments tail s Hlen Hseg Hbv.
    rewrite AddToVarsFacts.AddToVars_expr.
    apply (AddToVarsFacts.rangeArgs_fills vs segments "" tail s);
      auto.
Qed.

(** The placeholders of the fixture's dialect have no question mark. *)
Lemma Fixture_BindVar_plain (n : nat) :
  GoStrings.has_byte "?" (Fixture.bindVar n) = false.
Proof.
  unfold Fixture.bindVar.
  rewrite AddToVarsFacts.has_byte_app.
  replace (GoStrings.has_byte "?" "$") with false by reflexivity.
  rewrite orb_false_l.
  generalize (S n). intros fuel. revert n.
  induction fuel as [|k IH]; intros n; [reflexivity|].
  cbn [Fixture.decimal].
  destruct (n <? 10)%nat eqn:E.
  - apply Nat.ltb_lt in E.
    do 10 (destruct n as [|n]; [reflexivity|]). lia.
  - rewrite AddToVarsFacts.has_byte_app. rewrite IH. rewrite orb_false_l.
    assert (n mod 10 < 10) as Hlt by (apply Nat.mod_upper_bound; lia).
    revert Hlt. generalize (n mod 10). intros m Hm.
    do 10 (destruct m as [|m]; [reflexivity|]). lia.
Qed.

(** The theorem at ["name = ? AND age >= ?"] with two values, in the
    dialect of the fixture. *)
Lemma AddToVars_binds_witness :
  AddToVars
    (ArgExpr "name = ? AND age >= ?" [ArgVal (VStr "jinzhu"); ArgVal (VInt 22)])
    Fixture.engine
  = Done "name = $1 AND age >= $2"
      (withSQLVars [VStr "jinzhu"; VInt 22] Fixture.engine).
Proof.
  pose proof (AddToVars_binds (D:=Fixture.dialect)) as (_ & _ & H).
  apply (H [VStr "jinzhu"; VInt 22] ["name = "; " AND age >= "] "" Fixture.engine).
  - reflexivity.
  - repeat constructor.
  - apply Fixture_BindVar_plain.
Defined.

(** C7 as stated fails: an expression with one argument that is itself an
    expression without arguments appends nothing. *)
Lemma AddToVars_nested_expression_counterexample :
  let arg := ArgExpr "now()" [] in
  ∃ tok s',
    AddToVars (ArgExpr "created_at < ?" [arg]) Fixture.engine
    = Done tok s'
    ∧ length (SQLVars s') ≠ length (SQLVars Fixture.engine) + length [arg].
Proof. simpl. eexists _, _. split; [reflexivity|]. simpl. lia. Qed.

(** ** The condition compiler, for primary-key conditions *)

(** C9. An empty collection of primary-key values compiles to the empty
    fragment and binds nothing, negated or not. *)
Theorem compileCondition_empty {D : Dialect} (negated : bool)
    (table primaryKey : string) (s : State) :
  compileCondition negated table primaryKey (PrimaryKeyValues []) s
  = Done "" s.
Proof. reflexivity. Qed.

(** The fragments the tests of the builder expect of primary-key conditions
    ([TestWhere], [TestNot]), in the dialect of the fixture. *)
Example compileCondition_tests :
  let compile negated cond :=
    match compileCondition negated
            "users" "id" cond Fixture.engine with
    | Done frag s => Some (frag, SQLVars s)
    | _ => None
    end in
  let q := Fixture.doubleQuote in
  let column := q +:+ "users" +:+ q +:+ "." +:+ q +:+ "id" +:+ q in
  compile false (PrimaryKeyValue (VInt 10))
  = Some ("(" +:+ column +:+ " = $1)", [VInt 10])
  ∧ compile false (PrimaryKeyValues [VInt 20; VInt 21; VInt 22])
    = Some ("(" +:+ column +:+ " IN ($1,$2,$3))", [VInt 20; VInt 21; VInt 22])
  ∧ compile true (PrimaryKeyValues [VInt 1; VInt 2; VInt 3])
    = Some ("(" +:+ column +:+ " NOT IN ($1,$2,$3))", [VInt 1; VInt 2; VInt 3])
  ∧ compile true (PrimaryKeyValues []) = Some ("", []).
Proof. vm_compute. repeat split. Qed.

(** ** Schema resolution: what every run keeps *)

(** *** The monad *)

Lemma bind_Done {A B} (m : M A) (k : A → M B) (s s'' : State) (b : B) :
  bind m k s = Done b s'' ↔ ∃ a s', m s = Done a s' ∧ k a s' = Done b s''.
Proof.
  unfold bind. split.
  - destruct (m s) as [a s'| |] eqn:E; [eauto|done|done].
  - intros (a & s' & -> & H). done.
Qed.

Lemma ret_Done {A} (a b : A) (s s' : State) :
  ret a s = Done b s' ↔ a = b ∧ s = s'.
Proof. unfold ret. split; [intros [= -> ->]; done | intros [-> ->]; done]. Qed.

Lemma gets_Done {A} (proj : State → A) (a : A) (s s' : State) :
  gets proj s = Done a s' ↔ proj s = a ∧ s = s'.
Proof. unfold gets. split; [intros [= -> ->]; done | intros [-> ->]; done]. Qed.

Lemma loadField_Done (a : nat) (f : StructField) (s s' : State) :
  loadField a s = Done f s' ↔ fieldHeap s !! a = Some f ∧ s = s'.
Proof.
  unfold loadField. destruct (fieldHeap s !! a) eqn:E; split.
  - intros [= -> ->]. done.
  - intros [[= ->] ->]. done.
  - done.
  - intros [? _]. done.
Qed.

Lemma loadStruct_Done (p : nat) (m : ModelStruct) (s s' : State) :
  loadStruct p s = Done m s' ↔ structHeap s !! p = Some m ∧ s = s'.
Proof.
  unfold loadStruct. destruct (structHeap s !! p) eqn:E; split.
  - intros [= -> ->]. done.
  - intros [[= ->] ->]. done.
  - done.
  - intros [? _]. done.
Qed.

Lemma updateField_Done (a : nat) (upd : StructField → StructField)
    (u : unit) (s s' : State) :
  updateField a upd s = Done u s' ↔
  ∃ f, fieldHeap s !! a = Some f
       ∧ s' = withFieldHeap (<[a := upd f]> (fieldHeap s)) s.
Proof.
  unfold updateField. destruct (fieldHeap s !! a) eqn:E; split.
  - intros [= <-]. eauto.
  - intros (f & [= <-] & ->). by destruct u.
  - done.
  - intros (f & ? & _). done.
Qed.

(** Invert a completed run, one monadic step after the other. *)
Ltac run_inv :=
  repeat match goal with
    | H : bind _ _ _ = Done _ _ |- _ =>
        apply bind_Done in H; destruct H as (? & ? & ? & H)
    | H : ret _ _ = Done _ _ |- _ =>
        apply ret_Done in H; destruct H as [? ?]; subst
    | H : gets _ _ = Done _ _ |- _ =>
        apply gets_Done in H; destruct H as [? ?]; subst
    | H : loadField _ _ = Done _ _ |- _ =>
        apply loadField_Done in H; destruct H as [? ?]; subst
    | H : loadStruct _ _ = Done _ _ |- _ =>
        apply loadStruct_Done in H; destruct H as [? ?]; subst
    | H : throw _ _ = Done _ _ |- _ => discriminate H
    | H : Panics _ = Done _ _ |- _ => discriminate H
    | H : OutOfFuel = Done _ _ |- _ => discriminate H
    end.

(** *** [extends] is a preorder *)

Lemma stable_refl (f : StructField) : stable f f.
Proof. done. Qed.

Lemma stable_trans (f g h : StructField) : stable f g → stable g h → stable f h.
Proof. unfold stable. congruence. Qed.

Lemma stable_IsPrimaryKey (f g : StructField) :
  stable f g → IsPrimaryKey f = IsPrimaryKey g.
Proof. intros H. apply (f_equal IsPrimaryKey) in H. done. Qed.



Lemma stable_Names (f g : StructField) : stable f g → Names f = Names g.
Proof. intros H. apply (f_equal Names) in H. done. Qed.

Lemma stable_Struct (f g : StructField) : stable f g → Struct f = Struct g.
Proof. intros H. apply (f_equal Struct) in H. done. Qed.

Lemma stable_TagSettings (f g : StructField) :
  stable f g → TagSettings f = TagSettings g.
Proof. intros H. apply (f_equal TagSettings) in H. done. Qed.

Lemma extends_refl (s : State) : extends s s.
Proof.
  split; try done.
  - intros a f H. exists f. done.
  - intros p m a H Hp. apply lookup_lt_Some in H. lia.
Qed.

Lemma extends_trans (s1 s2 s3 : State) :
  extends s1 s2 → extends s2 s3 → extends s1 s3.
Proof.
  intros H12 H23. split.
  - intros k p H. by apply H23, H12.
  - intros p m H. by apply H23, H12.
  - pose proof (ext_structs_len _ _ H12). pose proof (ext_structs_len _ _ H23). lia.
  - intros a f H. destruct (ext_fields _ _ H12 a f H) as (f' & H' & Hs).
    destruct (ext_fields _ _ H23 a f' H') as (f'' & H'' & Hs').
    exists f''. split; [done|]. by eapply stable_trans.
  - pose proof (ext_fields_len _ _ H12). pose proof (ext_fields_len _ _ H23). lia.
  - intros p m a Hm Hp Ha.
    destruct (decide (p < length (structHeap s2))) as [Hlt|Hge].
    + destruct (lookup_lt_is_Some_2 _ _ Hlt) as [m' Hm'].
      pose proof (ext_structs _ _ H23 p m' Hm') as Hm''.
      rewrite Hm in Hm''. injection Hm'' as <-.
      by eapply (ext_fresh _ _ H12).
    + pose proof (ext_fresh _ _ H23 p m a Hm ltac:(lia) Ha).
      pose proof (ext_fields_len _ _ H12). lia.
  - rewrite (ext_singular _ _ H23). apply H12.
  - rewrite (ext_search _ _ H23). apply H12.
  - rewrite (ext_vars _ _ H23). apply H12.
Qed.

Section Soundness.
Context {P : Program}.

Lemma wellFormed_newEngine (singular : bool) (search : option string) :
  wellFormed (newEngine singular search).
Proof. split; simpl; [constructor|constructor|]. intros k p H. done. Qed.

Lemma sound_ret {A} (a : A) : sound (ret a).
Proof.
  intros s b s' H. run_inv. split; [apply extends_refl|done].
Qed.

Lemma sound_throw {A} (p : panic) : sound (throw (A:=A) p).
Proof. intros s b s' H. done. Qed.

Lemma sound_gets {A} (proj : State → A) : sound (gets proj).
Proof.
  intros s b s' H. run_inv. split; [apply extends_refl|done].
Qed.

Lemma sound_loadField (a : nat) : sound (loadField a).
Proof.
  intros s b s' H. run_inv. split; [apply extends_refl|done].
Qed.

Lemma sound_loadStruct (p : nat) : sound (loadStruct p).
Proof.
  intros s b s' H. run_inv. split; [apply extends_refl|done].
Qed.

Lemma sound_bind {A B} (m : M A) (k : A → M B) :
  sound m → (∀ a, sound (k a)) → sound (bind m k).
Proof.
  intros Hm Hk s b s'' H. run_inv.
  destruct (Hm _ _ _ H0) as [E1 W1]. destruct (Hk _ _ _ _ H) as [E2 W2].
  split; [by eapply extends_trans | auto].
Qed.

(** The same, with what the first computation is known to return. *)
Lemma sound_bind_with {A B} (Q : A → Prop) (m : M A) (k : A → M B) :
  sound m → (∀ s a s', m s = Done a s' → Q a) →
  (∀ a, Q a → sound (k a)) → sound (bind m k).
Proof.
  intros Hm HQ Hk s b s'' H. run_inv.
  destruct (Hm _ _ _ H0) as [E1 W1].
  destruct (Hk _ (HQ _ _ _ H0) _ _ _ H) as [E2 W2].
  split; [by eapply extends_trans | auto].
Qed.

Lemma structOK_stable (h h' : list StructField) (m : ModelStruct) :
  length h ≤ length h' →
  (∀ a f, h !! a = Some f → ∃ f', h' !! a = Some f' ∧ stable f f') →
  structOK h m → structOK h' m.
Proof.
  intros Hlen Hst (Hb & Hp & Hj). split; [|split].
  - intros a Ha. specialize (Hb a Ha). lia.
  - intros a Ha. destruct (Hp a Ha) as (f & Hf & Hpk).
    destruct (Hst a f Hf) as (f' & Hf' & Hs).
    exists f'. split; [done|]. by rewrite <- (stable_IsPrimaryKey _ _ Hs).
  - intros a f' Ha Hf' Hpk.
    destruct (lookup_lt_is_Some_2 h a (Hb a Ha)) as [f Hf].
    destruct (Hst a f Hf) as (f'' & Hf'' & Hs).
    rewrite Hf' in Hf''. injection Hf'' as <-.
    apply (Hj a f Ha Hf). by rewrite (stable_IsPrimaryKey _ _ Hs).
Qed.

(** [p.X = v], when the write is to one of the parts that may change. *)
Lemma updateField_extends (a : nat) (upd : StructField → StructField)
    (f : StructField) (s s' : State) (u : unit) :
  fieldHeap s !! a = Some f →
  stable f (upd f) →
  (fieldOK f → fieldOK (upd f)) →
  updateField a upd s = Done u s' →
  extends s s' ∧ (wellFormed s → wellFormed s').
Proof.
  intros Hf Hst Hok H. apply updateField_Done in H as (f0 & Hf0 & ->).
  rewrite Hf in Hf0. injection Hf0 as <-.
  assert (∀ b g, fieldHeap s !! b = Some g →
            ∃ g', <[a:=upd f]> (fieldHeap s) !! b = Some g' ∧ stable g g')
    as Hframe.
  { intros b g Hg. destruct (decide (a = b)) as [->|Hne].
    - exists (upd f). rewrite list_lookup_insert_eq by by eapply lookup_lt_Some.
      rewrite Hf in Hg. injection Hg as ->. done.
    - exists g. by rewrite list_lookup_insert_ne. }
  split.
  - split; simpl; try done.
    + by rewrite length_insert.
    + intros p m b Hm Hp. apply lookup_lt_Some in Hm. lia.
  - intros [Wf Ws Wc]. split; simpl; [| |done].
    + apply Forall_insert; [done|]. apply Hok.
      by eapply (Forall_lookup_1 _ _ _ _ Wf).
    + eapply Forall_impl; [exact Ws|]. intros m. apply structOK_stable.
      * by rewrite length_insert.
      * done.
Qed.

Lemma sound_updateField (a : nat) (upd : StructField → StructField) :
  (∀ f, stable f (upd f)) →
  (∀ f, fieldOK f → fieldOK (upd f)) →
  sound (updateField a upd).
Proof.
  intros Hst Hok s u s' H.
  pose proof H as H'. apply updateField_Done in H' as (f & Hf & _).
  eapply updateField_extends; [exact Hf|apply Hst|apply Hok|exact H].
Qed.

Lemma sound_setIsForeignKey (a : nat) :
  sound (updateField a (setIsForeignKey true)).
Proof. apply sound_updateField; [done|]. intros f [H1 H2]. by split. Qed.

Lemma sound_setRelationship (a : nat) (rel : Relationship) :
  relationshipResolved rel →
  sound (updateField a (setRelationship (Some rel))).
Proof.
  intros Hrel. apply sound_updateField; [done|]. intros f [H1 H2].
  split; [|done]. simpl. intros ? [= <-]. done.
Qed.

End Soundness.

(** One syntax-directed step of a soundness proof. *)
Ltac sound_step :=
  lazymatch goal with
  | |- sound (bind _ _) => apply sound_bind; [|intros ?]
  | |- sound (ret _) => apply sound_ret
  | |- sound (throw _) => apply sound_throw
  | |- sound (gets _) => apply sound_gets
  | |- sound (loadField _) => apply sound_loadField
  | |- sound (loadStruct _) => apply sound_loadStruct
  | |- sound (updateField _ (setIsForeignKey true)) =>
      apply sound_setIsForeignKey
  | |- sound (match ?x with _ => _ end) => destruct x eqn:?
  | |- sound (let _ := _ in _) => cbv zeta
  end.

Create HintDb sound_db.

Ltac sound_auto :=
  repeat (first [solve [eauto 3 with sound_db] | sound_step]).

Section BuilderSoundness.
Context {P : Program}.
Variable getModelStruct : option RValue → M (result nat).
Hypothesis getModelStruct_sound : ∀ value, sound (getModelStruct value).
Local Hint Resolve getModelStruct_sound : sound_db.

Lemma sound_loadFields (ptrs : list nat) : sound (loadFields ptrs).
Proof. induction ptrs; simpl; sound_auto. Qed.
Local Hint Resolve sound_loadFields : sound_db.

Lemma sound_snapshot (isStruct : bool) (i : option RValue)
    (structFields : list nat) :
  sound (snapshot isStruct i structFields).
Proof.
  induction structFields; simpl; sound_auto.
Qed.
Local Hint Resolve sound_snapshot : sound_db.

Lemma sound_Fields (value : option RValue) :
  sound (Fields getModelStruct value).
Proof.
  unfold Fields. sound_auto.
Qed.
Local Hint Resolve sound_Fields : sound_db.

Lemma sound_lookupByName (name dbName : string) (fds : list Field) :
  sound (lookupByName name dbName fds).
Proof. induction fds; simpl; sound_auto. Qed.
Local Hint Resolve sound_lookupByName : sound_db.

Lemma sound_FieldByName (value : option RValue) (name : string) :
  sound (FieldByName getModelStruct value name).
Proof.
  unfold FieldByName. sound_auto.
Qed.
Local Hint Resolve sound_FieldByName : sound_db.

Lemma sound_keepPrimary (fds : list Field) : sound (keepPrimary fds).
Proof. induction fds; simpl; sound_auto. Qed.
Local Hint Resolve sound_keepPrimary : sound_db.

Lemma sound_PrimaryFields (value : option RValue) :
  sound (PrimaryFields getModelStruct value).
Proof.
  unfold PrimaryFields. sound_auto.
Qed.
Local Hint Resolve sound_PrimaryFields : sound_db.

Lemma sound_PrimaryField (value : option RValue) :
  sound (PrimaryField getModelStruct value).
Proof.
  unfold PrimaryField. sound_auto.
Qed.
Local Hint Resolve sound_PrimaryField : sound_db.

Lemma sound_PrimaryKey (value : option RValue) :
  sound (PrimaryKey getModelStruct value).
Proof. unfold PrimaryKey. sound_auto. Qed.
Local Hint Resolve sound_PrimaryKey : sound_db.

Lemma sound_callTableName (t : TablerImpl) (value : option RValue) :
  sound (callTableName t value).
Proof. unfold callTableName. sound_auto. Qed.
Local Hint Resolve sound_callTableName : sound_db.

Lemma sound_tableNameOfValue (value : option RValue) :
  sound (tableNameOfValue getModelStruct value).
Proof.
  unfold tableNameOfValue. sound_auto.
Qed.
Local Hint Resolve sound_tableNameOfValue : sound_db.

Lemma sound_TableName (value : option RValue) :
  sound (TableName getModelStruct value).
Proof. unfold TableName. sound_auto. Qed.
Local Hint Resolve sound_TableName : sound_db.

Lemma sound_polymorphicOwner (ts : gmap string string) (toFields : list nat)
    (defaultValue : M string) (associationType : string)
    (rel : Relationship) :
  sound defaultValue →
  sound (polymorphicOwner ts toFields defaultValue associationType rel).
Proof. intros Hd. unfold polymorphicOwner. sound_auto. Qed.
Local Hint Resolve sound_polymorphicOwner : sound_db.

Lemma sound_deriveKeys (prefix : string) (lookupIn : list nat)
    (primaries : M (result (list StructField)))
    (primaryKey : M (result string)) (fks afks : list string) :
  sound primaries → sound primaryKey →
  sound (deriveKeys prefix lookupIn primaries primaryKey fks afks).
Proof. intros Hp Hk. unfold deriveKeys. sound_auto. Qed.
Local Hint Resolve sound_deriveKeys : sound_db.

Lemma sound_resolvePairs (foreignIn associationIn : list nat)
    (afks : list string) (fks : list string) :
  ∀ idx rel, sound (resolvePairs foreignIn associationIn afks idx fks rel).
Proof. induction fks; intros idx rel; simpl; sound_auto. Qed.
Local Hint Resolve sound_resolvePairs : sound_db.

Lemma sound_joinAssociations (toScope : option RValue) (elemName : string)
    (names : list string) :
  ∀ rel, sound (joinAssociations getModelStruct toScope elemName names rel).
Proof.
  induction names; intros rel; simpl; sound_auto.
Qed.
Local Hint Resolve sound_joinAssociations : sound_db.

Lemma sound_ownPrimaries (m : ModelStruct) : sound (ownPrimaries m).
Proof. unfold ownPrimaries. sound_auto. Qed.
Local Hint Resolve sound_ownPrimaries : sound_db.

Lemma sound_targetPrimaries (toScope : option RValue) :
  sound (targetPrimaries getModelStruct toScope).
Proof.
  unfold targetPrimaries. sound_auto.
Qed.
Local Hint Resolve sound_targetPrimaries : sound_db.

Lemma sound_attachIfResolved (field : nat) (kind : string)
    (rel : Relationship) :
  sound (attachIfResolved field kind rel).
Proof.
  unfold attachIfResolved. sound_auto.
  apply sound_setRelationship. right. simpl.
  destruct (ForeignFieldNames rel); done.
Qed.
Local Hint Resolve sound_attachIfResolved : sound_db.

Ltac builder_auto :=
  repeat (first [solve [eauto 3 with sound_db] | sound_step
                | apply sound_polymorphicOwner | apply sound_deriveKeys]).

(** The kind of a many-to-many relationship survives the second loop. *)
Lemma joinAssociations_Kind (toScope : option RValue) (elemName : string)
    (names : list string) :
  ∀ rel s rel' s',
    joinAssociations getModelStruct toScope elemName names rel s
    = Done (Val rel') s' →
    Kind rel' = Kind rel.
Proof.
  induction names as [|name names IH]; intros rel s rel' s' H; simpl in H.
  - apply ret_Done in H as [[= ->] _]. done.
  - apply bind_Done in H as ([field|e] & s1 & _ & H).
    + apply bind_Done in H as (sf & s2 & _ & H).
      by rewrite (IH _ _ _ _ H).
    + apply ret_Done in H as [[=] _].
Qed.

Lemma fold_addForeign_Kind (f : StructField → string)
    (fields : list StructField) (rel : Relationship) :
  Kind (fold_left (λ r ff, addForeign (DBName ff) (f ff) r) fields rel)
  = Kind rel.
Proof.
  revert rel. induction fields as [|x l IH]; intros rel; simpl; [done|].
  by rewrite IH.
Qed.

Lemma sound_buildRelationSlice (modelValue : option RValue)
    (refType : string) (m : ModelStruct) (field : nat) :
  sound (buildRelationSlice getModelStruct modelValue refType m field).
Proof.
  intros s r s' H. unfold buildRelationSlice in H.
  apply bind_Done in H as (f & s0 & Hload & H).
  apply loadField_Done in Hload as [Hf <-].
  destruct (stripSlicePtr (fdType (Struct f))) as [elemType| | |] eqn:Eelem.
  1:{ revert H.
      match goal with
      | |- ?c s = Done r s' → _ => enough (sound c) as Hs by (intros H; by apply Hs in H)
      end.
      destruct (negb (String.eqb (tagValue (TagSettings f) "MANY2MANY") ""));
        [|builder_auto].
      cbv zeta.
      apply sound_bind; [sound_auto|intros fks'].
      apply sound_bind; [sound_auto|intros h].
      apply sound_bind; [sound_auto|intros [names|e]; [|sound_auto]].
      eapply (sound_bind_with
                (λ r, ∀ rel', r = Val rel' → Kind rel' = "many_to_many"));
        [sound_auto| |].
      - intros s1 [rel'|e] s2 Hj rel'' [= <-].
        apply joinAssociations_Kind in Hj. rewrite Hj.
        by rewrite fold_addForeign_Kind.
      - intros [rel'|e] Hk; [|sound_auto].
        apply sound_bind; [|intros ?; sound_auto].
        apply sound_setRelationship. left. by apply Hk. }
  all: apply bind_Done in H as ([] & s1 & Hupd & H);
    apply ret_Done in H as [<- <-];
    eapply (updateField_extends field (setIsNormal true) f);
      [exact Hf|done| |exact Hupd];
    intros [H1 H2]; split; [done|]; intros _; right; right;
    intros id; simpl; rewrite Eelem; done.
Qed.

Lemma sound_buildRelationStruct (modelValue : option RValue)
    (refType : string) (m : ModelStruct) (field : nat) :
  sound (buildRelationStruct getModelStruct modelValue refType m field).
Proof.
  unfold buildRelationStruct. builder_auto.
  apply sound_setRelationship. right. simpl.
  match goal with
  | H : negb (length (ForeignFieldNames ?r) =? 0) = true |- _ =>
      destruct (ForeignFieldNames r); done
  end.
Qed.

Lemma sound_runDeferred (value : option RValue) (refType : string)
    (m : ModelStruct) (deferred : list Deferred) :
  sound (runDeferred getModelStruct value refType m deferred).
Proof.
  induction deferred as [|[field|field] rest IH]; simpl; sound_auto.
  - apply sound_buildRelationSlice.
  - apply sound_buildRelationStruct.
Qed.

End BuilderSoundness.

Section LoopSoundness.
Context {P : Program}.

Lemma appended_refl (s : State) (m : ModelStruct) : appended s m s m.
Proof. exists []. split; [by rewrite app_nil_r|]. intros a Ha. by apply elem_of_nil in Ha. Qed.

Lemma appended_trans (s1 s2 s3 : State) (m1 m2 m3 : ModelStruct) :
  length (fieldHeap s1) ≤ length (fieldHeap s2) →
  length (fieldHeap s2) ≤ length (fieldHeap s3) →
  appended s1 m1 s2 m2 → appended s2 m2 s3 m3 → appended s1 m1 s3 m3.
Proof.
  intros L12 L23 (a1 & E1 & B1) (a2 & E2 & B2). exists (a1 ++ a2). split.
  - by rewrite E2, E1, app_assoc.
  - intros a Ha. apply elem_of_app in Ha as [Ha|Ha].
    + specialize (B1 a Ha). lia.
    + specialize (B2 a Ha). lia.
Qed.

(** Allocating a descriptor. *)
Lemma newField_Done (f : StructField) (a : nat) (s s' : State) :
  newField f s = Done a s' ↔
  a = length (fieldHeap s) ∧ s' = withFieldHeap (fieldHeap s ++ [f]) s.
Proof.
  unfold newField. split; [intros [= <- <-]; done | intros [-> ->]; done].
Qed.

Lemma newStruct_Done (m : ModelStruct) (p : nat) (s s' : State) :
  newStruct m s = Done p s' ↔
  p = length (structHeap s) ∧ s' = withStructHeap (structHeap s ++ [m]) s.
Proof.
  unfold newStruct. split; [intros [= <- <-]; done | intros [-> ->]; done].
Qed.

Lemma alloc_extends (f : StructField) (s : State) :
  extends s (withFieldHeap (fieldHeap s ++ [f]) s).
Proof.
  split; simpl; try done.
  - intros a g Hg. exists g. split; [|done].
    by apply lookup_app_l_Some.
  - rewrite length_app. lia.
  - intros p m a Hm Hp. apply lookup_lt_Some in Hm. lia.
Qed.

Lemma structOK_alloc (h : list StructField) (f : StructField)
    (m : ModelStruct) :
  structOK h m → structOK (h ++ [f]) m.
Proof.
  apply structOK_stable.
  - rewrite length_app. lia.
  - intros a g Hg. exists g. split; [by apply lookup_app_l_Some|done].
Qed.

Lemma alloc_wellFormed (f : StructField) (s : State) :
  fieldOK f → wellFormed s →
  wellFormed (withFieldHeap (fieldHeap s ++ [f]) s).
Proof.
  intros Hf [Wf Ws Wc]. split; simpl; [| |done].
  - apply Forall_app. split; [done|]. by constructor.
  - eapply Forall_impl; [exact Ws|]. intros m. apply structOK_alloc.
Qed.

(** The new descriptor joins the field list, and the primary fields when
    it is flagged. *)
Lemma structOK_append (h : list StructField) (f : StructField)
    (m : ModelStruct) :
  structOK h m →
  structOK (h ++ [f])
    (addStructField (length h)
       (if IsPrimaryKey f then addPrimaryField (length h) m else m)).
Proof.
  intros (Hb & Hp & Hj).
  assert ((h ++ [f]) !! length h = Some f) as Hnew.
  { rewrite lookup_app_r by lia. by rewrite Nat.sub_diag. }
  split; [|split].
  - intros a Ha. rewrite length_app. simpl.
    destruct (IsPrimaryKey f); simpl in Ha;
      apply elem_of_app in Ha as [Ha|Ha%list_elem_of_singleton];
      try (specialize (Hb a Ha)); lia.
  - intros a Ha.
    assert (a ∈ PrimaryFields_ m ∨ (a = length h ∧ IsPrimaryKey f = true))
      as [Ha' | [-> Hpk]].
    { destruct (IsPrimaryKey f); simpl in Ha; [|by left].
      apply elem_of_app in Ha as [Ha|Ha%list_elem_of_singleton]; auto. }
    + destruct (Hp a Ha') as (g & Hg & Hpk). exists g.
      split; [by apply lookup_app_l_Some|done].
    + by exists f.
  - intros a g Ha Hg Hpk.
    assert (a ∈ StructFields m ∨ a = length h) as [Ha' | ->].
    { destruct (IsPrimaryKey f); simpl in Ha;
        apply elem_of_app in Ha as [Ha|Ha%list_elem_of_singleton]; auto. }
    + specialize (Hb a Ha'). rewrite lookup_app_l in Hg by done.
      specialize (Hj a g Ha' Hg Hpk).
      destruct (IsPrimaryKey f); simpl; [|done].
      apply elem_of_app. by left.
    + rewrite Hnew in Hg. injection Hg as <-. rewrite Hpk. simpl.
      apply elem_of_app. right. by apply list_elem_of_singleton.
Qed.

Lemma unshared_append (f : StructField) (m mp : ModelStruct) (s : State) :
  wellFormed s → unshared m s → StructFields mp = StructFields m →
  unshared (addStructField (length (fieldHeap s)) mp)
    (withFieldHeap (fieldHeap s ++ [f]) s).
Proof.
  intros [_ Ws _] Hu Hmp p m' a Hm' Ha. simpl in *. rewrite Hmp in Ha.
  apply elem_of_app in Ha as [Ha|Ha%list_elem_of_singleton].
  - by eapply Hu.
  - subst a. intros Hin.
    pose proof (Forall_lookup_1 _ _ _ _ Ws Hm') as (Hb & _).
    specialize (Hb _ Hin). lia.
Qed.

Lemma building_append (f : StructField) (m : ModelStruct) (s : State) :
  fieldOK f → building m s →
  building
    (addStructField (length (fieldHeap s))
       (if IsPrimaryKey f then addPrimaryField (length (fieldHeap s)) m
        else m))
    (withFieldHeap (fieldHeap s ++ [f]) s).
Proof.
  intros Hf (W & Hok & Hu). split; [|split].
  - by apply alloc_wellFormed.
  - by apply structOK_append.
  - apply (unshared_append f m); [done|done|]. by destruct (IsPrimaryKey f).
Qed.

Lemma appended_append (f : StructField) (m mp : ModelStruct) (s : State) :
  StructFields mp = StructFields m →
  appended s m (withFieldHeap (fieldHeap s ++ [f]) s)
    (addStructField (length (fieldHeap s)) mp).
Proof.
  intros Hmp. exists [length (fieldHeap s)]. simpl. split; [by rewrite Hmp|].
  intros a Ha%list_elem_of_singleton. subst. rewrite length_app. simpl. lia.
Qed.

Lemma fieldOK_Clone (f : StructField) (names : list string) :
  fieldOK f → fieldOK (setNames names (Clone f)).
Proof. done. Qed.

Lemma fieldOK_setDBName (f : StructField) (db : string) :
  fieldOK f → fieldOK (setDBName db f).
Proof. done. Qed.

(** The clones of the sub-fields of an embedded record. *)
Lemma embedSubFields_spec (name : string) (ts : gmap string string)
    (subFields : list nat) :
  ∀ m s m' s',
    embedSubFields name ts subFields m s = Done m' s' →
    extends s s' ∧ appended s m s' m'
    ∧ (building m s → building m' s').
Proof.
  induction subFields as [|sub rest IH]; intros m s m' s' H; simpl in H.
  - apply ret_Done in H as [<- <-].
    split; [apply extends_refl|]. split; [apply appended_refl|done].
  - apply bind_Done in H as (sf & s0 & Hsf & H).
    apply loadField_Done in Hsf as [Hsf <-].
    apply bind_Done in H as (a & s1 & Ha & H).
    apply newField_Done in Ha as [-> ->].
    apply IH in H as (E & A & B).
    match type of E with
    | context [fieldHeap s ++ [?x]] => set (c := x) in *
    end.
    split; [|split].
    + eapply extends_trans; [apply alloc_extends|exact E].
    + eapply appended_trans; [| |apply appended_append|exact A].
      * simpl. rewrite length_app. lia.
      * apply E.
      * by destruct (IsPrimaryKey c).
    + intros Hb. apply B. apply building_append; [|done].
      destruct Hb as (W & _).
      pose proof (Forall_lookup_1 _ _ _ _ (wf_fields _ W) Hsf) as Hok.
      unfold c. destruct (ts !! "EMBEDDED_PREFIX"); done.
Qed.

Lemma building_extends (m : ModelStruct) (s s' : State) :
  extends s s' → wellFormed s' → building m s → building m s'.
Proof.
  intros E W' (W & Hok & Hu). split; [done|]. split.
  - eapply structOK_stable; [apply E|apply E|done].
  - intros p m' a Hm' Ha Hin.
    destruct (decide (p < length (structHeap s))) as [Hlt|Hge].
    + destruct (lookup_lt_is_Some_2 _ _ Hlt) as [m'' Hm''].
      pose proof (ext_structs _ _ E p m'' Hm'') as Hm3.
      rewrite Hm' in Hm3. injection Hm3 as <-.
      by eapply Hu.
    + pose proof (ext_fresh _ _ E p m' a Hm' ltac:(lia) Hin).
      destruct Hok as (Hb & _). specialize (Hb a Ha). lia.
Qed.

(** The descriptor of an embedding field, which joins at most the
    primary fields. *)
Lemma building_primary_only (f : StructField) (m : ModelStruct) (s : State) :
  fieldOK f → building m s →
  building
    (if IsPrimaryKey f then addPrimaryField (length (fieldHeap s)) m else m)
    (withFieldHeap (fieldHeap s ++ [f]) s).
Proof.
  intros Hf (W & (Hb & Hp & Hj) & Hu). split; [by apply alloc_wellFormed|].
  assert ((fieldHeap s ++ [f]) !! length (fieldHeap s) = Some f) as Hnew.
  { rewrite lookup_app_r by lia. by rewrite Nat.sub_diag. }
  split; [split; [|split]|].
  - intros a Ha. simpl. rewrite length_app. simpl.
    destruct (IsPrimaryKey f); simpl in Ha; specialize (Hb a Ha); lia.
  - intros a Ha. simpl.
    assert (a ∈ PrimaryFields_ m
            ∨ (a = length (fieldHeap s) ∧ IsPrimaryKey f = true))
      as [Ha' | [-> Hpk]].
    { destruct (IsPrimaryKey f); simpl in Ha; [|by left].
      apply elem_of_app in Ha as [Ha|Ha%list_elem_of_singleton]; auto. }
    + destruct (Hp a Ha') as (g & Hg & Hpk). exists g.
      split; [by apply lookup_app_l_Some|done].
    + by exists f.
  - intros a g Ha Hg Hpk. simpl in Hg.
    assert (a ∈ StructFields m) as Ha' by (by destruct (IsPrimaryKey f)).
    specialize (Hb a Ha'). rewrite lookup_app_l in Hg by done.
    specialize (Hj a g Ha' Hg Hpk).
    destruct (IsPrimaryKey f); simpl; [|done].
    apply elem_of_app. by left.
  - intros p m' a Hm' Ha. simpl in Hm'.
    assert (a ∈ StructFields m) as Ha' by (by destruct (IsPrimaryKey f)).
    by eapply Hu.
Qed.

Lemma stripPtr_kind (t : GoType) : kindOf (stripPtr t) ≠ KPtr.
Proof. induction t; simpl; done. Qed.

Lemma stripSlicePtr_stripPtr (t : GoType) :
  stripSlicePtr (stripPtr t) = stripSlicePtr t.
Proof. induction t; simpl; done. Qed.

(** A field of another kind than struct and slice is no record and no
    collection of records. *)
Lemma other_kind_normalShape (fd : FieldDecl) :
  kindOf (stripPtr (fdType fd)) ≠ KSlice →
  kindOf (stripPtr (fdType fd)) ≠ KStruct →
  normalShape fd.
Proof.
  intros H1 H2. right. right. intros id.
  rewrite <- stripSlicePtr_stripPtr.
  pose proof (stripPtr_kind (fdType fd)) as H3.
  destruct (stripPtr (fdType fd)); simpl in *; done.
Qed.

(** The allocation of a descriptor and the write of the updates its turn
    of the loop makes amount to allocating it as it is at the end. *)
Lemma newField_store (f0 f : StructField) (s s1 s2 : State) (a : nat)
    (u : unit) :
  newField f0 s = Done a s1 →
  updateField a (λ _, f) s1 = Done u s2 →
  a = length (fieldHeap s) ∧ s2 = withFieldHeap (fieldHeap s ++ [f]) s.
Proof.
  intros Ha Hu. apply newField_Done in Ha as [-> ->].
  apply updateField_Done in Hu as (g & Hg & ->). simpl in *.
  split; [done|]. unfold withFieldHeap. simpl. f_equal.
  rewrite <- (Nat.add_0_r (length (fieldHeap s))) at 1.
  by rewrite insert_app_r.
Qed.

Lemma newField_appendField (fStruct : FieldDecl) (f0 field : StructField)
    (mp : ModelStruct) (d : list Deferred) (s s1 s' : State) (a : nat)
    (r : ModelStruct * list Deferred * option error) :
  newField f0 s = Done a s1 →
  appendField fStruct a field mp d s1 = Done r s' →
  ∃ db,
    a = length (fieldHeap s)
    ∧ s' = withFieldHeap (fieldHeap s ++ [setDBName db field]) s
    ∧ r = (addStructField a mp, d, None).
Proof.
  intros Ha H. unfold appendField in H.
  apply bind_Done in H as ([] & s2 & Hu & H).
  apply ret_Done in H as [<- <-].
  destruct (newField_store _ _ _ _ _ _ _ Ha Hu) as [-> ->].
  eexists. done.
Qed.

(** The turn of a field that joins the field list. *)
Lemma appendField_spec (fStruct : FieldDecl) (f0 field : StructField)
    (m mp : ModelStruct) (d : list Deferred) (s s1 s' : State) (a : nat)
    (m' : ModelStruct) (d' : list Deferred) (e : option error) :
  newField f0 s = Done a s1 →
  appendField fStruct a field mp d s1 = Done (m', d', e) s' →
  fieldOK field →
  mp = (if IsPrimaryKey field then addPrimaryField a m else m) →
  extends s s' ∧ appended s m s' m' ∧ (building m s → building m' s').
Proof.
  intros Ha H Hok ->.
  destruct (newField_appendField _ _ _ _ _ _ _ _ _ _ Ha H)
    as (db & -> & -> & [= -> -> ->]).
  split; [apply alloc_extends|]. split.
  - apply appended_append. by destruct (IsPrimaryKey field).
  - intros Hb.
    by apply (building_append (setDBName db field) m s).
Qed.

End LoopSoundness.

Section ResolverSoundness.
Context {P : Program}.
Variable getModelStruct : option RValue → M (result nat).
Hypothesis getModelStruct_sound : ∀ value, sound (getModelStruct value).
Hypothesis getModelStruct_errors :
  ∀ value s e s', getModelStruct value s = Done (Err e) s' → shapeError e.

(** The turn of an embedded field, after its descriptor is allocated. *)
Lemma embeddedTurn_spec (f0 field : StructField) (m mp : ModelStruct)
    (d : list Deferred) (name : string) (ts : gmap string string)
    (value : option RValue) (s s1 s2 s' : State) (a : nat) (u : unit)
    (m' : ModelStruct) (d' : list Deferred) (e : option error) :
  newField f0 s = Done a s1 →
  updateField a (λ _, field) s1 = Done u s2 →
  (r <- getModelStruct value ;;
   match r with
   | Err err => ret (mp, d, Some err)
   | Val ms =>
       sub <- loadStruct ms ;;
       m <- embedSubFields name ts (StructFields sub) mp ;;
       ret (m, d, None)
   end) s2 = Done (m', d', e) s' →
  fieldOK field →
  mp = (if IsPrimaryKey field then addPrimaryField a m else m) →
  extends s s' ∧ appended s m s' m' ∧ (building m s → building m' s').
Proof.
  intros Ha Hu H Hok Hmp.
  destruct (newField_store _ _ _ _ _ _ _ Ha Hu) as [-> ->].
  assert (StructFields mp = StructFields m) as Hsf
    by (subst mp; by destruct (IsPrimaryKey field)).
  apply bind_Done in H as (r & s3 & Hg & H).
  destruct (getModelStruct_sound _ _ _ _ Hg) as [E23 W23].
  pose proof (alloc_extends field s) as E02.
  assert (building m s → building mp s3) as Hb3.
  { intros Hb. apply (building_extends _ _ _ E23).
    - apply W23. apply alloc_wellFormed; [done|apply Hb].
    - subst mp. by apply building_primary_only. }
  destruct r as [ms|err].
  - apply bind_Done in H as (sub & s4 & Hsub & H).
    apply loadStruct_Done in Hsub as [Hsub <-].
    apply bind_Done in H as (m2 & s5 & Hemb & H).
    apply ret_Done in H as [[= <- <- <-] <-].
    apply embedSubFields_spec in Hemb as (E35 & (added & Eadd & Badd) & B35).
    split; [|split].
    + eapply extends_trans; [exact E02|]. by eapply extends_trans.
    + exists added. split; [by rewrite Eadd, Hsf|].
      intros b Hb. specialize (Badd b Hb).
      pose proof (ext_fields_len _ _ E02). pose proof (ext_fields_len _ _ E23).
      lia.
    + auto.
  - apply ret_Done in H as [[= <- <- <-] <-].
    split; [by eapply extends_trans|]. split; [|done].
    exists []. split; [by rewrite app_nil_r|].
    intros b Hb. by apply elem_of_nil in Hb.
Qed.

(** One turn of the field loop. *)
Lemma fieldStep_spec (fStruct : FieldDecl) (m : ModelStruct)
    (d : list Deferred) (s : State) (m' : ModelStruct)
    (d' : list Deferred) (e : option error) (s' : State) :
  fieldStep getModelStruct fStruct m d s = Done (m', d', e) s' →
  extends s s' ∧ appended s m s' m' ∧ (building m s → building m' s').
Proof.
  unfold fieldStep. intros H.
  destruct (negb (IsExported (fdName fStruct))).
  { apply ret_Done in H as [[= <- <- <-] <-].
    split; [apply extends_refl|]. split; [apply appended_refl|done]. }
  apply bind_Done in H as (a & s1 & Ha & H).
  set (ts := ParseTagSetting (fdTag fStruct)) in *.
  cbn [TagSettings] in H.
  destruct (hasTag ts "-").
  { eapply appendField_spec; [exact Ha|exact H| |done].
    split; [done|]. simpl. done. }
  destruct (hasTag ts "PRIMARY_KEY") eqn:Epk;
    cbn [TagSettings setIsPrimaryKey IsPrimaryKey setHasDefaultValue negb andb] in H.
  all: destruct (hasTag ts "DEFAULT");
    cbn [TagSettings setIsPrimaryKey IsPrimaryKey setHasDefaultValue negb andb] in H.
  all: try (destruct (hasTag ts "AUTO_INCREMENT");
    cbn [TagSettings setIsPrimaryKey IsPrimaryKey setHasDefaultValue negb andb] in H).
  all: destruct (isScanner (stripPtr (fdType fStruct))) eqn:Escan;
    [ eapply appendField_spec; [exact Ha|exact H| |done];
      split; [done|]; intros _; left; exact Escan |].
  all: destruct (bool_decide (stripPtr (fdType fStruct) = timeType)) eqn:Etime;
    [ apply bool_decide_eq_true in Etime;
      eapply appendField_spec; [exact Ha|exact H| |done];
      split; [done|]; intros _; right; left; exact Etime |].
  all: destruct (hasTag ts "EMBEDDED" || fdAnonymous fStruct);
    [| destruct (kindOf (stripPtr (fdType fStruct))) eqn:Ekind;
       (eapply appendField_spec; [exact Ha|exact H| |done]);
       (split; [done|]); simpl; try done;
       intros _; apply other_kind_normalShape; rewrite Ekind; done ].
  all: apply bind_Done in H as ([] & s2 & Hu & H);
    (eapply embeddedTurn_spec; [exact Ha|exact Hu|exact H| |done]);
    split; done.
Qed.

(** The loop over the fields of the type. *)
Lemma fieldLoop_spec (fields : list FieldDecl) :
  ∀ m d s m' d' e s',
    fieldLoop getModelStruct fields m d s = Done (m', d', e) s' →
    extends s s' ∧ appended s m s' m' ∧ (building m s → building m' s').
Proof.
  induction fields as [|fStruct rest IH]; intros m d s m' d' e s' H;
    simpl in H.
  - apply ret_Done in H as [[= <- <- <-] <-].
    split; [apply extends_refl|]. split; [apply appended_refl|done].
  - apply bind_Done in H as ([[m1 d1] e1] & s1 & Hstep & H).
    apply fieldStep_spec in Hstep as (E1 & A1 & B1).
    destruct e1 as [err|].
    + apply ret_Done in H as [[= <- <- <-] <-]. done.
    + apply IH in H as (E2 & A2 & B2).
      split; [by eapply extends_trans|]. split; [|auto].
      eapply appended_trans; [apply E1|apply E2|done|done].
Qed.

(** What [GetForeignField] finds is one of the fields, and answers to the
    column. *)
Lemma GetForeignField_Some (column : string) (fields : list nat)
    (h : list StructField) (a : nat) :
  GetForeignField column fields h = Some a →
  a ∈ fields ∧ ∃ f, h !! a = Some f ∧ matchesColumn column f = true.
Proof.
  unfold GetForeignField. intros H. apply find_some in H as [Hin Hm].
  split; [by apply list_elem_of_In|].
  destruct (h !! a) as [f|]; [|done]. by exists f.
Qed.

(** The promotion of the field named [id]. *)
Lemma promoteID_Done (m m' : ModelStruct) (s s' : State) :
  promoteID m s = Done m' s' →
  (m' = m ∧ s' = s)
  ∨ (∃ a f, PrimaryFields_ m = []
            ∧ GetForeignField "id" (StructFields m) (fieldHeap s) = Some a
            ∧ fieldHeap s !! a = Some f
            ∧ m' = addPrimaryField a m
            ∧ s' = withFieldHeap
                     (<[a := setIsPrimaryKey true f]> (fieldHeap s)) s).
Proof.
  unfold promoteID. intros H.
  destruct (PrimaryFields_ m) eqn:Epf.
  2:{ apply ret_Done in H as [<- <-]. by left. }
  apply bind_Done in H as (h & s0 & Hh & H).
  apply gets_Done in Hh as [<- <-].
  destruct (GetForeignField "id" (StructFields m) (fieldHeap s)) as [a|] eqn:Eid.
  2:{ apply ret_Done in H as [<- <-]. by left. }
  apply bind_Done in H as ([] & s1 & Hu & H).
  apply ret_Done in H as [<- <-].
  apply updateField_Done in Hu as (f & Hf & ->).
  right. exists a, f. done.
Qed.

(** Promotion, allocation of the description and its publication, seen
    from the state in which the resolution started. *)
Lemma publish_spec (refType : string) (m0 m1 m2 : ModelStruct)
    (s s1 s2 : State) :
  StructMap s !! refType = None →
  StructFields m0 = [] →
  extends s s1 → appended s m0 s1 m1 →
  promoteID m1 s1 = Done m2 s2 →
  let s4 := withStructMap (<[refType := length (structHeap s2)]> (StructMap s2))
              (withStructHeap (structHeap s2 ++ [m2]) s2) in
  extends s s4 ∧ (building m1 s1 → wellFormed s4).
Proof.
  intros Hmiss Hm0 E (added & Eadd & Badd) Hp. rewrite Hm0 in Eadd. simpl in Eadd.
  assert (∀ a, a ∈ StructFields m1 →
               length (fieldHeap s) ≤ a < length (fieldHeap s1)) as Hown.
  { intros a Ha. rewrite Eadd in Ha. by apply Badd. }
  assert (StructFields m2 = StructFields m1
          ∧ structHeap s2 = structHeap s1 ∧ StructMap s2 = StructMap s1
          ∧ SingularTable s2 = SingularTable s1 ∧ Search s2 = Search s1
          ∧ SQLVars s2 = SQLVars s1
          ∧ length (fieldHeap s2) = length (fieldHeap s1)
          ∧ (∀ b g, fieldHeap s1 !! b = Some g →
               ∃ g', fieldHeap s2 !! b = Some g'
                     ∧ (b ∉ StructFields m1 → g' = g)
                     ∧ core g' = core (setIsPrimaryKey (IsPrimaryKey g') g)
                     ∧ (IsPrimaryKey g = true → IsPrimaryKey g' = true)))
    as (Hsf & Hsh & Hsm & Hsi & Hse & Hsv & Hlen & Hfr).
  { apply promoteID_Done in Hp as [[-> ->]|(a & f & Epf & Eid & Hf & -> & ->)].
    - repeat split; try done. intros b g Hg. exists g. by destruct g.
    - simpl. rewrite length_insert. repeat split; try done.
      intros b g Hg. apply GetForeignField_Some in Eid as [Hin _].
      destruct (decide (a = b)) as [->|Hne].
      + rewrite Hf in Hg. injection Hg as ->.
        rewrite list_lookup_insert_eq by by eapply lookup_lt_Some.
        eexists. split; [done|]. split; [done|]. by destruct g.
      + rewrite list_lookup_insert_ne by done. exists g.
        split; [done|]. split; [done|]. by destruct g. }
  split.
  - split; simpl.
    + intros k p Hk. pose proof (ext_cache _ _ E k p Hk) as Hk1.
      rewrite Hsm. rewrite lookup_insert_ne; [done|].
      intros <-. by rewrite Hmiss in Hk.
    + intros p m Hm. rewrite Hsh. apply lookup_app_l_Some. by apply E.
    + rewrite length_app, Hsh. pose proof (ext_structs_len _ _ E). lia.
    + intros a f Hf. destruct (ext_fields _ _ E a f Hf) as (f1 & Hf1 & Hst).
      destruct (Hfr a f1 Hf1) as (f2 & Hf2 & Hsame & _).
      exists f2. split; [done|]. rewrite Hsame; [done|].
      intros Hin. apply Hown in Hin. apply lookup_lt_Some in Hf. lia.
    + rewrite Hlen. apply E.
    + intros p m a Hm Hp' Ha. rewrite Hsh in Hm.
      apply lookup_app_Some in Hm as [Hm|[Hge Hm]].
      * by eapply (ext_fresh _ _ E).
      * destruct (p - length (structHeap s1)) eqn:Ep; [|by destruct n].
        simpl in Hm. injection Hm as <-. rewrite Hsf in Ha.
        by apply Hown.
    + rewrite Hsi. apply E.
    + rewrite Hse. apply E.
    + rewrite Hsv. apply E.
  - intros ([Wf Ws Wc] & (Hb & Hpk & Hj) & Hu). split; simpl.
    + apply Forall_lookup_2. intros b g' Hg'.
      destruct (lookup_lt_is_Some_2 (fieldHeap s1) b) as [g Hg].
      { rewrite <- Hlen. by eapply lookup_lt_Some. }
      destruct (Hfr b g Hg) as (g'' & Hg'' & _ & Hcore & _).
      rewrite Hg' in Hg''. injection Hg'' as <-.
      pose proof (Forall_lookup_1 _ _ _ _ Wf Hg) as [O1 O2].
      assert (Relationship_ g' = Relationship_ g ∧ IsNormal g' = IsNormal g
              ∧ Struct g' = Struct g) as (R1 & R2 & R3).
      { apply promoteID_Done in Hp as [[-> ->]|(a & f & _ & _ & Hf & -> & ->)].
        - rewrite Hg in Hg'. by injection Hg' as ->.
        - simpl in Hg'. destruct (decide (a = b)) as [->|Hne].
          + rewrite list_lookup_insert_eq in Hg' by by eapply lookup_lt_Some.
            injection Hg' as <-. rewrite Hf in Hg. by injection Hg as ->.
          + rewrite list_lookup_insert_ne in Hg' by done.
            rewrite Hg in Hg'. by injection Hg' as ->. }
      split; [by rewrite R1|]. by rewrite R2, R3.
    + rewrite Hsh. apply Forall_app. split.
      * apply Forall_lookup_2. intros p m Hm.
        pose proof (Forall_lookup_1 _ _ _ _ Ws Hm) as (Hb' & Hpk' & Hj').
        split; [|split].
        -- intros a Ha. rewrite Hlen. by apply Hb'.
        -- intros a Ha. destruct (Hpk' a Ha) as (g & Hg & Hflag).
           destruct (Hfr a g Hg) as (g' & Hg' & _ & _ & Hkeep).
           exists g'. auto.
        -- intros a g' Ha Hg' Hflag.
           destruct (lookup_lt_is_Some_2 (fieldHeap s1) a (Hb' a Ha)) as [g Hg].
           destruct (Hfr a g Hg) as (g'' & Hg'' & Hsame & _).
           rewrite Hg' in Hg''. injection Hg'' as <-.
           rewrite Hsame in Hflag.
           ++ by eapply Hj'.
           ++ intros Hin. by eapply Hu.
      * constructor; [|constructor].
        apply promoteID_Done in Hp as [[-> ->]|(a & f & Epf & Eid & Hf & -> & ->)].
        { done. }
        apply GetForeignField_Some in Eid as [Hin _]. simpl.
        split; [|split]; simpl.
        -- intros b Hbin. rewrite length_insert. by apply Hb.
        -- intros b Hbin. rewrite Epf in Hbin. simpl in Hbin.
           apply list_elem_of_singleton in Hbin as ->.
           rewrite list_lookup_insert_eq by by eapply lookup_lt_Some.
           eexists. done.
        -- intros b g' Hbin Hg' Hflag. rewrite Epf. simpl.
           apply list_elem_of_singleton.
           destruct (decide (a = b)) as [->|Hne]; [done|].
           rewrite list_lookup_insert_ne in Hg' by done.
           specialize (Hj b g' Hbin Hg' Hflag). rewrite Epf in Hj.
           by apply elem_of_nil in Hj.
    + intros k p Hk. rewrite length_app. simpl.
      destruct (decide (refType = k)) as [->|Hne].
      * rewrite lookup_insert_eq in Hk. injection Hk as <-. lia.
      * rewrite lookup_insert_ne in Hk by done. rewrite Hsm in Hk.
        rewrite Hsh. specialize (Wc k p Hk). lia.
Qed.

(** An early return of the loop hands on the error of the embedded
    record's resolution. *)
Lemma fieldStep_errors (fStruct : FieldDecl) (m : ModelStruct)
    (d : list Deferred) (s : State) (m' : ModelStruct)
    (d' : list Deferred) (err : error) (s' : State) :
  fieldStep getModelStruct fStruct m d s = Done (m', d', Some err) s' →
  shapeError err.
Proof.
  unfold fieldStep, appendField. intros H.
  repeat match type of H with
    | (if ?b then _ else _) _ = _ => destruct b
    | match ?x with _ => _ end _ = _ => destruct x eqn:?
    | bind (getModelStruct _) _ _ = Done _ _ =>
        let r := fresh "r" in let Hg := fresh "Hg" in
        apply bind_Done in H as (r & ? & Hg & H);
        destruct r; [|apply ret_Done in H as [[= <- <- <-] <-];
                       by eapply getModelStruct_errors]
    | bind _ _ _ = Done _ _ => apply bind_Done in H as (? & ? & _ & H)
    | ret _ _ = Done _ _ => by apply ret_Done in H as [[=] _]
    end.
Qed.

Lemma fieldLoop_errors (fields : list FieldDecl) :
  ∀ m d s m' d' err s',
    fieldLoop getModelStruct fields m d s = Done (m', d', Some err) s' →
    shapeError err.
Proof.
  induction fields as [|fStruct rest IH]; intros m d s m' d' err s' H;
    simpl in H.
  - by apply ret_Done in H as [[=] _].
  - apply bind_Done in H as ([[m1 d1] [e1|]] & s1 & Hstep & H).
    + apply ret_Done in H as [[= <- <- <-] <-].
      by eapply fieldStep_errors.
    + by eapply IH.
Qed.

Lemma defaultTableName_Done (refType name : string) (s s' : State) :
  defaultTableName refType s = Done name s' → s' = s.
Proof.
  unfold defaultTableName. intros H.
  destruct (sTabler (decl refType)) as [[[] ? ?]|];
    try (by apply ret_Done in H as [_ <-]);
    apply bind_Done in H as (? & ? & [_ <-]%gets_Done & H);
    by apply ret_Done in H as [_ <-].
Qed.

(** A cache miss, step by step. *)
Lemma GetModelStruct_body_miss (v : RValue) (refType : string)
    (s : State) (r : result nat) (s' : State) :
  unwrapType (typeOf v) = TStruct refType →
  StructMap s !! refType = None →
  GetModelStruct_body getModelStruct (Some v) s = Done r s' →
  ∃ tableName m1 d e1 s1,
    defaultTableName refType s = Done tableName s
    ∧ fieldLoop getModelStruct (sFields (decl refType))
        {| PrimaryFields_ := []; StructFields := []; ModelType := refType;
           DefaultTableName := tableName |} [] s
      = Done (m1, d, e1) s1
    ∧ match e1 with
      | Some err =>
          r = Err err
          ∧ runDeferred getModelStruct (Some v) refType m1 d s1 = Done tt s'
      | None =>
          ∃ m2 s2,
            promoteID m1 s1 = Done m2 s2
            ∧ r = Val (length (structHeap s2))
            ∧ runDeferred getModelStruct (Some v) refType m2 d
                (withStructMap
                   (<[refType := length (structHeap s2)]> (StructMap s2))
                   (withStructHeap (structHeap s2 ++ [m2]) s2))
              = Done tt s'
      end.
Proof.
  intros Ht Hmiss H. unfold GetModelStruct_body in H. rewrite Ht in H.
  apply bind_Done in H as (cache & s0 & [<- <-]%gets_Done & H).
  rewrite Hmiss in H.
  apply bind_Done in H as (tableName & s0 & Htn & H).
  pose proof (defaultTableName_Done _ _ _ _ Htn) as ->.
  apply bind_Done in H as ([[m1 d] e1] & s1 & Hloop & H).
  exists tableName, m1, d, e1, s1. split; [done|]. split; [done|].
  destruct e1 as [err|].
  - apply bind_Done in H as ([] & s2 & Hd & H).
    apply ret_Done in H as [<- <-]. done.
  - apply bind_Done in H as (m2 & s2 & Hp & H).
    apply bind_Done in H as (p & s3 & [-> ->]%newStruct_Done & H).
    apply bind_Done in H as ([] & s4 & Hset & H).
    apply bind_Done in H as ([] & s5 & Hd & H).
    apply ret_Done in H as [<- <-].
    injection Hset as <-.
    exists m2, s2. done.
Qed.

(** The other ways through [GetModelStruct]: a nil value, a value that is
    no struct, a shape already published. *)
Lemma GetModelStruct_body_other (value : option RValue) (s : State)
    (r : result nat) (s' : State) :
  GetModelStruct_body getModelStruct value s = Done r s' →
  (∃ v refType, value = Some v ∧ unwrapType (typeOf v) = TStruct refType
                ∧ StructMap s !! refType = None)
  ∨ (s' = s
     ∧ ((value = None ∧ r = Err ErrNilValue)
        ∨ (∃ v, value = Some v
                ∧ r = Err (ErrNotSupported (kindOf (unwrapType (typeOf v))))
                ∧ ∀ id, unwrapType (typeOf v) ≠ TStruct id)
        ∨ (∃ v refType p, value = Some v
                          ∧ unwrapType (typeOf v) = TStruct refType
                          ∧ StructMap s !! refType = Some p ∧ r = Val p))).
Proof.
  intros H. unfold GetModelStruct_body in H.
  destruct value as [v|].
  2:{ apply ret_Done in H as [<- <-]. right. split; [done|]. by left. }
  destruct (unwrapType (typeOf v)) as [refType| | |] eqn:Et.
  2-4: apply ret_Done in H as [<- <-]; right; split; [done|]; right; left;
    exists v; rewrite Et; done.
  apply bind_Done in H as (cache & s0 & [<- <-]%gets_Done & H).
  destruct (StructMap s !! refType) as [p|] eqn:Ec.
  - apply ret_Done in H as [<- <-]. right. split; [done|]. right. right.
    by exists v, refType, p.
  - left. by exists v, refType.
Qed.

Lemma building_start (refType tableName : string) (s : State) :
  wellFormed s →
  building {| PrimaryFields_ := []; StructFields := []; ModelType := refType;
              DefaultTableName := tableName |} s.
Proof.
  intros W. split; [done|]. split.
  - split; [|split]; simpl.
    + intros a Ha. by apply elem_of_nil in Ha.
    + intros a Ha. by apply elem_of_nil in Ha.
    + intros a f Ha. by apply elem_of_nil in Ha.
  - intros p m' a _ Ha. by apply elem_of_nil in Ha.
Qed.

Lemma sound_GetModelStruct_body (value : option RValue) :
  sound (GetModelStruct_body getModelStruct value).
Proof.
  intros s r s' H.
  destruct (GetModelStruct_body_other _ _ _ _ H)
    as [(v & refType & -> & Ht & Hmiss)|[-> _]].
  2:{ split; [apply extends_refl|done]. }
  destruct (GetModelStruct_body_miss _ _ _ _ _ Ht Hmiss H)
    as (tableName & m1 & d & e1 & s1 & _ & Hloop & Hrest).
  apply fieldLoop_spec in Hloop as (E1 & A1 & B1).
  destruct e1 as [err|].
  - destruct Hrest as [-> Hd].
    apply (sound_runDeferred _ getModelStruct_sound) in Hd as [E2 W2].
    split; [by eapply extends_trans|].
    intros W. apply W2. by apply B1, building_start.
  - destruct Hrest as (m2 & s2 & Hp & -> & Hd).
    apply (sound_runDeferred _ getModelStruct_sound) in Hd as [E2 W2].
    destruct (λ H0, publish_spec refType _ _ _ _ _ _ Hmiss H0 E1 A1 Hp)
      as [E4 W4]; [done|].
    split; [by eapply extends_trans|].
    intros W. apply W2, W4, B1. by apply building_start.
Qed.

Lemma GetModelStruct_body_errors (value : option RValue) (s : State)
    (e : error) (s' : State) :
  GetModelStruct_body getModelStruct value s = Done (Err e) s' →
  shapeError e.
Proof.
  intros H.
  destruct (GetModelStruct_body_other _ _ _ _ H)
    as [(v & refType & -> & Ht & Hmiss)
       |[-> [[_ [= ->]]|[(v & _ & [= ->] & _)|(v & ? & p & _ & _ & _ & [=])]]]].
  - destruct (GetModelStruct_body_miss _ _ _ _ _ Ht Hmiss H)
      as (tableName & m1 & d & e1 & s1 & _ & Hloop & Hrest).
    destruct e1 as [err|].
    + destruct Hrest as [[= ->] _]. by eapply fieldLoop_errors.
    + by destruct Hrest as (m2 & s2 & _ & [=] & _).
  - by left.
  - right. by eexists.
Qed.

(** The description returned is the one published for the shape, and it
    is on the heap. *)
Lemma GetModelStruct_body_publishes (value : option RValue) (s : State)
    (p : nat) (s' : State) :
  GetModelStruct_body getModelStruct value s = Done (Val p) s' →
  ∃ v refType,
    value = Some v ∧ unwrapType (typeOf v) = TStruct refType
    ∧ StructMap s' !! refType = Some p.
Proof.
  intros H.
  destruct (GetModelStruct_body_other _ _ _ _ H)
    as [(v & refType & -> & Ht & Hmiss)
       |[-> [[_ [=]]|[(v & _ & [=] & _)|(v & refType & p' & -> & Ht & Hc & [= <-])]]]].
  2:{ by exists v, refType. }
  exists v, refType. split; [done|]. split; [done|].
  destruct (GetModelStruct_body_miss _ _ _ _ _ Ht Hmiss H)
    as (tableName & m1 & d & e1 & s1 & _ & Hloop & Hrest).
  destruct e1 as [err|]; [by destruct Hrest as [[=] _]|].
  destruct Hrest as (m2 & s2 & Hp & [= ->] & Hd).
  apply (sound_runDeferred _ getModelStruct_sound) in Hd as [E2 _].
  apply (ext_cache _ _ E2). simpl. by rewrite lookup_insert_eq.
Qed.

End ResolverSoundness.

(** *** [GetModelStruct], for every fuel *)

Section GetModelStructFacts.
Context {P : Program}.

Lemma GetModelStruct_sound_errors (fuel : nat) :
  (∀ value, sound (GetModelStruct fuel value))
  ∧ (∀ value s e s',
       GetModelStruct fuel value s = Done (Err e) s' → shapeError e).
Proof.
  induction fuel as [|n [IHs IHe]]; simpl.
  - split; [intros value s r s' H; done | intros value s e s' H; done].
  - split.
    + intros value. by apply sound_GetModelStruct_body.
    + intros value s e s'. by apply GetModelStruct_body_errors.
Qed.

Lemma sound_GetModelStruct (fuel : nat) (value : option RValue) :
  sound (GetModelStruct fuel value).
Proof. apply GetModelStruct_sound_errors. Qed.

Lemma GetModelStruct_errors (fuel : nat) (value : option RValue)
    (s : State) (e : error) (s' : State) :
  GetModelStruct fuel value s = Done (Err e) s' → shapeError e.
Proof. apply GetModelStruct_sound_errors. Qed.

Lemma GetModelStruct_publishes (fuel : nat) (value : option RValue)
    (s : State) (p : nat) (s' : State) :
  GetModelStruct fuel value s = Done (Val p) s' →
  ∃ v refType,
    value = Some v ∧ unwrapType (typeOf v) = TStruct refType
    ∧ StructMap s' !! refType = Some p.
Proof.
  destruct fuel as [|n]; simpl; [done|].
  apply GetModelStruct_body_publishes. apply sound_GetModelStruct.
Qed.

End GetModelStructFacts.

(** ** The cache *)

Section CacheFacts.
Context {P : Program}.

(** A published shape is answered from the cache, whatever the fuel. *)
Lemma GetModelStruct_hit (fuel : nat) (v : RValue) (refType : string)
    (p : nat) (s : State) :
  unwrapType (typeOf v) = TStruct refType →
  StructMap s !! refType = Some p →
  GetModelStruct (S fuel) (Some v) s = Done (Val p) s.
Proof.
  intros Ht Hc. simpl. unfold GetModelStruct_body. rewrite Ht.
  unfold bind, gets. by rewrite Hc.
Qed.

(** C3. When [GetModelStruct] returns a description, that description is
    the one published for the shape, and resolving the same value again
    returns it from the cache with nothing changed, for any fuel. *)
Theorem GetModelStruct_cached (fuel : nat) (value : option RValue)
    (s : State) (p : nat) (s' : State) :
  GetModelStruct fuel value s = Done (Val p) s' →
  (∃ v refType,
     value = Some v ∧ unwrapType (typeOf v) = TStruct refType
     ∧ StructMap s' !! refType = Some p)
  ∧ ∀ fuel', GetModelStruct (S fuel') value s' = Done (Val p) s'.
Proof.
  intros H.
  destruct (GetModelStruct_publishes _ _ _ _ _ H) as (v & refType & -> & Ht & Hc).
  split; [by exists v, refType|]. intros fuel'.
  by eapply GetModelStruct_hit.
Qed.

End CacheFacts.

(** The theorem at [&User{}] on a new engine. *)
Lemma GetModelStruct_cached_witness :
  ∃ p s',
    GetModelStruct 1 (Fixture.ptrTo "User") Fixture.engine = Done (Val p) s'
    ∧ StructMap s' !! "User" = Some p
    ∧ GetModelStruct 1 (Fixture.ptrTo "User") s' = Done (Val p) s'.
Proof.
  eexists _, _. split; [vm_compute; reflexivity|].
  match goal with
  | |- ?c !! _ = _ ∧ GetModelStruct 1 ?v ?s' = Done (Val ?p) _ =>
      assert (GetModelStruct 1 v Fixture.engine = Done (Val p) s') as H
        by (vm_compute; reflexivity);
      destruct (GetModelStruct_cached 1 v Fixture.engine p s' H)
        as [(v' & refType & Hv & Ht & Hc) Hagain]
  end.
  split; [vm_compute; reflexivity|]. apply Hagain.
Defined.

(** ** Primary keys *)

Section PrimaryKeyFacts.
Context {P : Program}.

Lemma snapshot_Done (isStruct : bool) (i : option RValue) (s : State)
    (structFields : list nat) :
  (∀ a, a ∈ structFields →
        ∃ f, fieldHeap s !! a = Some f
             ∧ (isStruct = true → is_Some (walkNames i (Names f)))) →
  ∃ fds, snapshot isStruct i structFields s = Done fds s
         ∧ map fStructField fds = structFields.
Proof.
  induction structFields as [|a rest IH]; intros H; simpl.
  - by exists [].
  - destruct (H a) as (f & Hf & Hw); [by left|].
    destruct IH as (fds & Hfds & Hmap).
    { intros b Hb. apply H. by right. }
    destruct isStruct.
    + destruct (Hw eq_refl) as [fv Hfv].
      eexists (_ :: fds). unfold bind at 1. unfold bind at 1.
      unfold loadField. rewrite Hf, Hfv. unfold ret at 1.
      unfold bind at 1. rewrite Hfds. unfold ret. simpl.
      split; [reflexivity|]. by rewrite Hmap.
    + eexists (_ :: fds). unfold bind at 1. unfold ret at 1.
      unfold bind at 1. rewrite Hfds. unfold ret. simpl.
      split; [reflexivity|]. by rewrite Hmap.
Qed.

(** [Fields] on a published shape: one entry per descriptor, in order. *)
Lemma Fields_resolved (fuel : nat) (value : option RValue) (p : nat)
    (m : ModelStruct) (s : State) :
  wellFormed s → resolved value p m s → walkable value m s →
  ∃ fds, Fields (GetModelStruct (S fuel)) value s = Done (Val fds) s
         ∧ map fStructField fds = StructFields m.
Proof.
  intros W (v & refType & -> & Ht & Hc & Hm) Hw.
  destruct (snapshot_Done
              (bool_decide (valueKind (walked (Some v)) = Some KStruct))
              (walked (Some v)) s (StructFields m)) as (fds & Hfds & Hmap).
  { intros a Ha.
    pose proof (Forall_lookup_1 _ _ _ _ (wf_structs _ W) Hm) as (Hb & _).
    destruct (lookup_lt_is_Some_2 _ _ (Hb a Ha)) as [f Hf].
    exists f. split; [done|]. intros Hk%bool_decide_eq_true.
    by eapply Hw. }
  exists fds. split; [|done]. unfold Fields.
  unfold bind at 1. rewrite (GetModelStruct_hit fuel v refType p s Ht Hc).
  unfold bind at 1. unfold loadStruct. rewrite Hm.
  unfold bind at 1. fold (walked (Some v)). rewrite Hfds. done.
Qed.

Lemma lookupByName_Done (name : string) (s : State) (fds : list Field) :
  (∀ fd, fd ∈ fds → is_Some (fieldHeap s !! fStructField fd)) →
  ∃ r, lookupByName name (ToDBName name) fds s = Done r s
       ∧ match GetForeignField name (map fStructField fds) (fieldHeap s) with
         | Some a => ∃ fd, r = Val fd ∧ fStructField fd = a
         | None => r = Err ErrFieldNotFound
         end.
Proof.
  induction fds as [|fd rest IH]; intros H; simpl.
  - by exists (Err ErrFieldNotFound).
  - destruct (H fd) as [f Hf]; [by left|].
    destruct IH as (r & Hr & Hspec). { intros b Hb. apply H. by right. }
    unfold bind at 1. unfold loadField. rewrite Hf.
    unfold GetForeignField in *. simpl. unfold matchesColumn.
    destruct (String.eqb (Name f) name || String.eqb (DBName f) name) eqn:E1.
    + simpl. eexists. split; [reflexivity|]. by exists fd.
    + simpl. destruct (String.eqb (DBName f) (ToDBName name)) eqn:E2.
      * eexists. split; [reflexivity|]. by exists fd.
      * exists r. done.
Qed.

Lemma keepPrimary_Done (s : State) (fds : list Field) :
  (∀ fd, fd ∈ fds → is_Some (fieldHeap s !! fStructField fd)) →
  ∃ pf, keepPrimary fds s = Done pf s
        ∧ map fStructField pf = flagged (fieldHeap s) (map fStructField fds).
Proof.
  induction fds as [|fd rest IH]; intros H; simpl.
  - by exists [].
  - destruct (H fd) as [f Hf]; [by left|].
    destruct IH as (pf & Hpf & Hspec). { intros b Hb. apply H. by right. }
    unfold bind at 1. unfold loadField. rewrite Hf.
    unfold bind at 1. rewrite Hpf. unfold ret.
    eexists. split; [reflexivity|].
    destruct (IsPrimaryKey f); simpl; by rewrite Hspec.
Qed.

Lemma resolved_fields (value : option RValue) (p : nat) (m : ModelStruct)
    (s : State) (fds : list Field) :
  wellFormed s → resolved value p m s →
  map fStructField fds = StructFields m →
  ∀ fd, fd ∈ fds → is_Some (fieldHeap s !! fStructField fd).
Proof.
  intros W (v & refType & _ & _ & _ & Hm) Hmap fd Hfd.
  pose proof (Forall_lookup_1 _ _ _ _ (wf_structs _ W) Hm) as (Hb & _).
  apply lookup_lt_is_Some_2, Hb. rewrite <- Hmap.
  apply list_elem_of_fmap. by exists fd.
Qed.

(** [FieldByName] on a published shape finds what [GetForeignField]
    finds in its field list. *)
Lemma FieldByName_resolved (fuel : nat) (value : option RValue) (p : nat)
    (m : ModelStruct) (s : State) (name : string) :
  wellFormed s → resolved value p m s → walkable value m s →
  ∃ r, FieldByName (GetModelStruct (S fuel)) value name s = Done r s
       ∧ match GetForeignField name (StructFields m) (fieldHeap s) with
         | Some a => ∃ fd, r = Val fd ∧ fStructField fd = a
         | None => r = Err ErrFieldNotFound
         end.
Proof.
  intros W Hr Hw.
  destruct (Fields_resolved fuel _ _ _ _ W Hr Hw) as (fds & Hfds & Hmap).
  destruct (lookupByName_Done name s fds) as (r & Hl & Hspec).
  { by eapply resolved_fields. }
  exists r. rewrite <- Hmap. split; [|done].
  unfold FieldByName. unfold bind at 1. by rewrite Hfds.
Qed.

Lemma PrimaryFields_resolved (fuel : nat) (value : option RValue) (p : nat)
    (m : ModelStruct) (s : State) :
  wellFormed s → resolved value p m s → walkable value m s →
  ∃ pf, PrimaryFields (GetModelStruct (S fuel)) value s = Done (Val pf) s
        ∧ map fStructField pf = flagged (fieldHeap s) (StructFields m).
Proof.
  intros W Hr Hw.
  destruct (Fields_resolved fuel _ _ _ _ W Hr Hw) as (fds & Hfds & Hmap).
  destruct (keepPrimary_Done s fds) as (pf & Hpf & Hspec).
  { by eapply resolved_fields. }
  exists pf. rewrite <- Hmap. split; [|done].
  unfold PrimaryFields. unfold bind at 1. rewrite Hfds.
  unfold bind at 1. by rewrite Hpf.
Qed.


End PrimaryKeyFacts.

Section PrimaryFieldFacts.
Context {P : Program}.








Lemma promoteID_promotes (m : ModelStruct) (s : State) (a : nat)
    (f : StructField) :
  PrimaryFields_ m = [] →
  GetForeignField "id" (StructFields m) (fieldHeap s) = Some a →
  fieldHeap s !! a = Some f →
  promoteID m s
  = Done (addPrimaryField a m)
      (withFieldHeap (<[a := setIsPrimaryKey true f]> (fieldHeap s)) s).
Proof.
  intros Hpf Hid Hf. unfold promoteID. rewrite Hpf.
  unfold bind at 1. unfold gets. rewrite Hid.
  unfold bind, updateField. by rewrite Hf.
Qed.


End PrimaryFieldFacts.

Section PrimaryKeyTheorem.
Context {P : Program}.

Lemma walkableb_walkable (value : option RValue) (m : ModelStruct)
    (s : State) :
  walkableb value m s = true → walkable value m s.
Proof.
  unfold walkableb, walkable. intros H Hk a f Ha Hf.
  apply orb_true_iff in H as [H|H].
  - apply negb_true_iff, bool_decide_eq_false in H. done.
  - rewrite forallb_forall in H. apply list_elem_of_In in Ha.
    specialize (H a Ha). rewrite Hf in H.
    destruct (walkNames (walked value) (Names f)); [by eexists|done].
Qed.


(** C2, as the code has it.  In every state a resolution reaches, a
    descriptor carries a relationship only if the relationship is
    many-to-many or has at least one resolved pair of keys; a field that
    is a record or a collection of records (and neither a scanner nor a
    time) is not marked as a normal column, whether a relationship was
    attached or not; and the errors [GetModelStruct] returns are those
    of the shape of its argument, never those of a builder. *)
Theorem relationship_when_resolved (fuel : nat) (value : option RValue)
    (s : State) (r : result nat) (s' : State) :
  wellFormed s →
  GetModelStruct fuel value s = Done r s' →
  (∀ e, r = Err e → shapeError e)
  ∧ ∀ p m a f,
      structHeap s' !! p = Some m → a ∈ StructFields m →
      fieldHeap s' !! a = Some f →
      (∀ rel, Relationship_ f = Some rel →
              Kind rel = "many_to_many" ∨ ForeignFieldNames rel ≠ [])
      ∧ (∀ id, stripSlicePtr (fdType (Struct f)) = TStruct id →
               isScanner (stripPtr (fdType (Struct f))) = false →
               stripPtr (fdType (Struct f)) ≠ timeType →
               IsNormal f = false).
Proof.
  intros W H. split.
  - intros e ->. by eapply GetModelStruct_errors.
  - intros p m a f _ _ Hf.
    pose proof (sound_GetModelStruct _ _ _ _ _ H) as [_ W'].
    pose proof (Forall_lookup_1 _ _ _ _ (wf_fields _ (W' W)) Hf) as [O1 O2].
    split; [exact O1|].
    intros id Hid Hs Ht. destruct (IsNormal f) eqn:En; [|done].
    destruct (O2 eq_refl) as [Hx|[Hx|Hx]].
    + by rewrite Hx in Hs.
    + done.
    + by apply Hx in Hid.
Qed.

End PrimaryKeyTheorem.

(** ** The theorems at the shapes of the fixture *)

Lemma Fixture_resolvedState_wellFormed (id : string) :
  wellFormed (Fixture.resolvedState id).
Proof.
  unfold Fixture.resolvedState.
  destruct (GetModelStruct 3 (Fixture.ptrTo id) Fixture.engine) eqn:E;
    try apply wellFormed_newEngine.
  eapply sound_GetModelStruct; [exact E|apply wellFormed_newEngine].
Qed.

(** The theorem at [Blog], whose [Entries] resolve to a has-many
    relationship, on a new engine. *)
Lemma relationship_when_resolved_witness :
  ∃ p s',
    GetModelStruct 3 (Fixture.ptrTo "Blog") Fixture.engine = Done (Val p) s'
    ∧ ∀ q m a f,
        structHeap s' !! q = Some m → a ∈ StructFields m →
        fieldHeap s' !! a = Some f →
        (∀ rel, Relationship_ f = Some rel →
                Kind rel = "many_to_many" ∨ ForeignFieldNames rel ≠ [])
        ∧ (∀ id, stripSlicePtr (fdType (Struct f)) = TStruct id →
                 isScanner (stripPtr (fdType (Struct f))) = false →
                 stripPtr (fdType (Struct f)) ≠ timeType →
                 IsNormal f = false).
Proof.
  eexists _, _. split; [vm_compute; reflexivity|].
  eapply (relationship_when_resolved 3 (Fixture.ptrTo "Blog") Fixture.engine).
  - apply wellFormed_newEngine.
  - vm_compute; reflexivity.
Defined.

(** C2 as stated fails.  The [Labels] of a [Post] resolve no pair of keys
    ([Label] has no [PostID]): no relationship is attached, and the field
    is not marked normal either.  The [Labels] of a [Note] are
    many-to-many: the relationship is attached without any pair. *)
Lemma relationship_counterexample :
  (∃ f, fieldHeap (Fixture.resolvedState "Post") !! 1 = Some f
        ∧ Name f = "Labels" ∧ Relationship_ f = None ∧ IsNormal f = false)
  ∧ (∃ f rel, fieldHeap (Fixture.resolvedState "Note") !! 0 = Some f
              ∧ Name f = "Labels" ∧ Relationship_ f = Some rel
              ∧ ForeignFieldNames rel = []
              ∧ AssociationForeignFieldNames rel = []).
Proof.
  split.
  - eexists. split; [vm_compute; reflexivity|]. repeat split.
  - eexists _, _. split; [vm_compute; reflexivity|]. repeat split.
Qed.

(** The relationship of the [Entries] of a [Blog]. *)
Example Blog_Entries_has_many :
  ∃ f rel, fieldHeap (Fixture.resolvedState "Blog") !! 1 = Some f
           ∧ Relationship_ f = Some rel ∧ Kind rel = "has_many"
           ∧ ForeignFieldNames rel = ["BlogID"]
           ∧ AssociationForeignFieldNames rel = ["ID"].
Proof. eexists _, _. split; [vm_compute; reflexivity|]. repeat split. Qed.



(** What the conditions of C4 as amended keep out.  For [&Outer{}], whose
    embedded pointer is nil, [PrimaryKey] panics in [reflect] although
    the shape has one primary field.  [DocX] has no annotated field and
    a field [ID] of its own, with column [id]; the loop over its fields
    takes the primary field of the embedded [Base] over, so [ID] is not
    promoted, and [PrimaryKey] returns [base_id].  [OuterPK] has one
    primary field, the embedding field, which is not in the field list,
    and [PrimaryKey] panics at [pf[0]]. *)
Lemma PrimaryKey_at_the_edges :
  let s := Samples.resolvedState "Outer" in
  let t := Corners.resolvedState "DocX" in
  let u := Corners.resolvedState "OuterPK" in
  ((∃ m, StructMap s !! "Outer" = Some 1 ∧ structHeap s !! 1 = Some m
         ∧ PrimaryFields_ m = [2] ∧ StructFields m = [2; 3])
   ∧ PrimaryKey (P:=Samples.program) (GetModelStruct (P:=Samples.program) 1)
       (Fixture.ptrTo "Outer") s
     = Panics PanicReflect)
  ∧ ((∀ fd, fd ∈ sFields (Corners.declarations "DocX") →
            hasTag (Fixture.parseTagSetting (fdTag fd)) "PRIMARY_KEY" = false)
     ∧ (∃ m own, StructMap t !! "DocX" = Some 1 ∧ structHeap t !! 1 = Some m
                 ∧ PrimaryFields_ m = [3] ∧ StructFields m = [3; 4; 5; 6]
                 ∧ fieldHeap t !! 5 = Some own
                 ∧ Names own = ["ID"] ∧ DBName own = "id"
                 ∧ IsPrimaryKey own = false)
     ∧ PrimaryKey (P:=Corners.program) (GetModelStruct (P:=Corners.program) 1)
         (Fixture.ptrTo "DocX") t
       = Done (Val "base_id") t)
  ∧ PrimaryKey (P:=Corners.program) (GetModelStruct (P:=Corners.program) 1)
      (Fixture.ptrTo "OuterPK") u
    = Panics PanicIndexOutOfRange.
Proof.
  split; [split|split; [split; [|split]|]].
  - eexists. split; [vm_compute; reflexivity|].
    split; [vm_compute; reflexivity|]. split; reflexivity.
  - vm_compute. reflexivity.
  - intros fd Hfd. simpl in Hfd.
    apply elem_of_cons in Hfd as [->|Hfd]; [vm_compute; reflexivity|].
    apply elem_of_cons in Hfd as [->|Hfd]; [vm_compute; reflexivity|].
    apply elem_of_cons in Hfd as [->|Hfd]; [vm_compute; reflexivity|].
    by apply elem_of_nil in Hfd.
  - eexists _, _. split; [vm_compute; reflexivity|].
    split; [vm_compute; reflexivity|]. split; [reflexivity|].
    split; [reflexivity|]. split; [vm_compute; reflexivity|].
    split; [reflexivity|]. split; reflexivity.
  - vm_compute. reflexivity.
  - vm_compute. reflexivity.
Qed.



(** ** Mismatched key lists *)

Lemma bind_run {A B : Type} (m : M A) (k : A → M B) (s s' : State) (a : A) :
  m s = Done a s' → bind m k s = k a s'.
Proof. intros H. unfold bind. by rewrite H. Qed.

Section MismatchedKeys.
Context {P : Program}.
Variable getModelStruct : option RValue → M (result nat).

Lemma deriveKeys_mismatch (prefix : string) (lookupIn : list nat)
    (primaries : M (result (list StructField)))
    (primaryKey : M (result string)) (fks afks : list string) (s : State) :
  fks ≠ [] → afks ≠ [] → length fks ≠ length afks →
  deriveKeys prefix lookupIn primaries primaryKey fks afks s
  = Done (Err ErrInvalidForeignKeys) s.
Proof.
  intros Hf Ha Hlen. unfold deriveKeys.
  destruct fks as [|fk fks]; [done|]. destruct afks as [|afk afks]; [done|].
  destruct (length (fk :: fks) =? length (afk :: afks)) eqn:E; [|done].
  apply Nat.eqb_eq in E. done.
Qed.

(** C5, as the code has it.  A nested-record field, and a collection of
    records that is not many-to-many, whose two annotated key lists are
    both non-empty and of different lengths: once the target shape is
    resolved and the handling of the polymorphic annotation has
    returned, the builder returns the invalid-foreign-keys error, in
    the state it has then: no pair is looked up and no relationship
    attached.  (Without the annotation its handling returns at once;
    with it, it can read the table name of the model or of the search,
    and need not return.) *)
Theorem mismatched_keys_rejected (modelValue : option RValue)
    (refType : string) (m : ModelStruct) (field : nat) (s : State)
    (f : StructField) (ms : nat) (s1 : State) (target : ModelStruct) :
  fieldHeap s !! field = Some f →
  tagList (TagSettings f) "FOREIGNKEY" ≠ [] →
  tagList (TagSettings f) "ASSOCIATIONFOREIGNKEY" ≠ [] →
  length (tagList (TagSettings f) "FOREIGNKEY")
  ≠ length (tagList (TagSettings f) "ASSOCIATIONFOREIGNKEY") →
  getModelStruct (reflectNew (fdType (Struct f))) s = Done (Val ms) s1 →
  structHeap s1 !! ms = Some target →
  (∀ owner s2,
     polymorphicOwner (TagSettings f) (StructFields target)
       (TableName getModelStruct modelValue) (sName (decl refType))
       emptyRelationship s1 = Done owner s2 →
     buildRelationStruct getModelStruct modelValue refType m field s
     = Done (Err ErrInvalidForeignKeys) s2)
  ∧ (∀ elemType owner s2,
       stripSlicePtr (fdType (Struct f)) = TStruct elemType →
       tagValue (TagSettings f) "MANY2MANY" = "" →
       polymorphicOwner (TagSettings f) (StructFields target)
         (search <- gets Search ;;
          match search with
          | Some name => ret name
          | None => throw PanicNilDereference
          end)
         (sName (decl refType)) (setKind "has_many" emptyRelationship) s1
       = Done owner s2 →
       buildRelationSlice getModelStruct modelValue refType m field s
       = Done (Err ErrInvalidForeignKeys) s2).
Proof.
  intros Hf Hfk Hafk Hlen Hg Hm.
  assert (Hl : loadField field s = Done f s) by (unfold loadField; by rewrite Hf).
  assert (Hs : loadStruct ms s1 = Done target s1)
    by (unfold loadStruct; by rewrite Hm).
  split.
  - intros owner s2 Ho. unfold buildRelationStruct.
    rewrite (bind_run _ _ _ _ _ Hl). cbv beta zeta.
    rewrite (bind_run _ _ _ _ _ Hg). cbv beta iota.
    rewrite (bind_run _ _ _ _ _ Hs). cbv beta.
    rewrite (bind_run _ _ _ _ _ Ho). cbv beta.
    by rewrite (bind_run _ _ _ _ _ (deriveKeys_mismatch _ _ _ _ _ _ _ Hfk Hafk Hlen)).
  - intros elemType owner s2 He Hm2 Ho. unfold buildRelationSlice.
    rewrite (bind_run _ _ _ _ _ Hl). cbv beta zeta.
    rewrite He. cbv beta iota. rewrite Hm2.
    change (negb (String.eqb "" "")) with false. cbv iota.
    rewrite (bind_run _ _ _ _ _ Hg). cbv beta iota.
    rewrite (bind_run _ _ _ _ _ Hs). cbv beta.
    rewrite (bind_run _ _ _ _ _ Ho). cbv beta.
    by rewrite (bind_run _ _ _ _ _ (deriveKeys_mismatch _ _ _ _ _ _ _ Hfk Hafk Hlen)).
Qed.

End MismatchedKeys.

(** The theorem at the [Pet] of an [Owner] (two foreign keys, one
    association key) and at the [Comments] of a [Thread]. *)
Lemma mismatched_keys_rejected_witness :
  buildRelationStruct (GetModelStruct 1) (Fixture.ptrTo "Owner") "Owner"
    {| PrimaryFields_ := [0]; StructFields := [0; 1]; ModelType := "Owner";
       DefaultTableName := "owners" |} 1 (Fixture.resolvedState "Owner")
  = Done (Err ErrInvalidForeignKeys) (Fixture.resolvedState "Owner")
  ∧ buildRelationSlice (GetModelStruct 1) (Fixture.ptrTo "Thread") "Thread"
      {| PrimaryFields_ := [0]; StructFields := [0; 1]; ModelType := "Thread";
         DefaultTableName := "threads" |} 1 (Fixture.resolvedState "Thread")
    = Done (Err ErrInvalidForeignKeys) (Fixture.resolvedState "Thread").
Proof.
  split.
  - assert (∃ f, fieldHeap (Fixture.resolvedState "Owner") !! 1 = Some f)
      as [f Hf] by (eexists; vm_compute; reflexivity).
    assert (∃ t, structHeap (Fixture.resolvedState "Owner") !! 1 = Some t)
      as [t Ht] by (eexists; vm_compute; reflexivity).
    pose proof Hf as Hf'. vm_compute in Hf'. injection Hf' as Ef.
    pose proof Ht as Ht'. vm_compute in Ht'. injection Ht' as Et.
    refine (proj1 (mismatched_keys_rejected (GetModelStruct 1)
                     (Fixture.ptrTo "Owner") "Owner" _ 1
                     (Fixture.resolvedState "Owner") f 1
                     (Fixture.resolvedState "Owner") t Hf _ _ _ _ Ht)
              ("Owner", emptyRelationship) (Fixture.resolvedState "Owner") _).
    + rewrite <- Ef. vm_compute. done.
    + rewrite <- Ef. vm_compute. done.
    + rewrite <- Ef. vm_compute. lia.
    + rewrite <- Ef. vm_compute. reflexivity.
    + rewrite <- Ef, <- Et. vm_compute. reflexivity.
  - assert (∃ f, fieldHeap (Fixture.resolvedState "Thread") !! 1 = Some f)
      as [f Hf] by (eexists; vm_compute; reflexivity).
    assert (∃ t, structHeap (Fixture.resolvedState "Thread") !! 1 = Some t)
      as [t Ht] by (eexists; vm_compute; reflexivity).
    pose proof Hf as Hf'. vm_compute in Hf'. injection Hf' as Ef.
    pose proof Ht as Ht'. vm_compute in Ht'. injection Ht' as Et.
    refine (proj2 (mismatched_keys_rejected (GetModelStruct 1)
                     (Fixture.ptrTo "Thread") "Thread" _ 1
                     (Fixture.resolvedState "Thread") f 1
                     (Fixture.resolvedState "Thread") t Hf _ _ _ _ Ht)
              "Comment" ("Thread", setKind "has_many" emptyRelationship)
              (Fixture.resolvedState "Thread") _ _ _).
    + rewrite <- Ef. vm_compute. done.
    + rewrite <- Ef. vm_compute. done.
    + rewrite <- Ef. vm_compute. lia.
    + rewrite <- Ef. vm_compute. reflexivity.
    + rewrite <- Ef. reflexivity.
    + rewrite <- Ef. reflexivity.
    + rewrite <- Ef, <- Et. vm_compute. reflexivity.
Defined.

(** C5 as stated fails: the [Labels] of a [Memo] are many-to-many, with one
    annotated foreign key and two annotated association keys, and the
    builder returns no error; the relationship it attaches has one
    foreign column and two association columns. *)
Lemma mismatched_keys_many2many_counterexample :
  let s := Fixture.resolvedState "Memo" in
  (∃ f, fieldHeap s !! 1 = Some f
        ∧ tagList (TagSettings f) "FOREIGNKEY" = ["ID"]
        ∧ tagList (TagSettings f) "ASSOCIATIONFOREIGNKEY" = ["Text"; "Text"])
  ∧ ∃ s', buildRelationSlice (GetModelStruct 1) (Fixture.ptrTo "Memo") "Memo"
            {| PrimaryFields_ := [0]; StructFields := [0; 1];
               ModelType := "Memo"; DefaultTableName := "memos" |} 1 s
          = Done (Val tt) s'.
Proof.
  split.
  - eexists. split; [vm_compute; reflexivity|]. split; vm_compute; reflexivity.
  - eexists. vm_compute. reflexivity.
Qed.

(** What the condition of C5 as amended keeps out.  The [Toys] of a [Dog]
    are polymorphic, without [POLYMORPHIC_VALUE], and annotated with two
    foreign keys and one association key.  On an engine without search
    the builder panics where it reads the table name of the search,
    before it compares the two lists; with a search it returns the
    invalid-foreign-keys error. *)
Lemma mismatched_keys_polymorphic :
  let m := {| PrimaryFields_ := [0]; StructFields := [0; 1];
              ModelType := "Dog"; DefaultTableName := "dogs" |} in
  (∃ s0 p, GetModelStruct (P:=Corners.program) 3 (Fixture.ptrTo "Toy")
             Corners.bareEngine = Done (Val p) s0)
  ∧ GetModelStruct (P:=Corners.program) 3 (Fixture.ptrTo "Dog")
      Corners.bareEngine
    = Panics PanicNilDereference
  ∧ let s := Corners.resolvedState "Dog" in
    (∃ f, fieldHeap s !! 1 = Some f
          ∧ tagValue (TagSettings f) "POLYMORPHIC" = "Owner"
          ∧ tagList (TagSettings f) "FOREIGNKEY" = ["A"; "B"]
          ∧ tagList (TagSettings f) "ASSOCIATIONFOREIGNKEY" = ["ID"])
    ∧ structHeap s !! 0 = Some m
    ∧ ∃ s', buildRelationSlice (P:=Corners.program)
              (GetModelStruct (P:=Corners.program) 1) (Fixture.ptrTo "Dog")
              "Dog" m 1 s
            = Done (Err ErrInvalidForeignKeys) s'.
Proof.
  split; [eexists _, _; vm_compute; reflexivity|].
  split; [vm_compute; reflexivity|]. split.
  { eexists. split; [vm_compute; reflexivity|].
    split; [vm_compute; reflexivity|]. split; vm_compute; reflexivity. }
  split; [vm_compute; reflexivity|].
  eexists. vm_compute. reflexivity.
Qed.

(** ** Errors of the relationship builders *)

(** C1 does not hold of the code.  The [Pet] of an [Owner] is annotated
    with two foreign keys and one association key.  Resolving [Owner] on a
    fresh engine: the field loop defers one builder call for that field;
    the shape is allocated and published; the deferred builder then
    returns the invalid-foreign-keys error, which [defer] drops; and
    [GetModelStruct] returns the description, which stays in the cache. *)
Theorem relationship_error_absorbed :
  let value := Fixture.ptrTo "Owner" in
  let m0 := {| PrimaryFields_ := []; StructFields := []; ModelType := "Owner";
               DefaultTableName := "owners" |} in
  ∃ (m m' : ModelStruct) (p : nat) (s1 s2 s3 s4 s5 : State),
    defaultTableName "Owner" Fixture.engine = Done "owners" Fixture.engine
    ∧ fieldLoop (GetModelStruct 2) (sFields (decl "Owner")) m0 [] Fixture.engine
      = Done (m, [DeferStruct 1], None) s1
    ∧ promoteID m s1 = Done m' s2
    ∧ newStruct m' s2 = Done p s3
    ∧ StructMapSet "Owner" p s3 = Done tt s4
    ∧ runDeferred (GetModelStruct 2) value "Owner" m' [DeferStruct 1] s4
      = Done tt s5
    ∧ buildRelationStruct (GetModelStruct 2) value "Owner" m' 1 s4
      = Done (Err ErrInvalidForeignKeys) s5
    ∧ GetModelStruct 3 value Fixture.engine = Done (Val p) s5
    ∧ StructMap s5 !! "Owner" = Some p.
Proof.
  cbv zeta. do 8 eexists.
  split; [vm_compute; reflexivity|].
  split; [vm_compute; reflexivity|].
  split; [vm_compute; reflexivity|].
  split; [vm_compute; reflexivity|].
  split; [vm_compute; reflexivity|].
  split; [vm_compute; reflexivity|].
  split; [vm_compute; reflexivity|].
  split; vm_compute; reflexivity.
Qed.

(** ** Embedded fields *)

Section EmbeddedFields.
Context {P : Program}.

Lemma stable_shell (f f' : StructField) : stable f f' → shell f = shell f'.
Proof. unfold stable, shell. by intros ->. Qed.

Lemma shell_setIsPrimaryKey (v : bool) (f : StructField) :
  shell (setIsPrimaryKey v f) = shell f.
Proof. by destruct f. Qed.

Lemma shell_Struct (f f' : StructField) :
  shell f = shell f' → Struct f = Struct f'.
Proof. intros H. apply (f_equal Struct) in H. by destruct f, f'. Qed.

Lemma shell_Names (f f' : StructField) :
  shell f = shell f' → Names f = Names f'.
Proof. intros H. apply (f_equal Names) in H. by destruct f, f'. Qed.

Lemma shell_embeddedClone (name : string) (ts : gmap string string)
    (g g' : StructField) :
  shell g = shell g' →
  shell (embeddedClone name ts g) = shell (embeddedClone name ts g').
Proof.
  destruct g, g'. unfold shell, core, embeddedClone, Clone. simpl.
  intros [= -> -> -> -> -> -> -> -> ->].
  by destruct (ts !! "EMBEDDED_PREFIX").
Qed.

Lemma carried_refl (refType : string) (s : State) : carried refType s s.
Proof. split; [done|]. split; [done|]. intros a f Hf. by exists f. Qed.

Lemma carried_trans (refType : string) (s1 s2 s3 : State) :
  carried refType s1 s2 → carried refType s2 s3 → carried refType s1 s3.
Proof.
  intros (C1 & S1 & F1) (C2 & S2 & F2). split; [|split].
  - intros k p Hk Hp. by apply C2, C1.
  - intros p m Hm. by apply S2, S1.
  - intros a f Hf. destruct (F1 a f Hf) as (f1 & Hf1 & E1).
    destruct (F2 a f1 Hf1) as (f2 & Hf2 & E2).
    exists f2. split; [done|]. by rewrite E1.
Qed.

Lemma extends_carried (refType : string) (s s' : State) :
  extends s s' → carried refType s s'.
Proof.
  intros E. split; [|split].
  - intros k p _. apply E.
  - apply E.
  - intros a f Hf. destruct (ext_fields _ _ E a f Hf) as (f' & Hf' & Hst).
    exists f'. split; [done|]. by apply stable_shell.
Qed.

Lemma promoteID_carried (refType : string) (m m' : ModelStruct)
    (s s' : State) :
  promoteID m s = Done m' s' →
  carried refType s s' ∧ StructFields m' = StructFields m.
Proof.
  intros H.
  apply promoteID_Done in H as [[-> ->]|(a & f & _ & _ & Hf & -> & ->)].
  - split; [apply carried_refl|done].
  - split; [|done]. split; [done|]. split; [done|]. simpl.
    intros b g Hg. destruct (decide (a = b)) as [->|Hne].
    + rewrite Hf in Hg. injection Hg as ->.
      rewrite list_lookup_insert_eq by by eapply lookup_lt_Some.
      eexists. split; [done|]. by rewrite shell_setIsPrimaryKey.
    + rewrite list_lookup_insert_ne by done. by exists g.
Qed.

(** [embedSubFields] only allocates. *)
Lemma embedSubFields_heap (name : string) (ts : gmap string string)
    (subs : list nat) :
  ∀ m s m' s',
    embedSubFields name ts subs m s = Done m' s' →
    ∃ news, fieldHeap s' = fieldHeap s ++ news.
Proof.
  induction subs as [|sub rest IH]; intros m s m' s' H; simpl in H.
  - apply ret_Done in H as [<- <-]. exists []. by rewrite app_nil_r.
  - apply bind_Done in H as (sf & s0 & Hsf & H).
    apply loadField_Done in Hsf as [Hsf <-].
    apply bind_Done in H as (a & s1 & Ha & H).
    apply newField_Done in Ha as [-> ->].
    apply IH in H as (news & Hh). simpl in Hh.
    eexists. rewrite Hh. by rewrite <- app_assoc.
Qed.

(** The clones [embedSubFields] appends, one for each sub-field, in
    the order of the sub-fields. *)
Lemma embedSubFields_clones (name : string) (ts : gmap string string)
    (subs : list nat) :
  ∀ m s m' s',
    embedSubFields name ts subs m s = Done m' s' →
    ∃ clones,
      StructFields m' = StructFields m ++ clones
      ∧ Forall2 (λ b c, ∃ g, fieldHeap s' !! b = Some g
                             ∧ fieldHeap s' !! c = Some (embeddedClone name ts g)
                             ∧ length (fieldHeap s) ≤ c)
          subs clones.
Proof.
  induction subs as [|sub rest IH]; intros m s m' s' H; simpl in H.
  - apply ret_Done in H as [<- <-]. exists [].
    split; [by rewrite app_nil_r|constructor].
  - apply bind_Done in H as (sf & s0 & Hsf & H).
    apply loadField_Done in Hsf as [Hsf <-].
    apply bind_Done in H as (a & s1 & Ha & H).
    apply newField_Done in Ha as [-> ->].
    pose proof (embedSubFields_heap _ _ _ _ _ _ _ H) as (news & Hh).
    apply IH in H as (clones & Hm & Hall).
    simpl in Hm, Hh.
    exists (length (fieldHeap s) :: clones).
    split.
    + rewrite Hm. destruct (IsPrimaryKey _); simpl; by rewrite <- app_assoc.
    + constructor.
      * exists sf. rewrite Hh. split; [|split; [|done]].
        -- by apply lookup_app_l_Some, lookup_app_l_Some.
        -- apply lookup_app_l_Some. rewrite lookup_app_r by done.
           by rewrite Nat.sub_diag.
      * eapply Forall2_impl; [exact Hall|]. simpl.
        intros b c (g & Hg & Hc & Hle). rewrite length_app in Hle. simpl in Hle.
        exists g. split; [done|]. split; [done|lia].
Qed.

Lemma fieldLoop_app (getModelStruct : option RValue → M (result nat))
    (front back : list FieldDecl) :
  ∀ m d s m' d' s',
    fieldLoop getModelStruct (front ++ back) m d s = Done (m', d', None) s' →
    ∃ m1 d1 s1,
      fieldLoop getModelStruct front m d s = Done (m1, d1, None) s1
      ∧ fieldLoop getModelStruct back m1 d1 s1 = Done (m', d', None) s'.
Proof.
  induction front as [|fStruct rest IH]; intros m d s m' d' s' H; simpl in H.
  - by exists m, d, s.
  - apply bind_Done in H as ([[m1 d1] e1] & s1 & Hstep & H).
    destruct e1 as [err|]; [by apply ret_Done in H as [[=] _]|].
    apply IH in H as (m2 & d2 & s2 & H1 & H2).
    exists m2, d2, s2. split; [|done].
    simpl. unfold bind. by rewrite Hstep.
Qed.

Lemma Forall2_strengthen {A B : Type} (R R' : A → B → Prop) (Q : A → Prop)
    (l : list A) (k : list B) :
  Forall Q l → Forall2 R l k → (∀ x y, Q x → R x y → R' x y) →
  Forall2 R' l k.
Proof.
  intros HQ HR Himp. induction HR as [|x y l k Hxy HR IH]; [constructor|].
  apply Forall_cons in HQ as [Hx HQ]. constructor; auto.
Qed.

End EmbeddedFields.

Section EmbeddedResolution.
Context {P : Program}.
Variable getModelStruct : option RValue → M (result nat).
Hypothesis getModelStruct_sound : ∀ value, sound (getModelStruct value).
Hypothesis getModelStruct_publishes :
  ∀ value s p s',
    getModelStruct value s = Done (Val p) s' →
    ∃ v refType, value = Some v ∧ unwrapType (typeOf v) = TStruct refType
                 ∧ StructMap s' !! refType = Some p.

(** The turn of an embedded field, after its descriptor is allocated. *)
Lemma embeddedTurn_clones (f0 field : StructField) (m mp : ModelStruct)
    (d : list Deferred) (name : string) (ts : gmap string string)
    (inType : GoType) (s s1 s2 s' : State) (a : nat) (u : unit)
    (m' : ModelStruct) (d' : list Deferred) :
  newField f0 s = Done a s1 →
  updateField a (λ _, field) s1 = Done u s2 →
  (r <- getModelStruct (reflectNew inType) ;;
   match r with
   | Err err => ret (mp, d, Some err)
   | Val ms =>
       sub <- loadStruct ms ;;
       m <- embedSubFields name ts (StructFields sub) mp ;;
       ret (m, d, None)
   end) s2 = Done (m', d', None) s' →
  fieldOK field →
  StructFields mp = StructFields m →
  building m s →
  a = length (fieldHeap s)
  ∧ ∃ subType ms sub clones e,
      unwrapType (TPtr inType) = TStruct subType
      ∧ StructMap s' !! subType = Some ms
      ∧ structHeap s' !! ms = Some sub
      ∧ fieldHeap s' !! a = Some e ∧ shell e = shell field
      ∧ StructFields m' = StructFields m ++ clones
      ∧ Forall2 (λ b c, b < c ∧ a < c
                        ∧ ∃ g, fieldHeap s' !! b = Some g
                               ∧ fieldHeap s' !! c
                                 = Some (embeddedClone name ts g))
          (StructFields sub) clones.
Proof.
  intros Ha Hu H Hok Hsf Hb.
  destruct (newField_store _ _ _ _ _ _ _ Ha Hu) as [-> ->].
  split; [done|].
  apply bind_Done in H as (r & s3 & Hg & H).
  destruct (getModelStruct_sound _ _ _ _ Hg) as [E23 W23].
  destruct r as [ms|err]; [|by apply ret_Done in H as [[=] _]].
  apply bind_Done in H as (sub & s4 & Hsub & H).
  apply loadStruct_Done in Hsub as [Hsub <-].
  apply bind_Done in H as (m2 & s5 & Hemb & H).
  apply ret_Done in H as [[= <- <-] <-].
  destruct (getModelStruct_publishes _ _ _ _ Hg)
    as (v & subType & [= <-] & Ht & Hc).
  pose proof (embedSubFields_spec _ _ _ _ _ _ _ Hemb) as (E35 & _ & _).
  pose proof (embedSubFields_heap _ _ _ _ _ _ _ Hemb) as (news & Hh).
  apply embedSubFields_clones in Hemb as (clones & Hm & Hall).
  assert (wellFormed s3) as W3.
  { apply W23. apply alloc_wellFormed; [done|apply Hb]. }
  pose proof (Forall_lookup_1 _ _ _ _ (wf_structs _ W3) Hsub) as (Hlt & _).
  destruct (ext_fields _ _ E23 (length (fieldHeap s)) field)
    as (e & He & Hst).
  { simpl. rewrite lookup_app_r by done. by rewrite Nat.sub_diag. }
  exists subType, ms, sub, clones, e.
  split; [done|]. split; [by apply E35|]. split; [by apply E35|].
  split; [rewrite Hh; by apply lookup_app_l_Some|].
  split; [symmetry; by apply stable_shell|].
  split; [by rewrite Hm, Hsf|].
  eapply (Forall2_strengthen _ _ (λ b, b < length (fieldHeap s3)));
    [|exact Hall|].
  - apply Forall_forall. intros b Hin. by apply Hlt.
  - simpl. intros b c Hlb (g & Hg' & Hc' & Hle).
    apply lookup_lt_Some in He.
    split; [lia|]. split; [lia|]. by exists g.
Qed.

(** The turn of the loop at a field it expands in place. *)
Lemma fieldStep_embedded (fStruct : FieldDecl) (m : ModelStruct)
    (d : list Deferred) (s : State) (m' : ModelStruct)
    (d' : list Deferred) (s' : State) :
  embedsAt fStruct → building m s →
  fieldStep getModelStruct fStruct m d s = Done (m', d', None) s' →
  ∃ subType ms sub clones e,
    unwrapType (TPtr (stripPtr (fdType fStruct))) = TStruct subType
    ∧ StructMap s' !! subType = Some ms
    ∧ structHeap s' !! ms = Some sub
    ∧ fieldHeap s' !! length (fieldHeap s) = Some e
    ∧ Struct e = fStruct ∧ Names e = [fdName fStruct]
    ∧ StructFields m' = StructFields m ++ clones
    ∧ Forall2 (λ b c, b < c ∧ length (fieldHeap s) < c
                      ∧ ∃ g, fieldHeap s' !! b = Some g
                             ∧ fieldHeap s' !! c
                               = Some (embeddedClone (fdName fStruct)
                                         (ParseTagSetting (fdTag fStruct)) g))
        (StructFields sub) clones.
Proof.
  intros (Hex & Hig & Hsc & Htm & Hem) Hb H. unfold fieldStep in H.
  rewrite Hex in H. cbn [negb] in H.
  apply bind_Done in H as (a & s1 & Ha & H).
  set (ts := ParseTagSetting (fdTag fStruct)) in *.
  cbn [TagSettings] in H. rewrite Hig in H.
  destruct (hasTag ts "PRIMARY_KEY") eqn:Epk;
    cbn [TagSettings setIsPrimaryKey IsPrimaryKey setHasDefaultValue negb andb] in H.
  all: destruct (hasTag ts "DEFAULT");
    cbn [TagSettings setIsPrimaryKey IsPrimaryKey setHasDefaultValue negb andb] in H.
  all: try (destruct (hasTag ts "AUTO_INCREMENT");
    cbn [TagSettings setIsPrimaryKey IsPrimaryKey setHasDefaultValue negb andb] in H).
  all: rewrite Hsc in H.
  all: rewrite bool_decide_eq_false_2 in H by done.
  all: rewrite Hem in H.
  all: apply bind_Done in H as ([] & s2 & Hu & H).
  all: edestruct (embeddedTurn_clones _ _ m _ _ _ _ _ _ _ _ _ _ _ _ _ Ha Hu H)
    as (-> & subType & ms & sub & clones & e & Ht & Hc & Hs & He & Hsh & Hm & Hall);
    [split; done|done|done|].
  all: exists subType, ms, sub, clones, e.
  all: repeat (split; [done|]).
  all: split; [by rewrite (shell_Struct _ _ Hsh)|].
  all: split; [by rewrite (shell_Names _ _ Hsh)|].
  all: done.
Qed.

(** The resolution of a shape with a field the loop expands in place. *)
Lemma GetModelStruct_body_embedded (v : RValue) (refType : string)
    (s : State) (p : nat) (s' : State) (front : list FieldDecl)
    (fStruct : FieldDecl) (back : list FieldDecl) :
  wellFormed s →
  unwrapType (typeOf v) = TStruct refType →
  StructMap s !! refType = None →
  sFields (decl refType) = front ++ fStruct :: back →
  embedsAt fStruct →
  GetModelStruct_body getModelStruct (Some v) s = Done (Val p) s' →
  ∃ m subType ms sub before clones after a e,
    structHeap s' !! p = Some m
    ∧ unwrapType (TPtr (stripPtr (fdType fStruct))) = TStruct subType
    ∧ (subType ≠ refType → StructMap s' !! subType = Some ms)
    ∧ structHeap s' !! ms = Some sub
    ∧ StructFields m = before ++ clones ++ after
    ∧ clonesOf (fdName fStruct) (ParseTagSetting (fdTag fStruct))
        (fieldHeap s') (StructFields sub) clones
    ∧ fieldHeap s' !! a = Some e
    ∧ Struct e = fStruct ∧ Names e = [fdName fStruct]
    ∧ (a ∉ StructFields m)
    ∧ Forall (λ b, b < a) before
    ∧ Forall (λ b, a < b) (clones ++ after).
Proof.
  intros W Ht Hmiss Hdecl Hemb H.
  destruct (GetModelStruct_body_miss _ _ _ _ _ _ Ht Hmiss H)
    as (tableName & m1 & d & e1 & s1 & _ & Hloop & Hrest).
  destruct e1 as [err|]; [by destruct Hrest as [[=] _]|].
  destruct Hrest as (m2 & s2 & Hp & [= ->] & Hd).
  rewrite Hdecl in Hloop.
  apply fieldLoop_app in Hloop as (mA & dA & sA & HA & Hloop).
  simpl in Hloop.
  apply bind_Done in Hloop as ([[mB dB] eB] & sB & Hstep & Hloop).
  destruct eB as [err|]; [by apply ret_Done in Hloop as [[=] _]|].
  apply (fieldLoop_spec _ getModelStruct_sound) in HA
    as (EA & (before & Ebefore & Bbefore) & BA).
  simpl in Ebefore.
  pose proof (BA (building_start _ _ _ W)) as HbA.
  apply (fieldStep_embedded _ _ _ _ _ _ _ Hemb HbA) in Hstep
    as (subType & ms & sub & clones & e & Hsub & Hc & Hs & He & Hst & Hn
        & Eclones & Hall).
  apply (fieldLoop_spec _ getModelStruct_sound) in Hloop
    as (EB & (after & Eafter & Bafter) & _).
  destruct (promoteID_carried refType _ _ _ _ Hp) as [C12 Hsf].
  apply (sound_runDeferred _ getModelStruct_sound) in Hd as [E4 _].
  assert (carried refType sB s') as (Cc & Cs & Cf).
  { eapply carried_trans; [by apply extends_carried|].
    eapply carried_trans; [exact C12|].
    eapply carried_trans; [|by apply extends_carried].
    split; [|split]; simpl.
    - intros k q Hk Hq. by rewrite lookup_insert_ne.
    - intros q mq Hq. by apply lookup_app_l_Some.
    - intros b g Hg. by exists g. }
  destruct (Cf _ _ He) as (e' & He' & Hsh).
  pose proof (lookup_lt_Some _ _ _ He) as Hlt.
  assert (Forall (λ b, b < length (fieldHeap sA)) before) as Hbefore.
  { apply Forall_forall. intros b Hb. apply Bbefore in Hb. lia. }
  assert (Forall (λ b, length (fieldHeap sA) < b) (clones ++ after))
    as Hafter.
  { apply Forall_app. split.
    - apply Forall_lookup_2. intros i c Hi.
      destruct (Forall2_lookup_r _ _ _ _ _ Hall Hi) as (b & _ & _ & Hac & _).
      done.
    - apply Forall_forall. intros b Hb. apply Bafter in Hb. lia. }
  exists m2, subType, ms, sub, before, clones, after,
    (length (fieldHeap sA)), e'.
  split.
  { apply (ext_structs _ _ E4). simpl.
    rewrite lookup_app_r by done. by rewrite Nat.sub_diag. }
  split; [done|]. split; [intros Hne; by apply Cc|]. split; [by apply Cs|].
  assert (StructFields m2 = before ++ clones ++ after) as Hm2.
  { rewrite Hsf, Eafter, Eclones, Ebefore. by rewrite <- app_assoc. }
  split; [done|].
  split.
  { eapply Forall2_impl; [exact Hall|]. simpl.
    intros b c (Hbc & _ & g & Hg & Hcl).
    split; [lia|].
    destruct (Cf _ _ Hg) as (g' & Hg' & Hgs).
    destruct (Cf _ _ Hcl) as (cl & Hcl' & Hcs).
    exists g', cl. split; [done|]. split; [done|].
    rewrite <- Hcs. by apply shell_embeddedClone. }
  split; [done|].
  split; [by rewrite <- (shell_Struct _ _ Hsh)|].
  split; [by rewrite <- (shell_Names _ _ Hsh)|].
  split; [|done].
  rewrite Hm2. intros [Hin|Hin]%elem_of_app.
  - apply (proj1 (Forall_forall _ _) Hbefore) in Hin. lia.
  - apply (proj1 (Forall_forall _ _) Hafter) in Hin. lia.
Qed.

End EmbeddedResolution.

(** C6, as the code has it.  A shape not yet published has the field
    [fStruct], which the loop expands in place: exported, not ignored,
    neither a scanner nor a time, and annotated [EMBEDDED] or anonymous.
    When [GetModelStruct] returns the description [m] of the shape, then
    [sub], the description resolved for the record type of the field, is
    in the heap (and published under that type's name), and the field list
    of [m] is [before ++ clones ++ after], where
    - [clones] has one descriptor for each descriptor of [sub], in the
      order of [sub]: another descriptor, equal to it but for the flags,
      with the name of [fStruct] put before its name path, and its column
      prefixed with [EMBEDDED_PREFIX] when [fStruct] has that annotation;
    - the descriptor [e] of [fStruct] itself is not in the field list: it
      was allocated after each descriptor of [before] and before each of
      [clones] and [after]. *)
Theorem embedded_fields_in_place {P : Program} (fuel : nat) (v : RValue)
    (refType : string) (s : State) (p : nat) (s' : State)
    (front : list FieldDecl) (fStruct : FieldDecl) (back : list FieldDecl) :
  wellFormed s →
  unwrapType (typeOf v) = TStruct refType →
  StructMap s !! refType = None →
  sFields (decl refType) = front ++ fStruct :: back →
  embedsAt fStruct →
  GetModelStruct fuel (Some v) s = Done (Val p) s' →
  ∃ m subType ms sub before clones after a e,
    structHeap s' !! p = Some m
    ∧ unwrapType (TPtr (stripPtr (fdType fStruct))) = TStruct subType
    ∧ (subType ≠ refType → StructMap s' !! subType = Some ms)
    ∧ structHeap s' !! ms = Some sub
    ∧ StructFields m = before ++ clones ++ after
    ∧ clonesOf (fdName fStruct) (ParseTagSetting (fdTag fStruct))
        (fieldHeap s') (StructFields sub) clones
    ∧ fieldHeap s' !! a = Some e
    ∧ Struct e = fStruct ∧ Names e = [fdName fStruct]
    ∧ (a ∉ StructFields m)
    ∧ Forall (λ b, b < a) before
    ∧ Forall (λ b, a < b) (clones ++ after).
Proof.
  intros W Ht Hmiss Hdecl Hemb H.
  destruct fuel as [|n]; [done|]. simpl in H.
  exact (GetModelStruct_body_embedded (GetModelStruct n)
           (sound_GetModelStruct n) (GetModelStruct_publishes n)
           v refType s p s' front fStruct back W Ht Hmiss Hdecl Hemb H).
Qed.

(** The theorem at [Doc], which embeds [Base] with the column prefix
    [base_], resolved on a new engine. *)
Lemma embedded_fields_in_place_witness :
  ∃ m subType ms sub before clones after a e,
    structHeap (Fixture.resolvedState "Doc") !! 1 = Some m
    ∧ unwrapType (TPtr (stripPtr (TStruct "Base"))) = TStruct subType
    ∧ (subType ≠ "Doc" →
       StructMap (Fixture.resolvedState "Doc") !! subType = Some ms)
    ∧ structHeap (Fixture.resolvedState "Doc") !! ms = Some sub
    ∧ StructFields m = before ++ clones ++ after
    ∧ clonesOf "Base" (ParseTagSetting "embedded_prefix:base_")
        (fieldHeap (Fixture.resolvedState "Doc")) (StructFields sub) clones
    ∧ fieldHeap (Fixture.resolvedState "Doc") !! a = Some e
    ∧ Struct e = Fixture.anon "Base" (TStruct "Base") "embedded_prefix:base_"
    ∧ Names e = ["Base"]
    ∧ (a ∉ StructFields m)
    ∧ Forall (λ b, b < a) before
    ∧ Forall (λ b, a < b) (clones ++ after).
Proof.
  apply (embedded_fields_in_place (P:=Fixture.program) 3
           (RPtr (RZero (TStruct "Doc"))) "Doc" Fixture.engine 1
           (Fixture.resolvedState "Doc") []
           (Fixture.anon "Base" (TStruct "Base") "embedded_prefix:base_")
           [Fixture.fld "Title" Fixture.str ""]).
  - apply wellFormed_newEngine.
  - reflexivity.
  - vm_compute. reflexivity.
  - reflexivity.
  - split; [vm_compute; reflexivity|]. split; [vm_compute; reflexivity|].
    split; [vm_compute; reflexivity|]. split; [done|]. vm_compute. reflexivity.
  - vm_compute. reflexivity.
Defined.

(** The field list of [Doc]: the two fields of [Base] under the name
    [Base] and the prefix [base_], then [Title]. *)
Example Doc_fields :
  ∃ m, structHeap (Fixture.resolvedState "Doc") !! 1 = Some m
       ∧ namePaths (Fixture.resolvedState "Doc") m
         = [Some (["Base"; "ID"], "base_id");
            Some (["Base"; "CreatedAt"], "base_created_at");
            Some (["Title"], "title")].
Proof. eexists. split; vm_compute; reflexivity. Qed.

(** C6 as stated fails: [Hidden] has the anonymous nested record [Base],
    annotated [-].  Its resolved field list has the embedding field itself,
    and none of the fields of [Base]. *)
Lemma embedded_ignored_counterexample :
  sFields (decl "Hidden")
  = [ {| fdName := "Base"; fdType := TStruct "Base"; fdTag := "-";
         fdAnonymous := true |};
      {| fdName := "Title"; fdType := TOther "string"; fdTag := "";
         fdAnonymous := false |} ]
  ∧ GetModelStruct 3 (Fixture.ptrTo "Hidden") Fixture.engine
    = Done (Val 0) (Fixture.resolvedState "Hidden")
  ∧ ∃ m, structHeap (Fixture.resolvedState "Hidden") !! 0 = Some m
         ∧ namePaths (Fixture.resolvedState "Hidden") m
           = [Some (["Base"], "base"); Some (["Title"], "title")].
Proof.
  split; [reflexivity|]. split; [vm_compute; reflexivity|].
  eexists. split; vm_compute; reflexivity.
Qed.

(** * Further properties *)

(** ** Quote, over dotted names *)

Section QuoteMore.
Context {D : Dialect}.
Import GoStrings.

Lemma Split_app (a b : string) (sep : ascii) :
  Split (a +:+ String sep b) sep = Split a sep ++ Split b sep.
Proof.
  induction a as [|c a IH].
  - rewrite AddToVarsFacts.append_nil. simpl. by rewrite Ascii.eqb_refl.
  - rewrite AddToVarsFacts.append_cons. simpl.
    destruct (Ascii.eqb c sep); [by rewrite IH|].
    rewrite IH. pose proof (GoStringsFacts.Split_nonempty a sep).
    by destruct (Split a sep).
Qed.

Lemma Join_app (l k : list string) (sep : string) :
  l ≠ [] → k ≠ [] →
  Join (l ++ k) sep = Join l sep +:+ sep +:+ Join k sep.
Proof.
  intros Hl Hk. induction l as [|e l IH]; [done|].
  destruct l as [|e' l].
  - simpl. by destruct k.
  - change (Join ((e :: e' :: l) ++ k) sep)
      with (e +:+ sep +:+ Join ((e' :: l) ++ k) sep).
    rewrite IH by done.
    change (Join (e :: e' :: l) sep) with (e +:+ sep +:+ Join (e' :: l) sep).
    by rewrite !AddToVarsFacts.append_assoc.
Qed.

(** With or without a dot, [Quote] is the join of the quoted segments. *)
Lemma Quote_Join (str : string) :
  Quote str = Join (map DialectQuote (Split str ".")) ".".
Proof.
  unfold Quote. rewrite GoStringsFacts.Index_byte.
  destruct (has_byte "." str) eqn:E; [done|].
  by rewrite (GoStringsFacts.Split_no_sep _ _ E).
Qed.

(** X1. Quoting a name qualified with a dot is quoting the qualifier and
    the name and putting the dot between them, whether or not they have
    dots themselves. *)
Theorem Quote_qualified (qualifier name : string) :
  Quote (qualifier +:+ "." +:+ name) = Quote qualifier +:+ "." +:+ Quote name.
Proof.
  rewrite !Quote_Join. change ("." +:+ name) with (String "." name).
  rewrite Split_app, map_app. apply Join_app.
  - pose proof (GoStringsFacts.Split_nonempty qualifier ".").
    by destruct (Split qualifier ".").
  - pose proof (GoStringsFacts.Split_nonempty name ".").
    by destruct (Split name ".").
Qed.

(** X2. With a dialect that leaves identifiers as they are, as the [ql]
    dialect of [TestQuote] does, [Quote] gives every string back, dots and
    all. *)
Theorem Quote_plain (str : string) :
  (∀ seg, DialectQuote seg = seg) → Quote str = str.
Proof.
  intros H. rewrite Quote_Join.
  replace (map DialectQuote (Split str ".")) with (Split str ".").
  - apply GoStringsFacts.Join_Split.
  - induction (Split str ".") as [|seg segs IH]; [done|].
    simpl. by rewrite H, <- IH.
Qed.

End QuoteMore.

(** ** AddToVars, when the text has no question mark *)

Section AddToVarsMore.
Context {D : Dialect}.
Import GoStrings.

Lemma Replace1_absent (s new : string) (old : ascii) :
  has_byte old s = false → Replace1 s old new = s.
Proof.
  induction s as [|c s IH]; [done|]. simpl.
  intros [H1 H2]%orb_false_iff. rewrite H1. by rewrite IH.
Qed.

Lemma rangeArgs_absent (Q : string) (Args : list SQLArg) :
  has_byte "?" Q = false →
  ∀ s, rangeArgs Args Q s
       = Done Q (withSQLVars (SQLVars s ++ concat (map boundValues Args)) s).
Proof.
  intros HQ. induction Args as [|a rest IH]; intros s.
  - simpl. unfold ret. by rewrite AddToVarsFacts.withSQLVars_nil.
  - destruct (AddToVarsFacts.AddToVars_appends a s) as [tok Htok].
    simpl. unfold bind. rewrite Htok. fold (rangeArgs (D:=D)).
    rewrite Replace1_absent by done. rewrite IH.
    by rewrite AddToVarsFacts.withSQLVars_app.
Qed.

(** X3. An expression whose text has no question mark comes back as it
    is, whatever its arguments; the values of the arguments are bound all
    the same, in order, though no placeholder in the text refers to
    them. *)
Theorem AddToVars_no_marks (Q : string) (Args : list SQLArg) (s : State) :
  has_byte "?" Q = false →
  AddToVars (ArgExpr Q Args) s
  = Done Q (withSQLVars (SQLVars s ++ boundValues (ArgExpr Q Args)) s).
Proof.
  intros HQ. rewrite AddToVarsFacts.AddToVars_expr.
  by apply rangeArgs_absent.
Qed.

End AddToVarsMore.

(** The theorem at [now()] with a value it has no place for. *)
Lemma AddToVars_no_marks_witness :
  AddToVars (ArgExpr "now()" [ArgVal (VInt 7)]) Fixture.engine
  = Done "now()" (withSQLVars [VInt 7] Fixture.engine).
Proof.
  apply (AddToVars_no_marks (D:=Fixture.dialect) "now()" [ArgVal (VInt 7)]
           Fixture.engine).
  reflexivity.
Defined.

(** ** Table names *)

Section TableNames.
Context {P : Program}.

Lemma embedSubFields_sameTable (name : string) (ts : gmap string string)
    (subs : list nat) :
  ∀ m s m' s',
    embedSubFields name ts subs m s = Done m' s' → sameTable m m'.
Proof.
  induction subs as [|sub rest IH]; intros m s m' s' H; simpl in H.
  - by apply ret_Done in H as [<- <-].
  - apply bind_Done in H as (sf & s0 & Hsf & H).
    apply bind_Done in H as (a & s1 & Ha & H).
    apply IH in H as [H1 H2]. split.
    + rewrite H1. by destruct (IsPrimaryKey _).
    + rewrite H2. by destruct (IsPrimaryKey _).
Qed.

Lemma appendField_sameTable (fStruct : FieldDecl) (a : nat)
    (field : StructField) (m : ModelStruct) (d : list Deferred) (s : State)
    (m' : ModelStruct) (d' : list Deferred) (e : option error) (s' : State) :
  appendField fStruct a field m d s = Done (m', d', e) s' → sameTable m m'.
Proof.
  unfold appendField. intros H.
  apply bind_Done in H as ([] & s1 & _ & H).
  by apply ret_Done in H as [[= <- <- <-] <-].
Qed.

Section Loop.
Variable getModelStruct : option RValue → M (result nat).

Lemma fieldStep_sameTable (fStruct : FieldDecl) (m : ModelStruct)
    (d : list Deferred) (s : State) (m' : ModelStruct)
    (d' : list Deferred) (e : option error) (s' : State) :
  fieldStep getModelStruct fStruct m d s = Done (m', d', e) s' →
  sameTable m m'.
Proof.
  unfold fieldStep. intros H.
  destruct (negb (IsExported (fdName fStruct))).
  { by apply ret_Done in H as [[= <- <- <-] <-]. }
  apply bind_Done in H as (a & s1 & Ha & H).
  set (ts := ParseTagSetting (fdTag fStruct)) in *.
  cbn [TagSettings] in H.
  destruct (hasTag ts "-"); [by eapply appendField_sameTable|].
  assert (∀ mp, sameTable mp m' →
                mp = (if hasTag ts "PRIMARY_KEY" then addPrimaryField a m else m) →
                sameTable m m') as Hvia.
  { intros mp [H1 H2] ->. split; [rewrite H1|rewrite H2];
      by destruct (hasTag ts "PRIMARY_KEY"). }
  destruct (isScanner (stripPtr (fdType fStruct)));
    [eapply Hvia; [by eapply appendField_sameTable|done]|].
  destruct (bool_decide (stripPtr (fdType fStruct) = timeType));
    [eapply Hvia; [by eapply appendField_sameTable|done]|].
  match type of H with
  | (if ?c then _ else _) _ = _ => destruct c
  end.
  - apply bind_Done in H as ([] & s2 & Hu & H).
    apply bind_Done in H as (r & s3 & Hg & H).
    destruct r as [ms|err].
    + apply bind_Done in H as (sub & s4 & Hsub & H).
      apply bind_Done in H as (m2 & s5 & Hemb & H).
      apply ret_Done in H as [[= <- <- <-] <-].
      eapply Hvia; [by eapply embedSubFields_sameTable|done].
    + apply ret_Done in H as [[= <- <- <-] <-].
      eapply Hvia; [|done]. done.
  - destruct (kindOf (stripPtr (fdType fStruct)));
      (eapply Hvia; [by eapply appendField_sameTable|done]).
Qed.

Lemma fieldLoop_sameTable (fields : list FieldDecl) :
  ∀ m d s m' d' e s',
    fieldLoop getModelStruct fields m d s = Done (m', d', e) s' →
    sameTable m m'.
Proof.
  induction fields as [|fStruct rest IH]; intros m d s m' d' e s' H;
    simpl in H.
  - by apply ret_Done in H as [[= <- <- <-] <-].
  - apply bind_Done in H as ([[m1 d1] e1] & s1 & Hstep & H).
    apply fieldStep_sameTable in Hstep as [H1 H2].
    destruct e1 as [err|].
    + by apply ret_Done in H as [[= <- <- <-] <-].
    + apply IH in H as [H3 H4]. split; congruence.
Qed.

End Loop.
End TableNames.

Section TableNameTheorems.
Context {P : Program}.

(** X4. The description [GetModelStruct] builds for a shape carries the
    shape and its default table name: the name the type's [TableName]
    method gives when it is an [engine.Tabler], and otherwise the type's
    name in column case, in the plural unless the engine has
    [SingularTable].  Nothing the loop over the fields, the promotion of
    [id] or the relationship builders do changes either. *)
Theorem GetModelStruct_default_table (fuel : nat) (v : RValue)
    (refType : string) (s : State) (p : nat) (s' : State) :
  unwrapType (typeOf v) = TStruct refType →
  StructMap s !! refType = None →
  GetModelStruct fuel (Some v) s = Done (Val p) s' →
  ∃ m, structHeap s' !! p = Some m
       ∧ ModelType m = refType
       ∧ (∀ t, sTabler (decl refType) = Some t → tablerKind t = IsTabler →
               DefaultTableName m = tablerName t)
       ∧ ((∀ t, sTabler (decl refType) = Some t → tablerKind t ≠ IsTabler) →
          DefaultTableName m
          = if SingularTable s then ToDBName (sName (decl refType))
            else Plural (ToDBName (sName (decl refType)))).
Proof.
  intros Ht Hmiss H. destruct fuel as [|n]; [done|]. simpl in H.
  destruct (GetModelStruct_body_miss _ _ _ _ _ _ Ht Hmiss H)
    as (tableName & m1 & d & e1 & s1 & Htn & Hloop & Hrest).
  destruct e1 as [err|]; [by destruct Hrest as [[=] _]|].
  destruct Hrest as (m2 & s2 & Hp & [= ->] & Hd).
  apply fieldLoop_sameTable in Hloop as [Hty Hname]. simpl in Hty, Hname.
  apply (sound_runDeferred _ (sound_GetModelStruct n)) in Hd as [E _].
  assert (ModelType m2 = ModelType m1
          ∧ DefaultTableName m2 = DefaultTableName m1) as [Hty2 Hname2].
  { by apply promoteID_Done in Hp as [[-> _]|(a & f & _ & _ & _ & -> & _)]. }
  exists m2. split.
  { apply (ext_structs _ _ E). simpl.
    rewrite lookup_app_r by done. by rewrite Nat.sub_diag. }
  split; [congruence|]. rewrite Hname2, Hname. clear -Htn.
  unfold defaultTableName in Htn. split.
  - intros t Hs Hk. rewrite Hs in Htn. destruct t as [k r name].
    simpl in *. subst k. by apply ret_Done in Htn as [<- _].
  - intros Hno. destruct (sTabler (decl refType)) as [[[] r name]|] eqn:Hs.
    + by destruct (Hno _ eq_refl).
    + apply bind_Done in Htn as (b & s0 & [<- <-]%gets_Done & Htn).
      apply ret_Done in Htn as [<- _]. by destruct (SingularTable s).
    + apply bind_Done in Htn as (b & s0 & [<- <-]%gets_Done & Htn).
      apply ret_Done in Htn as [<- _]. by destruct (SingularTable s).
Qed.

(** X5. Without a table name in the search, and for a value whose type
    has no [TableName] method, [TableName] is the default table name of
    the published description, and reads it without changing anything;
    for a value [GetModelStruct] rejects it is the empty name. *)
Theorem TableName_default (fuel : nat) (value : option RValue) (s : State) :
  (Search s = None ∨ Search s = Some "") →
  tablerOf IsTabler value = None → tablerOf IsDBTabler value = None →
  (∀ p m, resolved value p m s →
          TableName (GetModelStruct (S fuel)) value s
          = Done (DefaultTableName m) s)
  ∧ (value = None ∨ (∃ v, value = Some v ∧ ∀ id, unwrapType (typeOf v) ≠ TStruct id) →
     TableName (GetModelStruct (S fuel)) value s = Done "" s).
Proof.
  intros Hsearch H1 H2.
  assert (TableName (GetModelStruct (S fuel)) value s
          = (r <- GetModelStruct (S fuel) value ;;
             match r with
             | Err _ => ret ""
             | Val ms => m <- loadStruct ms ;; ret (DefaultTableName m)
             end) s) as ->.
  { unfold TableName, tableNameOfValue. rewrite H1, H2.
    unfold bind at 1. unfold gets.
    by destruct Hsearch as [->| ->]. }
  split.
  - intros p m (v & refType & -> & Ht & Hc & Hm).
    unfold bind at 1. rewrite (GetModelStruct_hit fuel v refType p s Ht Hc).
    unfold bind, loadStruct. by rewrite Hm.
  - intros [->|(v & -> & Hv)]; [done|].
    simpl. unfold GetModelStruct_body, bind.
    destruct (unwrapType (typeOf v)) eqn:E; try done. by destruct (Hv id).
Qed.

Section Quoted.
Context {D : Dialect}.

(** X6. [QuotedTableName] is [Quote] of what [TableName] returns, unless
    the table name of the search has a space (a name with an alias): then
    it is that name as it stands, unquoted. *)
Theorem QuotedTableName_quotes
    (getModelStruct : option RValue → M (result nat))
    (value : option RValue) (s : State) :
  (∀ name, Search s = Some name → GoStrings.has_byte " " name = true →
           QuotedTableName getModelStruct value s = Done name s)
  ∧ ((∀ name, Search s = Some name → GoStrings.has_byte " " name = false) →
     QuotedTableName getModelStruct value s
     = (name <- TableName getModelStruct value ;; ret (Quote name)) s).
Proof.
  split.
  - intros name E Hsp. unfold QuotedTableName, bind, gets. rewrite E.
    rewrite GoStringsFacts.Index_byte, Hsp.
    destruct name as [|c t]; [simpl in Hsp; discriminate|reflexivity].
  - intros Hno. unfold QuotedTableName. unfold bind at 1. unfold gets at 1.
    destruct (Search s) as [name|] eqn:E; [|reflexivity].
    rewrite GoStringsFacts.Index_byte, (Hno name eq_refl).
    destruct (0 <? String.length name) eqn:L; [|reflexivity].
    assert (TableName getModelStruct value s = Done name s) as HT.
    { unfold TableName, bind, gets. by rewrite E, L. }
    unfold bind. by rewrite HT.
Qed.

End Quoted.
End TableNameTheorems.

(** ** The accessors on a published shape *)

Section Accessors.
Context {P : Program}.

Lemma snapshot_entries (isStruct : bool) (i : option RValue) (s : State)
    (structFields : list nat) (fds : list Field) (s' : State) :
  isStruct = bool_decide (valueKind i = Some KStruct) →
  snapshot isStruct i structFields s = Done fds s' →
  s' = s ∧ map fStructField fds = structFields
  ∧ Forall (snapshotOf (fieldHeap s) i) fds.
Proof.
  intros His. revert fds.
  induction structFields as [|a rest IH]; intros fds H; simpl in H.
  - apply ret_Done in H as [<- <-]. done.
  - apply bind_Done in H as (fd & s1 & Hfd & H).
    apply bind_Done in H as (rest' & s2 & Hrest & H).
    apply ret_Done in H as [<- <-].
    assert (s1 = s ∧ fStructField fd = a ∧ snapshotOf (fieldHeap s) i fd)
      as (-> & Ha & Hsnap).
    { unfold snapshotOf. destruct isStruct.
      - symmetry in His. apply bool_decide_eq_true in His. rewrite His.
        apply bind_Done in Hfd as (sf & s0 & [Hsf <-]%loadField_Done & Hfd).
        destruct (walkNames i (Names sf)) as [fv|] eqn:Hw; [|done].
        apply ret_Done in Hfd as [<- <-]. split; [done|]. split; [done|].
        by exists sf.
      - symmetry in His. apply bool_decide_eq_false in His.
        apply ret_Done in Hfd as [<- <-]. split; [done|]. split; [done|].
        destruct (valueKind i) as [[]|]; done. }
    apply IH in Hrest as (-> & Hmap & Hall).
    split; [done|]. split; [simpl; by rewrite Ha, Hmap|]. by constructor.
Qed.

(** X7. On a well-formed engine, [Fields] on a published shape whose
    name paths the value can all be walked along changes nothing and
    returns one entry for each descriptor of the field list, in the
    order of the list.  When the
    value, without one pointer, is a struct, the entry has the value
    found along the descriptor's name path and says whether it is blank;
    otherwise (a slice, a nil pointer) every entry is blank and has no
    value. *)
Theorem Fields_snapshot (fuel : nat) (value : option RValue) (p : nat)
    (m : ModelStruct) (s : State) :
  wellFormed s → resolved value p m s → walkable value m s →
  ∃ fds, Fields (GetModelStruct (S fuel)) value s = Done (Val fds) s
         ∧ map fStructField fds = StructFields m
         ∧ Forall (snapshotOf (fieldHeap s) (walked value)) fds.
Proof.
  intros W Hr Hw.
  destruct (Fields_resolved fuel _ _ _ _ W Hr Hw) as (fds & Hfds & Hmap).
  exists fds. split; [done|]. split; [done|].
  destruct Hr as (v & refType & -> & Ht & Hc & Hm).
  unfold Fields in Hfds.
  apply bind_Done in Hfds as (r & s1 & Hg & Hfds).
  rewrite (GetModelStruct_hit fuel v refType p s Ht Hc) in Hg.
  injection Hg as <- <-.
  apply bind_Done in Hfds as (ms & s2 & [Hms <-]%loadStruct_Done & Hfds).
  apply bind_Done in Hfds as (fds' & s3 & Hsnap & Hfds).
  apply ret_Done in Hfds as [[= <-] <-].
  by apply snapshot_entries in Hsnap as (_ & _ & Hall).
Qed.

(** X8. [FieldByName] and [GetForeignField] agree: on a well-formed
    engine, for a published shape, a value that can be walked along every
    name path of the shape, and every name, [FieldByName] changes nothing
    and returns the entry of the descriptor that [GetForeignField] finds
    for the name in the field list, the first whose name or column is the
    name or whose column is the name in column case, and the
    field-not-found error when there is none. *)
Theorem FieldByName_finds (fuel : nat) (value : option RValue) (p : nat)
    (m : ModelStruct) (s : State) (name : string) :
  wellFormed s → resolved value p m s → walkable value m s →
  ∃ r, FieldByName (GetModelStruct (S fuel)) value name s = Done r s
       ∧ match GetForeignField name (StructFields m) (fieldHeap s) with
         | Some a =>
             ∃ fd f, r = Val fd ∧ fStructField fd = a
                     ∧ fieldHeap s !! a = Some f
                     ∧ matchesColumn name f = true
         | None => r = Err ErrFieldNotFound
         end.
Proof.
  intros W Hr Hw.
  destruct (FieldByName_resolved fuel _ _ _ _ name W Hr Hw) as (r & H & Hspec).
  exists r. split; [done|].
  destruct (GetForeignField name (StructFields m) (fieldHeap s)) as [a|] eqn:E;
    [|done].
  destruct Hspec as (fd & -> & Ha).
  apply GetForeignField_Some in E as (_ & f & Hf & Hmatch).
  by exists fd, f.
Qed.

(** X9. On a well-formed engine, for a published shape and a value that
    can be walked along every name path of the shape, [PrimaryFields]
    changes nothing and returns the entries of the descriptors of the
    field list that are flagged as primary keys, in the order of the
    list, and each of them is one of the primary fields of the
    description. *)
Theorem PrimaryFields_flagged (fuel : nat) (value : option RValue) (p : nat)
    (m : ModelStruct) (s : State) :
  wellFormed s → resolved value p m s → walkable value m s →
  ∃ pf, PrimaryFields (GetModelStruct (S fuel)) value s = Done (Val pf) s
        ∧ map fStructField pf = flagged (fieldHeap s) (StructFields m)
        ∧ Forall (λ fd, fStructField fd ∈ PrimaryFields_ m) pf.
Proof.
  intros W Hr Hw.
  destruct (PrimaryFields_resolved fuel _ _ _ _ W Hr Hw) as (pf & H & Hmap).
  exists pf. split; [done|]. split; [done|].
  destruct Hr as (v & refType & _ & _ & _ & Hm).
  pose proof (Forall_lookup_1 _ _ _ _ (wf_structs _ W) Hm) as (_ & _ & Hj).
  apply Forall_forall. intros fd Hfd.
  assert (fStructField fd ∈ flagged (fieldHeap s) (StructFields m)) as Hin.
  { rewrite <- Hmap. apply list_elem_of_fmap. by exists fd. }
  apply list_elem_of_In, filter_In in Hin as [Hin Hfl].
  destruct (fieldHeap s !! fStructField fd) as [f|] eqn:Hf; [|done].
  eapply Hj; [by apply list_elem_of_In|done|done].
Qed.

Lemma anyNormalColumn_Done (column : string) (s : State) (fields : list nat) :
  (∀ a, a ∈ fields → is_Some (fieldHeap s !! a)) →
  ∃ b, anyNormalColumn column fields s = Done b s
       ∧ (b = true ↔
          ∃ a f, a ∈ fields ∧ fieldHeap s !! a = Some f
                 ∧ IsNormal f = true
                 ∧ (Name f = column ∨ DBName f = column)).
Proof.
  induction fields as [|a rest IH]; intros H; simpl.
  - exists false. split; [done|]. split; [done|].
    intros (a & f & Ha & _). by apply elem_of_nil in Ha.
  - destruct (H a) as [f Hf]; [by left|].
    destruct IH as (b & Hb & Hspec). { intros c Hc. apply H. by right. }
    unfold bind at 1. unfold loadField. rewrite Hf.
    destruct (IsNormal f
              && (String.eqb (Name f) column || String.eqb (DBName f) column))
      eqn:E.
    + exists true. split; [done|]. split; [|done]. intros _.
      apply andb_true_iff in E as [En Em].
      exists a, f. split; [by left|]. split; [done|]. split; [done|].
      apply orb_true_iff in Em as [Em|Em]; apply String.eqb_eq in Em; auto.
    + exists b. split; [done|]. rewrite Hspec. split.
      * intros (c & g & Hc & Hg & Hn & Hm). exists c, g.
        split; [by right|done].
      * intros (c & g & Hc & Hg & Hn & Hm).
        apply elem_of_cons in Hc as [->|Hc]; [|by exists c, g].
        rewrite Hf in Hg. injection Hg as <-.
        rewrite Hn in E. simpl in E. apply orb_false_iff in E as [E1 E2].
        destruct Hm as [Hm|Hm]; apply String.eqb_eq in Hm; congruence.
Qed.

(** X10. [HasColumn] on a published shape changes nothing, and is true
    exactly when a descriptor of the field list is marked normal and has
    the column as its name or as its column (the column case of the name
    is not tried).  Such a descriptor is never the field of a record or
    of a collection of records, unless a scanner or a time: a
    relationship is no column. *)
Theorem HasColumn_normal (fuel : nat) (value : option RValue) (p : nat)
    (m : ModelStruct) (s : State) (column : string) :
  wellFormed s → resolved value p m s →
  ∃ b, HasColumn (GetModelStruct (S fuel)) value column s = Done b s
       ∧ (b = true ↔
          ∃ a f, a ∈ StructFields m ∧ fieldHeap s !! a = Some f
                 ∧ IsNormal f = true
                 ∧ (Name f = column ∨ DBName f = column))
       ∧ (b = true →
          ∃ a f, a ∈ StructFields m ∧ fieldHeap s !! a = Some f
                 ∧ (Name f = column ∨ DBName f = column)
                 ∧ normalShape (Struct f)).
Proof.
  intros W (v & refType & -> & Ht & Hc & Hm).
  pose proof (Forall_lookup_1 _ _ _ _ (wf_structs _ W) Hm) as (Hb & _).
  destruct (anyNormalColumn_Done column s (StructFields m)) as (b & H & Hspec).
  { intros a Ha. by apply lookup_lt_is_Some_2, Hb. }
  exists b. split; [|split; [done|]].
  - unfold HasColumn. unfold bind at 1.
    rewrite (GetModelStruct_hit fuel v refType p s Ht Hc).
    unfold bind, loadStruct. by rewrite Hm.
  - intros (a & f & Ha & Hf & Hn & Hcol)%Hspec.
    exists a, f. split; [done|]. split; [done|]. split; [done|].
    by apply (Forall_lookup_1 _ _ _ _ (wf_fields _ W) Hf).
Qed.

(** X11. A value [GetModelStruct] rejects is rejected by everything built
    on it: [Fields], [FieldByName], [PrimaryFields], [PrimaryField] and
    [PrimaryKey] return the error of [GetModelStruct], and [HasColumn]
    answers false; nothing is resolved or changed. *)
Theorem rejected_everywhere (fuel : nat) (value : option RValue) (e : error)
    (s : State) (name : string) :
  rejected value e →
  GetModelStruct (S fuel) value s = Done (Err e) s
  ∧ Fields (GetModelStruct (S fuel)) value s = Done (Err e) s
  ∧ FieldByName (GetModelStruct (S fuel)) value name s = Done (Err e) s
  ∧ PrimaryFields (GetModelStruct (S fuel)) value s = Done (Err e) s
  ∧ PrimaryField (GetModelStruct (S fuel)) value s = Done (Err e) s
  ∧ PrimaryKey (GetModelStruct (S fuel)) value s = Done (Err e) s
  ∧ HasColumn (GetModelStruct (S fuel)) value name s = Done false s.
Proof.
  intros Hrej.
  assert (GetModelStruct (S fuel) value s = Done (Err e) s) as Hg.
  { destruct Hrej as [[-> ->]|(v & -> & Hv & ->)]; [done|].
    simpl. unfold GetModelStruct_body.
    destruct (unwrapType (typeOf v)) eqn:E; try done. by destruct (Hv id). }
  assert (Fields (GetModelStruct (S fuel)) value s = Done (Err e) s) as Hf.
  { unfold Fields, bind. by rewrite Hg. }
  assert (PrimaryField (GetModelStruct (S fuel)) value s = Done (Err e) s)
    as Hp.
  { unfold PrimaryField, bind. by rewrite Hg. }
  split; [done|]. split; [done|].
  split; [unfold FieldByName, bind; by rewrite Hf|].
  split; [unfold PrimaryFields, bind; by rewrite Hf|].
  split; [done|].
  split; [unfold PrimaryKey, bind; by rewrite Hp|].
  unfold HasColumn, bind. by rewrite Hg.
Qed.

End Accessors.

Section FieldsPanic.
Context {P : Program}.

Lemma snapshot_panics (i : option RValue) (s : State)
    (structFields : list nat) :
  (∀ a, a ∈ structFields → is_Some (fieldHeap s !! a)) →
  (∃ a f, a ∈ structFields ∧ fieldHeap s !! a = Some f
          ∧ walkNames i (Names f) = None) →
  snapshot true i structFields s = Panics PanicReflect.
Proof.
  induction structFields as [|b rest IH]; intros Hall (a & f & Ha & Hf & Hw).
  - by apply elem_of_nil in Ha.
  - simpl. destruct (Hall b) as [g Hg]; [by left|].
    unfold bind at 1. unfold bind at 1. unfold loadField. rewrite Hg.
    destruct (walkNames i (Names g)) as [fv|] eqn:Hwg; [|done].
    unfold ret at 1. unfold bind at 1. rewrite IH; [done| |].
    + intros c Hc. apply Hall. by right.
    + apply elem_of_cons in Ha as [->|Ha]; [|by exists a, f].
      rewrite Hg in Hf. injection Hf as ->. by rewrite Hw in Hwg.
Qed.

(** X12. [Fields] panics in [reflect] when the value, a struct without
    its pointer, cannot be walked along the name path of a descriptor of
    its published shape: with a nil pointer where the path goes through
    an embedded pointer, a zero value of the shape among them. *)
Theorem Fields_panics (fuel : nat) (value : option RValue) (p : nat)
    (m : ModelStruct) (s : State) (a : nat) (f : StructField) :
  wellFormed s → resolved value p m s →
  valueKind (walked value) = Some KStruct →
  a ∈ StructFields m → fieldHeap s !! a = Some f →
  walkNames (walked value) (Names f) = None →
  Fields (GetModelStruct (S fuel)) value s = Panics PanicReflect.
Proof.
  intros W (v & refType & -> & Ht & Hc & Hm) Hk Ha Hf Hw.
  pose proof (Forall_lookup_1 _ _ _ _ (wf_structs _ W) Hm) as (Hb & _).
  unfold Fields. unfold bind at 1.
  rewrite (GetModelStruct_hit fuel v refType p s Ht Hc).
  unfold bind at 1. unfold loadStruct. rewrite Hm.
  unfold bind at 1. fold (walked (Some v)).
  rewrite bool_decide_eq_true_2 by done.
  rewrite snapshot_panics; [done| |by exists a, f].
  intros b Hin. by apply lookup_lt_is_Some_2, Hb.
Qed.

End FieldsPanic.

(** ** The pairing loop of the relationship builders *)

Section Pairing.
Context {P : Program}.

Lemma GetForeignField_flag (column : string) (fields : list nat)
    (h : list StructField) (a : nat) (f : StructField) :
  h !! a = Some f →
  GetForeignField column fields (<[a := setIsForeignKey true f]> h)
  = GetForeignField column fields h.
Proof.
  intros Hf. unfold GetForeignField.
  induction fields as [|b rest IH]; [done|]. simpl. rewrite IH.
  destruct (decide (a = b)) as [<-|Hne].
  - rewrite list_lookup_insert_eq by by eapply lookup_lt_Some.
    rewrite Hf. by destruct f.
  - by rewrite list_lookup_insert_ne.
Qed.

Lemma unpaired_cons (foreignIn : list nat) (h : list StructField)
    (afks : list string) (idx : nat) (fk : string) (rest : list string) :
  unpaired foreignIn h afks idx (fk :: rest)
  ↔ (is_Some (GetForeignField fk foreignIn h) ∧ afks !! idx = None)
    ∨ unpaired foreignIn h afks (S idx) rest.
Proof.
  unfold unpaired. split.
  - intros (i & fk' & Hi & Hfound & Hnone). destruct i as [|i].
    + injection Hi as <-. left. by rewrite Nat.add_0_r in Hnone.
    + right. exists i, fk'. split; [done|]. split; [done|].
      by replace (S idx + i) with (idx + S i) by lia.
  - intros [[Hfound Hnone]|(i & fk' & Hi & Hfound & Hnone)].
    + exists 0, fk. by rewrite Nat.add_0_r.
    + exists (S i), fk'. split; [done|]. split; [done|].
      by replace (idx + S i) with (S idx + i) by lia.
Qed.

Lemma unpaired_flag (foreignIn : list nat) (h : list StructField)
    (afks : list string) (idx : nat) (fks : list string) (a : nat)
    (f : StructField) :
  h !! a = Some f →
  unpaired foreignIn (<[a := setIsForeignKey true f]> h) afks idx fks
  ↔ unpaired foreignIn h afks idx fks.
Proof.
  intros Hf. unfold unpaired.
  split; intros (i & fk & Hi & Hfound & Hnone); exists i, fk.
  - by rewrite GetForeignField_flag in Hfound.
  - by rewrite GetForeignField_flag.
Qed.

Lemma resolvePairs_cons (foreignIn associationIn : list nat)
    (afks : list string) (idx : nat) (fk : string) (rest : list string)
    (rel : Relationship) (s : State) :
  resolvePairs foreignIn associationIn afks idx (fk :: rest) rel s
  = match GetForeignField fk foreignIn (fieldHeap s) with
    | Some foreignField =>
        match afks !! idx with
        | None => Panics PanicIndexOutOfRange
        | Some afk =>
            match GetForeignField afk associationIn (fieldHeap s) with
            | Some associationField =>
                (updateField foreignField (setIsForeignKey true) ;;;
                 af <- loadField associationField ;;
                 ff <- loadField foreignField ;;
                 resolvePairs foreignIn associationIn afks (S idx) rest
                   (addForeign (Name ff) (DBName ff)
                      (addAssociation (Name af) (DBName af) rel))) s
            | None => resolvePairs foreignIn associationIn afks (S idx) rest rel s
            end
        end
    | None => resolvePairs foreignIn associationIn afks (S idx) rest rel s
    end.
Proof.
  simpl. unfold bind at 1. unfold gets.
  destruct (GetForeignField fk foreignIn (fieldHeap s)); [|done].
  destruct (afks !! idx); [|done].
  by destruct (GetForeignField _ associationIn (fieldHeap s)).
Qed.

(** One turn that records a pair. *)
Lemma resolvePairs_pair (foreignIn associationIn : list nat)
    (afks : list string) (idx : nat) (rest : list string)
    (rel : Relationship) (s : State) (ff af : nat) (f g : StructField) :
  fieldHeap s !! ff = Some f → fieldHeap s !! af = Some g →
  let s1 := withFieldHeap (<[ff := setIsForeignKey true f]> (fieldHeap s)) s in
  ∃ g', (g' = g ∨ g' = setIsForeignKey true g)
        ∧ (updateField ff (setIsForeignKey true) ;;;
           af <- loadField af ;;
           ff <- loadField ff ;;
           resolvePairs foreignIn associationIn afks (S idx) rest
             (addForeign (Name ff) (DBName ff)
                (addAssociation (Name af) (DBName af) rel))) s
          = resolvePairs foreignIn associationIn afks (S idx) rest
              (addForeign (Name f) (DBName f)
                 (addAssociation (Name g') (DBName g') rel)) s1.
Proof.
  intros Hf Hg s1.
  assert (updateField ff (setIsForeignKey true) s = Done tt s1) as Hu.
  { apply updateField_Done. by exists f. }
  assert (loadField ff s1 = Done (setIsForeignKey true f) s1) as Hf'.
  { unfold loadField. simpl.
    by rewrite list_lookup_insert_eq by by eapply lookup_lt_Some. }
  assert (∃ g', (g' = g ∨ g' = setIsForeignKey true g)
                ∧ loadField af s1 = Done g' s1) as (g' & Hg' & Hl).
  { unfold loadField. simpl. destruct (decide (ff = af)) as [->|Hne].
    - rewrite list_lookup_insert_eq by by eapply lookup_lt_Some.
      rewrite Hf in Hg. injection Hg as ->. eexists. split; [by right|done].
    - rewrite list_lookup_insert_ne by done. rewrite Hg.
      eexists. split; [by left|done]. }
  exists g'. split; [done|].
  rewrite (bind_run _ _ _ _ _ Hu). rewrite (bind_run _ _ _ _ _ Hl).
  by rewrite (bind_run _ _ _ _ _ Hf').
Qed.

(** The two outcomes of the pairing loop. *)
Lemma resolvePairs_outcome (foreignIn associationIn : list nat)
    (associationForeignKeys : list string) (fks : list string) :
  ∀ (idx : nat) (rel : Relationship) (s : State),
    (unpaired foreignIn (fieldHeap s) associationForeignKeys idx fks →
     resolvePairs foreignIn associationIn associationForeignKeys idx fks rel s
     = Panics PanicIndexOutOfRange)
    ∧ (¬ unpaired foreignIn (fieldHeap s) associationForeignKeys idx fks →
       ∃ rel' s',
         resolvePairs foreignIn associationIn associationForeignKeys idx fks
           rel s
         = Done rel' s').
Proof.
  induction fks as [|fk rest IH]; intros idx rel s.
  - split.
    + intros (i & fk & Hi & _). done.
    + intros _. by exists rel, s.
  - rewrite unpaired_cons, resolvePairs_cons.
    destruct (GetForeignField fk foreignIn (fieldHeap s)) as [ff|] eqn:Eff.
    2:{ destruct (IH (S idx) rel s) as [IH1 IH2]. split.
        - intros [[[? [=]] _]|H]. by apply IH1.
        - intros H. apply IH2. intros H'. apply H. by right. }
    destruct (associationForeignKeys !! idx) as [afk|] eqn:Eafk.
    2:{ split; [done|]. intros H. destruct H. left. by split; [eexists|]. }
    destruct (GetForeignField afk associationIn (fieldHeap s)) as [af|] eqn:Eaf.
    2:{ destruct (IH (S idx) rel s) as [IH1 IH2]. split.
        - intros [[_ [=]]|H]. by apply IH1.
        - intros H. apply IH2. intros H'. apply H. by right. }
    apply GetForeignField_Some in Eff as (_ & f & Hf & _).
    apply GetForeignField_Some in Eaf as (_ & g & Hg & _).
    destruct (resolvePairs_pair foreignIn associationIn associationForeignKeys
                idx rest rel s ff af f g Hf Hg) as (g' & _ & ->).
    match goal with
    | |- context [resolvePairs _ _ _ _ _ ?r ?s1] =>
        destruct (IH (S idx) r s1) as [IH1 IH2]
    end.
    simpl in IH1, IH2. rewrite unpaired_flag in IH1, IH2 by done.
    split.
    + intros [[_ [=]]|H]. by apply IH1.
    + intros H. apply IH2. intros H'. apply H. by right.
Qed.

(** X13. The pairing loop indexes the association keys by the position of
    the foreign key.  It panics, with index out of range, exactly when a
    foreign key that names a field of the target stands at a position
    where there is no association key; otherwise it completes. *)
Theorem resolvePairs_bounds (foreignIn associationIn : list nat)
    (associationForeignKeys : list string) (fks : list string) :
  ∀ (idx : nat) (rel : Relationship) (s : State),
    (unpaired foreignIn (fieldHeap s) associationForeignKeys idx fks →
     resolvePairs foreignIn associationIn associationForeignKeys idx fks rel s
     = Panics PanicIndexOutOfRange)
    ∧ (¬ unpaired foreignIn (fieldHeap s) associationForeignKeys idx fks →
       ∃ rel' s',
         resolvePairs foreignIn associationIn associationForeignKeys idx fks
           rel s
         = Done rel' s').
Proof.
  intros idx rel s.
  split; apply (resolvePairs_outcome foreignIn associationIn
                  associationForeignKeys fks idx rel s).
Qed.

Lemma flagsSet_refl (h : list StructField) : flagsSet h h.
Proof. split; [done|]. intros a f Hf. by left. Qed.

Lemma flagsSet_step (h h' : list StructField) (a : nat) (f : StructField) :
  h !! a = Some f →
  flagsSet (<[a := setIsForeignKey true f]> h) h' → flagsSet h h'.
Proof.
  intros Hf [Hlen Hall]. rewrite length_insert in Hlen. split; [done|].
  intros b g Hg. destruct (decide (a = b)) as [<-|Hne].
  - rewrite Hf in Hg. injection Hg as <-.
    destruct (Hall a (setIsForeignKey true f)) as [H|H].
    + by rewrite list_lookup_insert_eq by by eapply lookup_lt_Some.
    + by right.
    + right. rewrite H. by destruct f.
  - apply Hall. by rewrite list_lookup_insert_ne.
Qed.

(** X14. When the pairing loop completes it has touched nothing but
    foreign-key flags, which it only sets, and the relationship it
    returns is the one it was given with as many names added to each of
    its four name lists, at most one for each foreign key: lists that
    were equally long still are. *)
Theorem resolvePairs_aligned (foreignIn associationIn : list nat)
    (associationForeignKeys : list string) (fks : list string) :
  ∀ (idx : nat) (rel : Relationship) (s : State) (rel' : Relationship)
    (s' : State),
    resolvePairs foreignIn associationIn associationForeignKeys idx fks rel s
    = Done rel' s' →
    (aligned rel → aligned rel')
    ∧ length (ForeignFieldNames rel) ≤ length (ForeignFieldNames rel')
      ≤ length (ForeignFieldNames rel) + length fks
    ∧ Kind rel' = Kind rel
    ∧ PolymorphicType rel' = PolymorphicType rel
    ∧ PolymorphicDBName rel' = PolymorphicDBName rel
    ∧ PolymorphicValue rel' = PolymorphicValue rel
    ∧ flagsSet (fieldHeap s) (fieldHeap s')
    ∧ s' = withFieldHeap (fieldHeap s') s.
Proof.
  induction fks as [|fk rest IH]; intros idx rel s rel' s' H.
  - apply ret_Done in H as [<- <-]. simpl.
    split; [done|]. split; [lia|]. do 4 (split; [done|]).
    split; [apply flagsSet_refl|by destruct s].
  - rewrite resolvePairs_cons in H.
    assert (∀ r, resolvePairs foreignIn associationIn associationForeignKeys
                   (S idx) rest r s = Done rel' s' →
                 r = rel →
                 (aligned rel → aligned rel')
                 ∧ length (ForeignFieldNames rel) ≤ length (ForeignFieldNames rel')
                   ≤ length (ForeignFieldNames rel) + length (fk :: rest)
                 ∧ Kind rel' = Kind rel
                 ∧ PolymorphicType rel' = PolymorphicType rel
                 ∧ PolymorphicDBName rel' = PolymorphicDBName rel
                 ∧ PolymorphicValue rel' = PolymorphicValue rel
                 ∧ flagsSet (fieldHeap s) (fieldHeap s')
                 ∧ s' = withFieldHeap (fieldHeap s') s) as Hskip.
    { intros r Hr ->. apply IH in Hr as (A & L & R). split; [done|].
      split; [simpl; lia|done]. }
    destruct (GetForeignField fk foreignIn (fieldHeap s)) as [ff|] eqn:Eff;
      [|by eapply Hskip].
    destruct (associationForeignKeys !! idx) as [afk|]; [|done].
    destruct (GetForeignField afk associationIn (fieldHeap s)) as [af|] eqn:Eaf;
      [|by eapply Hskip].
    apply GetForeignField_Some in Eff as (_ & f & Hf & _).
    apply GetForeignField_Some in Eaf as (_ & g & Hg & _).
    destruct (resolvePairs_pair foreignIn associationIn associationForeignKeys
                idx rest rel s ff af f g Hf Hg) as (g' & _ & E).
    rewrite E in H. clear E Hskip.
    apply IH in H as (A & L & K & T & B & V & F & S1). simpl in *.
    rewrite length_app in L. simpl in L.
    split.
    { intros (A1 & A2 & A3). apply A. unfold aligned. simpl.
      rewrite !length_app. simpl. lia. }
    split; [lia|]. do 4 (split; [done|]).
    split; [exact (flagsSet_step _ _ ff f Hf F)|].
    rewrite S1. by destruct s.
Qed.

End Pairing.

(** ** Key lists and the pairing loop together *)

Section KeyLists.
Context {P : Program}.

(** X15. Unless the foreign keys are annotated and the association keys
    are not, the key lists a builder derives have an association key for
    each foreign key, and the pairing loop over them completes: it cannot
    index out of range. *)
Theorem deriveKeys_enough (prefix : string) (lookupIn : list nat)
    (primaries : M (result (list StructField)))
    (primaryKey : M (result string)) (fks afks : list string) (s : State)
    (keys : list string * list string) (s1 : State)
    (foreignIn associationIn : list nat) (rel : Relationship) :
  fks = [] ∨ afks ≠ [] →
  deriveKeys prefix lookupIn primaries primaryKey fks afks s
  = Done (Val keys) s1 →
  length (fst keys) ≤ length (snd keys)
  ∧ ∃ rel' s',
      resolvePairs foreignIn associationIn (snd keys) 0 (fst keys) rel s1
      = Done rel' s'.
Proof.
  intros Hcase H.
  assert (length (fst keys) ≤ length (snd keys)) as Hlen.
  { unfold deriveKeys in H. destruct fks as [|fk fks].
    - destruct afks as [|afk afks].
      + apply bind_Done in H as ([pfs|e] & s0 & _ & H);
          apply ret_Done in H as [[= <-] _]. simpl.
        by rewrite !length_map.
      + apply bind_Done in H as (h & s0 & _ & H).
        apply ret_Done in H as [[= <-] _]. simpl.
        rewrite length_app, !length_map. lia.
    - destruct Hcase as [|Hcase]; [done|].
      destruct afks as [|afk afks]; [done|].
      destruct (length (fk :: fks) =? length (afk :: afks)) eqn:E;
        apply ret_Done in H as [[= <-] _].
      apply Nat.eqb_eq in E. simpl in *. lia. }
  split; [done|].
  apply resolvePairs_outcome. intros (i & fk & Hi & _ & Hnone).
  apply lookup_lt_Some in Hi. apply lookup_ge_None in Hnone. simpl in Hnone.
  lia.
Qed.

End KeyLists.

Section NoPrimaryKey.
Context {P : Program}.

Lemma GetForeignField_ext (column : string) (fields : list nat)
    (h h' : list StructField) :
  (∀ a, a ∈ fields → ∃ f f', h !! a = Some f ∧ h' !! a = Some f'
                             ∧ shell f = shell f') →
  GetForeignField column fields h' = GetForeignField column fields h.
Proof.
  intros H. unfold GetForeignField.
  induction fields as [|a rest IH]; [done|]. simpl.
  destruct (H a) as (f & f' & -> & -> & Hs); [by left|].
  rewrite IH by (intros b Hb; apply H; by right).
  assert (matchesColumn column f' = matchesColumn column f) as ->; [|done].
  unfold matchesColumn.
  assert (Name f' = Name f ∧ DBName f' = DBName f) as [-> ->]; [|done].
  destruct f, f'. unfold shell, core in Hs. simpl in *.
  by injection Hs as -> -> -> -> -> -> -> -> ->.
Qed.

(** X16. The description [GetModelStruct] builds for a shape has no
    primary field only when none of its fields is named [id] or has the
    column [id]: a shape with such a field always has a primary key. *)
Theorem GetModelStruct_promotes_id (fuel : nat) (v : RValue)
    (refType : string) (s : State) (p : nat) (s' : State) :
  wellFormed s →
  unwrapType (typeOf v) = TStruct refType →
  StructMap s !! refType = None →
  GetModelStruct fuel (Some v) s = Done (Val p) s' →
  ∃ m, structHeap s' !! p = Some m
       ∧ (PrimaryFields_ m = [] →
          GetForeignField "id" (StructFields m) (fieldHeap s') = None).
Proof.
  intros W Ht Hmiss H. destruct fuel as [|n]; [done|]. simpl in H.
  destruct (GetModelStruct_body_miss _ _ _ _ _ _ Ht Hmiss H)
    as (tableName & m1 & d & e1 & s1 & _ & Hloop & Hrest).
  destruct e1 as [err|]; [by destruct Hrest as [[=] _]|].
  destruct Hrest as (m2 & s2 & Hp & [= ->] & Hd).
  pose proof Hp as Hp'.
  apply (fieldLoop_spec _ (sound_GetModelStruct n)) in Hloop as (_ & _ & B).
  destruct (B (building_start _ _ _ W)) as (_ & (Hb & _) & _).
  apply (sound_runDeferred _ (sound_GetModelStruct n)) in Hd as [E _].
  exists m2. split.
  { apply (ext_structs _ _ E). simpl.
    rewrite lookup_app_r by done. by rewrite Nat.sub_diag. }
  intros Hnone.
  assert (m2 = m1 ∧ s2 = s1
          ∧ GetForeignField "id" (StructFields m1) (fieldHeap s1) = None)
    as (-> & -> & Hid).
  { apply promoteID_Done in Hp as [[-> ->]|(a & f & Hpf & Eid & _ & -> & _)].
    - split; [done|]. split; [done|].
      destruct (GetForeignField "id" (StructFields m1) (fieldHeap s1)) as [a|] eqn:Eid;
        [|done].
      pose proof Eid as Eid'.
      apply GetForeignField_Some in Eid' as (_ & f & Hf & _).
      pose proof (promoteID_promotes m1 s1 a f Hnone Eid Hf) as Hpr.
      rewrite Hpr in Hp'. injection Hp' as Hm _.
      apply (f_equal PrimaryFields_) in Hm. simpl in Hm.
      rewrite Hnone in Hm. done.
    - simpl in Hnone. by destruct (PrimaryFields_ m1). }
  rewrite <- Hid. apply GetForeignField_ext. intros a Ha.
  destruct (lookup_lt_is_Some_2 _ _ (Hb a Ha)) as [f Hf].
  destruct (ext_fields _ _ E a f) as (f' & Hf' & Hst); [done|].
  exists f, f'. split; [done|]. split; [done|]. by apply stable_shell.
Qed.

End NoPrimaryKey.

(** ** The descriptors of the fields that are not expanded *)

Section PlainFields.
Context {P : Program}.

Lemma describes_shell (fd : FieldDecl) (f f' : StructField) :
  shell f = shell f' → describes fd f → describes fd f'.
Proof.
  destruct f, f'. unfold shell, core, describes. simpl.
  by intros [= <- <- <- <- <- <- <- <- <-].
Qed.

Lemma appendField_stores (fStruct : FieldDecl) (f0 field : StructField)
    (mp : ModelStruct) (d : list Deferred) (s s1 s' : State) (a : nat)
    (m' : ModelStruct) (d' : list Deferred) (e : option error) :
  newField f0 s = Done a s1 →
  appendField fStruct a field mp d s1 = Done (m', d', e) s' →
  e = None
  ∧ StructFields m' = StructFields mp ++ [length (fieldHeap s)]
  ∧ fieldHeap s' !! length (fieldHeap s)
    = Some (setDBName (match TagSettings field !! "COLUMN" with
                       | Some value => value
                       | None => ToDBName (fdName fStruct)
                       end) field).
Proof.
  intros Ha H. unfold appendField in H.
  apply bind_Done in H as ([] & s2 & Hu & H).
  apply ret_Done in H as [[= <- <- <-] <-].
  destruct (newField_store _ _ _ _ _ _ _ Ha Hu) as [-> ->].
  split; [done|]. split; [done|]. simpl.
  rewrite lookup_app_r by done. by rewrite Nat.sub_diag.
Qed.

Section Loop.
Variable getModelStruct : option RValue → M (result nat).
Hypothesis getModelStruct_sound : ∀ value, sound (getModelStruct value).

Lemma fieldStep_plain (fStruct : FieldDecl) (m : ModelStruct)
    (d : list Deferred) (s : State) (m' : ModelStruct)
    (d' : list Deferred) (e : option error) (s' : State) :
  ¬ embedsAt fStruct →
  fieldStep getModelStruct fStruct m d s = Done (m', d', e) s' →
  e = None
  ∧ if IsExported (fdName fStruct)
    then StructFields m' = StructFields m ++ [length (fieldHeap s)]
         ∧ ∃ f, fieldHeap s' !! length (fieldHeap s) = Some f
                ∧ describes fStruct f
    else StructFields m' = StructFields m.
Proof.
  intros Hne H. unfold fieldStep in H.
  destruct (IsExported (fdName fStruct)) eqn:Hex; cbn [negb] in H.
  2:{ by apply ret_Done in H as [[= <- <- <-] <-]. }
  apply bind_Done in H as (a & s1 & Ha & H).
  unfold describes, settingsOf.
  set (ts := ParseTagSetting (fdTag fStruct)) in *.
  cbn [TagSettings] in H.
  destruct (hasTag ts "-") eqn:Hig.
  { destruct (appendField_stores _ _ _ _ _ _ _ _ _ _ _ _ Ha H)
      as (-> & Hm & Hf).
    split; [done|]. split; [done|]. eexists. split; [exact Hf|]. done. }
  destruct (hasTag ts "PRIMARY_KEY") eqn:Epk;
    cbn [TagSettings setIsPrimaryKey IsPrimaryKey setHasDefaultValue negb andb] in H.
  all: destruct (hasTag ts "DEFAULT") eqn:Edef;
    cbn [TagSettings setIsPrimaryKey IsPrimaryKey setHasDefaultValue negb andb] in H.
  all: try (destruct (hasTag ts "AUTO_INCREMENT") eqn:Eauto;
    cbn [TagSettings setIsPrimaryKey IsPrimaryKey setHasDefaultValue negb andb] in H).
  all: destruct (isScanner (stripPtr (fdType fStruct))) eqn:Escan;
    [ destruct (appendField_stores _ _ _ _ _ _ _ _ _ _ _ _ Ha H)
        as (-> & Hm & Hf);
      split; [done|]; split; [done|]; eexists; split; [exact Hf|];
      simpl; rewrite ?Edef, ?Eauto; done |].
  all: destruct (bool_decide (stripPtr (fdType fStruct) = timeType)) eqn:Etime;
    [ destruct (appendField_stores _ _ _ _ _ _ _ _ _ _ _ _ Ha H)
        as (-> & Hm & Hf);
      split; [done|]; split; [done|]; eexists; split; [exact Hf|];
      simpl; rewrite ?Edef, ?Eauto; done |].
  all: destruct (hasTag ts "EMBEDDED" || fdAnonymous fStruct) eqn:Eemb;
    [ destruct Hne; split; [done|]; split; [done|]; split; [done|];
      split; [by apply bool_decide_eq_false in Etime|done] |].
  all: destruct (kindOf (stripPtr (fdType fStruct)));
    destruct (appendField_stores _ _ _ _ _ _ _ _ _ _ _ _ Ha H)
      as (-> & Hm & Hf);
    (split; [done|]); (split; [done|]); eexists; (split; [exact Hf|]);
    simpl; rewrite ?Edef, ?Eauto; done.
Qed.

Lemma fieldLoop_plain (fields : list FieldDecl) :
  ∀ m d s m' d' e s',
    Forall (λ fd, ¬ embedsAt fd) fields →
    fieldLoop getModelStruct fields m d s = Done (m', d', e) s' →
    e = None
    ∧ ∃ added,
        StructFields m' = StructFields m ++ added
        ∧ Forall2 (λ fd a, ∃ f, fieldHeap s' !! a = Some f ∧ describes fd f)
            (List.filter (λ fd, IsExported (fdName fd)) fields) added.
Proof.
  induction fields as [|fStruct rest IH]; intros m d s m' d' e s' Hall H;
    simpl in H.
  - apply ret_Done in H as [[= <- <- <-] <-]. split; [done|].
    exists []. split; [by rewrite app_nil_r|constructor].
  - apply Forall_cons in Hall as [Hne Hall].
    apply bind_Done in H as ([[m1 d1] e1] & s1 & Hstep & H).
    destruct (fieldStep_plain _ _ _ _ _ _ _ _ Hne Hstep) as [-> Hm1].
    pose proof (fieldLoop_spec _ getModelStruct_sound _ _ _ _ _ _ _ _ H)
      as (E & _ & _).
    destruct (IH _ _ _ _ _ _ _ Hall H) as (-> & added & Hm' & Hadded).
    split; [done|]. simpl.
    destruct (IsExported (fdName fStruct)).
    + destruct Hm1 as (Hm1 & f & Hf & Hd).
      exists (length (fieldHeap s) :: added). split.
      * rewrite Hm', Hm1. by rewrite <- app_assoc.
      * constructor; [|done].
        destruct (ext_fields _ _ E _ _ Hf) as (f' & Hf' & Hst).
        exists f'. split; [done|].
        exact (describes_shell _ f f' (stable_shell _ _ Hst) Hd).
    + exists added. by rewrite Hm', Hm1.
Qed.

End Loop.

(** X17. For a shape none of whose fields is expanded in place, the field
    list of the description [GetModelStruct] builds has one descriptor for
    each exported field of the type, in the order of the declaration.
    The descriptor has the field's name, alone, as its name path, the
    field's tag and annotations, and as its column the [COLUMN]
    annotation, or without one the name in column case; it is ignored
    when annotated [-]; it has a default value when it is annotated
    [DEFAULT], or [AUTO_INCREMENT] without [PRIMARY_KEY]. *)
Theorem GetModelStruct_describes (fuel : nat) (v : RValue)
    (refType : string) (s : State) (p : nat) (s' : State) :
  unwrapType (typeOf v) = TStruct refType →
  StructMap s !! refType = None →
  Forall (λ fd, ¬ embedsAt fd) (sFields (decl refType)) →
  GetModelStruct fuel (Some v) s = Done (Val p) s' →
  ∃ m, structHeap s' !! p = Some m
       ∧ Forall2 (λ fd a, ∃ f, fieldHeap s' !! a = Some f ∧ describes fd f)
           (List.filter (λ fd, IsExported (fdName fd))
              (sFields (decl refType)))
           (StructFields m).
Proof.
  intros Ht Hmiss Hall H. destruct fuel as [|n]; [done|]. simpl in H.
  destruct (GetModelStruct_body_miss _ _ _ _ _ _ Ht Hmiss H)
    as (tableName & m1 & d & e1 & s1 & _ & Hloop & Hrest).
  destruct e1 as [err|]; [by destruct Hrest as [[=] _]|].
  destruct Hrest as (m2 & s2 & Hp & [= ->] & Hd).
  destruct (fieldLoop_plain _ (sound_GetModelStruct n) _ _ _ _ _ _ _ _ Hall Hloop)
    as (_ & added & Hm1 & Hadded). simpl in Hm1.
  destruct (promoteID_carried refType _ _ _ _ Hp) as [(_ & _ & C12) Hsf].
  apply (sound_runDeferred _ (sound_GetModelStruct n)) in Hd as [E _].
  exists m2. split.
  { apply (ext_structs _ _ E). simpl.
    rewrite lookup_app_r by done. by rewrite Nat.sub_diag. }
  rewrite Hsf, Hm1. eapply Forall2_impl; [exact Hadded|]. simpl.
  intros fd a (f & Hf & Hdesc).
  destruct (C12 _ _ Hf) as (f1 & Hf1 & Hs1).
  destruct (ext_fields _ _ E a f1) as (f2 & Hf2 & Hs2); [done|].
  exists f2. split; [done|].
  exact (describes_shell _ f1 f2 (stable_shell _ _ Hs2)
           (describes_shell _ f f1 Hs1 Hdesc)).
Qed.

End PlainFields.

(** ** What a resolution keeps *)

Section Resolution.
Context {P : Program}.

(** X18. A call of [GetModelStruct] that returns keeps what it found:
    every shape that is in the cache when the call starts is in the
    cache, with the same description, when it returns, and every
    description that exists when the call starts is unchanged; the call
    binds no parameter and leaves the search and the settings of the
    engine alone.  Nothing is said of a shape that is first published
    during the call. *)
Theorem GetModelStruct_keeps_cache (fuel : nat) (value : option RValue)
    (s : State) (r : result nat) (s' : State) :
  GetModelStruct fuel value s = Done r s' →
  (∀ k p, StructMap s !! k = Some p → StructMap s' !! k = Some p)
  ∧ (∀ p m, structHeap s !! p = Some m → structHeap s' !! p = Some m)
  ∧ SQLVars s' = SQLVars s
  ∧ Search s' = Search s
  ∧ SingularTable s' = SingularTable s.
Proof.
  intros H. destruct (sound_GetModelStruct _ _ _ _ _ H) as [E _].
  split; [apply E|]. split; [apply E|]. split; [apply E|].
  split; apply E.
Qed.

(** X19. The descriptors that exist when a resolution starts keep their
    place, and keep everything but what the relationship builders write:
    the name, the name path, the column, the tag and its annotations,
    the declaration, and the primary-key, ignored, scanner and
    default-value flags are after the resolution what they were before
    it. *)
Theorem GetModelStruct_keeps_descriptors (fuel : nat)
    (value : option RValue) (s : State) (r : result nat) (s' : State)
    (a : nat) (f : StructField) :
  GetModelStruct fuel value s = Done r s' →
  fieldHeap s !! a = Some f →
  ∃ f', fieldHeap s' !! a = Some f'
        ∧ Name f' = Name f ∧ Names f' = Names f ∧ DBName f' = DBName f
        ∧ Tag f' = Tag f ∧ TagSettings f' = TagSettings f
        ∧ Struct f' = Struct f
        ∧ IsPrimaryKey f' = IsPrimaryKey f ∧ IsIgnored f' = IsIgnored f
        ∧ IsScanner f' = IsScanner f
        ∧ HasDefaultValue f' = HasDefaultValue f.
Proof.
  intros H Hf. destruct (sound_GetModelStruct _ _ _ _ _ H) as [E _].
  destruct (ext_fields _ _ E _ _ Hf) as (f' & Hf' & Hst).
  exists f'. split; [done|]. unfold stable, core in Hst.
  destruct f, f'. simpl in *. by injection Hst as -> -> -> -> -> -> -> -> -> ->.
Qed.

(** X20. In every state a resolution reaches from a well-formed one, each
    shape in the cache has its description in the heap; the descriptors
    of the description's field list and primary fields exist; every
    primary field is flagged as a primary key; and every flagged
    descriptor of the field list is one of the primary fields. *)
Theorem GetModelStruct_consistent (fuel : nat) (value : option RValue)
    (s : State) (r : result nat) (s' : State) (k : string) (p : nat) :
  wellFormed s →
  GetModelStruct fuel value s = Done r s' →
  StructMap s' !! k = Some p →
  ∃ m, structHeap s' !! p = Some m
       ∧ (∀ a, a ∈ StructFields m → is_Some (fieldHeap s' !! a))
       ∧ (∀ a, a ∈ PrimaryFields_ m →
               ∃ f, fieldHeap s' !! a = Some f ∧ IsPrimaryKey f = true)
       ∧ (∀ a f, a ∈ StructFields m → fieldHeap s' !! a = Some f →
                 IsPrimaryKey f = true → a ∈ PrimaryFields_ m).
Proof.
  intros W H Hk. destruct (sound_GetModelStruct _ _ _ _ _ H) as [_ W'].
  specialize (W' W). destruct W' as [Wf Ws Wc].
  destruct (lookup_lt_is_Some_2 _ _ (Wc k p Hk)) as [m Hm].
  pose proof (Forall_lookup_1 _ _ _ _ Ws Hm) as (Hb & Hp & Hj).
  exists m. split; [done|]. split; [|done].
  intros a Ha. by apply lookup_lt_is_Some_2, Hb.
Qed.

(** X21. A description a resolution builds shares no descriptor with the
    descriptions that were there before: the fields it takes from an
    embedded record are copies. *)
Theorem GetModelStruct_fresh (fuel : nat) (value : option RValue)
    (s : State) (r : result nat) (s' : State) (p p' : nat)
    (m m' : ModelStruct) (a : nat) :
  wellFormed s →
  GetModelStruct fuel value s = Done r s' →
  structHeap s !! p = Some m →
  structHeap s' !! p' = Some m' → structHeap s !! p' = None →
  a ∈ StructFields m' → a ∉ StructFields m.
Proof.
  intros W H Hm Hm' Hnew Ha Hin.
  destruct (sound_GetModelStruct _ _ _ _ _ H) as [E _].
  pose proof (Forall_lookup_1 _ _ _ _ (wf_structs _ W) Hm) as (Hb & _).
  specialize (Hb a Hin).
  apply lookup_ge_None in Hnew.
  pose proof (ext_fresh _ _ E p' m' a Hm' Hnew Ha). lia.
Qed.

Lemma unwrapType_forms (t : GoType) (id : string) :
  unwrapType t = TStruct id ↔ t ∈ formsOf id.
Proof.
  unfold formsOf. split.
  - intros H. destruct t as [x|[x|e|e|x]|[x|[]|e|x]|x]; simpl in H;
      try discriminate; try (injection H as ->); try set_solver.
    destruct e as [x|[]|e|x]; simpl in H; try discriminate.
    all: injection H as ->; set_solver.
  - intros H. repeat (apply elem_of_cons in H as [->|H]; [done|]).
    by apply elem_of_nil in H.
Qed.

(** X22. [GetModelStruct] takes a value for the record type [T] exactly
    when its type is [T], a slice of [T] or of pointers to [T], or a
    pointer to one of these three; a published [T] is then answered from
    the cache.  Every other value, a pointer to a pointer to [T] among
    them, is rejected with the not-supported error and nothing
    happens. *)
Theorem GetModelStruct_forms (fuel : nat) (v : RValue) (s : State) :
  (∀ id p, typeOf v ∈ formsOf id → StructMap s !! id = Some p →
           GetModelStruct (S fuel) (Some v) s = Done (Val p) s)
  ∧ ((∀ id, typeOf v ∉ formsOf id) →
     GetModelStruct (S fuel) (Some v) s
     = Done (Err (ErrNotSupported (kindOf (unwrapType (typeOf v))))) s).
Proof.
  split.
  - intros id p Hin Hc. apply unwrapType_forms in Hin.
    by eapply GetModelStruct_hit.
  - intros Hno. simpl. unfold GetModelStruct_body.
    destruct (unwrapType (typeOf v)) as [id| | |] eqn:E; try done.
    apply unwrapType_forms in E. by destruct (Hno id).
Qed.

(** X23. For a shape that is not in the cache and has a field that the
    loop takes as embedded, while the type of the field, without its
    pointers, is neither a record nor a slice of records,
    [GetModelStruct] on a well-formed engine never returns a
    description: whatever it returns is the nil-value or the
    not-supported error.  That it returns is not said: a builder
    deferred before the field can keep it from returning. *)
Theorem GetModelStruct_embedded_scalar (fuel : nat) (v : RValue)
    (refType : string) (s : State) (r : result nat) (s' : State)
    (fStruct : FieldDecl) :
  wellFormed s →
  unwrapType (typeOf v) = TStruct refType →
  StructMap s !! refType = None →
  fStruct ∈ sFields (decl refType) →
  embedsAt fStruct →
  (∀ id, unwrapType (TPtr (stripPtr (fdType fStruct))) ≠ TStruct id) →
  GetModelStruct fuel (Some v) s = Done r s' →
  ∃ e, r = Err e ∧ shapeError e.
Proof.
  intros W Ht Hmiss Hin Hemb Hno H.
  destruct r as [p|e]; [|exists e; split; [done|by eapply GetModelStruct_errors]].
  apply list_elem_of_split in Hin as (front & back & Hdecl).
  destruct fuel as [|n]; [done|]. simpl in H.
  destruct (GetModelStruct_body_embedded (GetModelStruct n)
              (sound_GetModelStruct n) (GetModelStruct_publishes n)
              v refType s p s' front fStruct back W Ht Hmiss Hdecl Hemb H)
    as (m & subType & ms & sub & before & clones & after & a & e & _ & Hsub & _).
  by destruct (Hno subType).
Qed.

End Resolution.

(** ** Many-to-many relationships *)

Section ManyToMany.
Context {P : Program}.
Variable getModelStruct : option RValue → M (result nat).

Lemma joinAssociations_names (toScope : option RValue) (elemName : string)
    (names : list string) :
  ∀ rel s rel' s',
    joinAssociations getModelStruct toScope elemName names rel s
    = Done (Val rel') s' →
    ∃ added,
      length added = length names
      ∧ AssociationForeignFieldNames rel'
        = AssociationForeignFieldNames rel ++ added
      ∧ AssociationForeignDBNames rel'
        = AssociationForeignDBNames rel
          ++ map (λ n, ToDBName elemName +:+ "_" +:+ n) added
      ∧ Kind rel' = Kind rel
      ∧ ForeignFieldNames rel' = ForeignFieldNames rel
      ∧ ForeignDBNames rel' = ForeignDBNames rel.
Proof.
  induction names as [|name rest IH]; intros rel s rel' s' H; simpl in H.
  - apply ret_Done in H as [[= <-] <-]. exists [].
    by rewrite !app_nil_r.
  - apply bind_Done in H as ([field|e] & s1 & Hf & H);
      [|by apply ret_Done in H as [[=] _]].
    apply bind_Done in H as (sf & s2 & Hsf & H).
    apply IH in H as (added & Hlen & Hn & Hdb & Hk & Hff & Hfd).
    simpl in *. exists (DBName sf :: added).
    split; [simpl; by rewrite Hlen|].
    split; [by rewrite Hn, <- app_assoc|].
    split; [by rewrite Hdb, <- app_assoc|done].
Qed.

Lemma fold_addForeign_names (prefix : string) (found : list StructField) :
  ∀ rel,
    let rel' :=
      fold_left (λ r ff, addForeign (DBName ff)
                           (prefix +:+ "_" +:+ DBName ff) r) found rel in
    ForeignFieldNames rel' = ForeignFieldNames rel ++ map DBName found
    ∧ ForeignDBNames rel'
      = ForeignDBNames rel
        ++ map (λ n, prefix +:+ "_" +:+ n) (map DBName found)
    ∧ Kind rel' = Kind rel
    ∧ AssociationForeignFieldNames rel' = AssociationForeignFieldNames rel
    ∧ AssociationForeignDBNames rel' = AssociationForeignDBNames rel.
Proof.
  induction found as [|ff rest IH]; intros rel; simpl.
  - by rewrite !app_nil_r.
  - destruct (IH (addForeign (DBName ff) (prefix +:+ "_" +:+ DBName ff) rel))
      as (H1 & H2 & H3 & H4 & H5). simpl in *.
    rewrite H1, H2, <- !app_assoc. done.
Qed.

(** X24. When the builder completes without error for a collection of
    records annotated [MANY2MANY], the field has a many-to-many
    relationship whose foreign and association names are columns, and
    whose join-table columns are these columns behind the name of the
    owning type and of the element type, in column case, and an
    underscore. *)
Theorem many2many_join_columns (modelValue : option RValue)
    (refType : string) (m : ModelStruct) (field : nat) (s : State)
    (f : StructField) (elemType : string) (s' : State) :
  fieldHeap s !! field = Some f →
  stripSlicePtr (fdType (Struct f)) = TStruct elemType →
  tagValue (TagSettings f) "MANY2MANY" ≠ "" →
  buildRelationSlice getModelStruct modelValue refType m field s
  = Done (Val tt) s' →
  ∃ f' rel,
    fieldHeap s' !! field = Some f'
    ∧ Relationship_ f' = Some rel
    ∧ Kind rel = "many_to_many"
    ∧ ForeignDBNames rel
      = map (λ n, ToDBName (sName (decl refType)) +:+ "_" +:+ n)
          (ForeignFieldNames rel)
    ∧ AssociationForeignDBNames rel
      = map (λ n, ToDBName (sName (decl elemType)) +:+ "_" +:+ n)
          (AssociationForeignFieldNames rel).
Proof.
  intros Hf He Hm H. unfold buildRelationSlice in H.
  apply bind_Done in H as (f0 & s0 & [Hf0 <-]%loadField_Done & H).
  rewrite Hf in Hf0. injection Hf0 as <-.
  rewrite He in H.
  assert (negb (String.eqb (tagValue (TagSettings f) "MANY2MANY") "") = true)
    as Hneg by (by apply negb_true_iff, String.eqb_neq).
  rewrite Hneg in H.
  apply bind_Done in H as (fks & s1 & _ & H).
  apply bind_Done in H as (h & s2 & _ & H).
  apply bind_Done in H as ([names|e] & s3 & _ & H);
    [|by apply ret_Done in H as [[=] _]].
  apply bind_Done in H as ([rel|e] & s4 & Hj & H);
    [|by apply ret_Done in H as [[=] _]].
  apply bind_Done in H as ([] & s5 & Hu & H).
  apply ret_Done in H as [_ <-].
  apply updateField_Done in Hu as (g & Hg & ->).
  apply joinAssociations_names in Hj
    as (added & _ & Hn & Hdb & Hk & Hff & Hfd).
  match type of Hk with
  | _ = Kind (fold_left _ ?found ?r0) =>
      destruct (fold_addForeign_names (ToDBName (sName (decl refType)))
                  found r0) as (F1 & F2 & F3 & F4 & F5)
  end.
  simpl in *.
  exists (setRelationship (Some rel) g), rel.
  split; [by rewrite list_lookup_insert_eq by by eapply lookup_lt_Some|].
  split; [done|]. split; [by rewrite Hk, F3|].
  split; [by rewrite Hfd, Hff, F2, F1|].
  by rewrite Hdb, Hn, F5, F4.
Qed.

End ManyToMany.

(** ** The theorems at the shapes of the examples *)

(** The heap of a state reached from a new engine is well formed. *)
Lemma Samples_resolvedState_wellFormed (id : string) :
  wellFormed (P:=Samples.program) (Samples.resolvedState id).
Proof.
  unfold Samples.resolvedState.
  destruct (GetModelStruct (P:=Samples.program) 3 (Fixture.ptrTo id)
              Fixture.engine) eqn:E;
    try apply wellFormed_newEngine.
  eapply sound_GetModelStruct; [exact E|apply wellFormed_newEngine].
Qed.

(** [TestQuote]: a dotted name in the plain dialect. *)
Lemma Quote_plain_witness :
  Quote (D:=Samples.plainDialect) "quote.quote.quote" = "quote.quote.quote".
Proof. apply (Quote_plain (D:=Samples.plainDialect)). reflexivity. Defined.

(** The default table names of [User] and of [Account], which has a
    [TableName] method. *)
Lemma GetModelStruct_default_table_witness :
  (∃ m, structHeap (Fixture.resolvedState "User") !! 0 = Some m
        ∧ DefaultTableName m = "users")
  ∧ (∃ m, structHeap (Samples.resolvedState "Account") !! 0 = Some m
          ∧ DefaultTableName m = "accts").
Proof.
  split.
  - destruct (GetModelStruct_default_table (P:=Fixture.program) 3
                (RPtr (RZero (TStruct "User"))) "User" Fixture.engine 0
                (Fixture.resolvedState "User"))
      as (m & Hm & _ & _ & Hname);
      [reflexivity|vm_compute; reflexivity|vm_compute; reflexivity|].
    exists m. split; [done|]. rewrite Hname; [vm_compute; reflexivity|].
    intros t Ht. vm_compute in Ht. discriminate.
  - destruct (GetModelStruct_default_table (P:=Samples.program) 3
                (RPtr (RZero (TStruct "Account"))) "Account" Fixture.engine 0
                (Samples.resolvedState "Account"))
      as (m & Hm & _ & Hname & _);
      [reflexivity|vm_compute; reflexivity|vm_compute; reflexivity|].
    exists m. split; [done|].
    apply (Hname {| tablerKind := IsTabler; tablerPtrReceiver := true;
                    tablerName := "accts" |}); reflexivity.
Defined.

(** [TestTableName]: the table of [&User{}], and of nil. *)
Lemma TableName_default_witness :
  TableName (GetModelStruct 1) (Fixture.ptrTo "User")
    (Fixture.resolvedState "User")
  = Done "users" (Fixture.resolvedState "User")
  ∧ TableName (GetModelStruct 1) None Fixture.engine = Done "" Fixture.engine.
Proof.
  split.
  - assert (∃ m, structHeap (Fixture.resolvedState "User") !! 0 = Some m
                 ∧ DefaultTableName m = "users") as (m & Hm & <-)
      by (eexists; split; vm_compute; reflexivity).
    refine (proj1 (TableName_default (P:=Fixture.program) 0
                     (Fixture.ptrTo "User") (Fixture.resolvedState "User")
                     _ _ _) 0 m _).
    + right. vm_compute. reflexivity.
    + reflexivity.
    + reflexivity.
    + exists (RPtr (RZero (TStruct "User"))), "User".
      split; [reflexivity|]. split; [reflexivity|].
      split; [vm_compute; reflexivity|exact Hm].
  - refine (proj2 (TableName_default (P:=Fixture.program) 0 None
                     Fixture.engine _ _ _) _).
    + by right.
    + reflexivity.
    + reflexivity.
    + by left.
Defined.

(** [TestQuotedTableName]: a table name in the search is quoted; with an
    alias it is left as it is. *)
Lemma QuotedTableName_quotes_witness :
  QuotedTableName (D:=Fixture.dialect) (GetModelStruct 1) None
    (newEngine false (Some "my_table"))
  = Done (Quote "my_table") (newEngine false (Some "my_table"))
  ∧ QuotedTableName (D:=Fixture.dialect) (GetModelStruct 1) None
      (newEngine false (Some "users u"))
    = Done "users u" (newEngine false (Some "users u")).
Proof.
  split.
  - rewrite (proj2 (QuotedTableName_quotes (P:=Fixture.program)
                      (D:=Fixture.dialect) (GetModelStruct 1) None
                      (newEngine false (Some "my_table")))).
    + reflexivity.
    + intros name [= <-]. reflexivity.
  - apply (proj1 (QuotedTableName_quotes (P:=Fixture.program)
                    (D:=Fixture.dialect) (GetModelStruct 1) None
                    (newEngine false (Some "users u")))); reflexivity.
Defined.

(** The published description of [User], as [resolved] has it. *)
Lemma User_resolved :
  ∃ m, resolved (Fixture.ptrTo "User") 0 m (Fixture.resolvedState "User")
       ∧ StructFields m = [0; 1; 2] ∧ PrimaryFields_ m = [0].
Proof.
  assert (∃ m, structHeap (Fixture.resolvedState "User") !! 0 = Some m
               ∧ StructFields m = [0; 1; 2] ∧ PrimaryFields_ m = [0])
    as (m & Hm & Hsf & Hpf)
    by (eexists; split; [|split]; vm_compute; reflexivity).
  exists m. split; [|done].
  exists (RPtr (RZero (TStruct "User"))), "User".
  split; [reflexivity|]. split; [reflexivity|].
  split; [vm_compute; reflexivity|exact Hm].
Qed.

Lemma User_walkable (m : ModelStruct) :
  resolved (Fixture.ptrTo "User") 0 m (Fixture.resolvedState "User") →
  walkable (Fixture.ptrTo "User") m (Fixture.resolvedState "User").
Proof.
  intros (v & refType & _ & _ & _ & Hm). apply walkableb_walkable.
  vm_compute in Hm. injection Hm as <-. vm_compute. reflexivity.
Qed.

(** [Fields] of [&User{}]: three entries, for the descriptors of the
    field list in order. *)
Lemma Fields_snapshot_witness :
  ∃ fds, Fields (GetModelStruct 1) (Fixture.ptrTo "User")
           (Fixture.resolvedState "User")
         = Done (Val fds) (Fixture.resolvedState "User")
         ∧ map fStructField fds = [0; 1; 2].
Proof.
  destruct User_resolved as (m & Hr & Hsf & _).
  destruct (Fields_snapshot (P:=Fixture.program) 0 (Fixture.ptrTo "User") 0 m
              (Fixture.resolvedState "User")
              (Fixture_resolvedState_wellFormed "User") Hr (User_walkable m Hr))
    as (fds & H & Hmap & _).
  exists fds. split; [exact H|]. by rewrite Hmap.
Defined.

(** [FieldByName] of [&User{}]: the field [Name] is found by its column,
    and there is no field [email]. *)
Lemma FieldByName_finds_witness :
  (∃ fd, FieldByName (GetModelStruct 1) (Fixture.ptrTo "User") "name"
           (Fixture.resolvedState "User")
         = Done (Val fd) (Fixture.resolvedState "User")
         ∧ fStructField fd = 1)
  ∧ FieldByName (GetModelStruct 1) (Fixture.ptrTo "User") "email"
      (Fixture.resolvedState "User")
    = Done (Err ErrFieldNotFound) (Fixture.resolvedState "User").
Proof.
  destruct User_resolved as (m & Hr & Hsf & _).
  pose proof (Fixture_resolvedState_wellFormed "User") as W.
  pose proof (User_walkable m Hr) as Hw.
  split.
  - destruct (FieldByName_finds (P:=Fixture.program) 0 (Fixture.ptrTo "User")
                0 m (Fixture.resolvedState "User") "name" W Hr Hw)
      as (r & H & Hspec).
    rewrite Hsf in Hspec. vm_compute in Hspec.
    destruct Hspec as (fd & f & -> & Ha & _). by exists fd.
  - destruct (FieldByName_finds (P:=Fixture.program) 0 (Fixture.ptrTo "User")
                0 m (Fixture.resolvedState "User") "email" W Hr Hw)
      as (r & H & Hspec).
    rewrite Hsf in Hspec. vm_compute in Hspec. by rewrite Hspec in H.
Defined.

(** [PrimaryFields] of [&User{}]: the promoted [ID]. *)
Lemma PrimaryFields_flagged_witness :
  ∃ pf, PrimaryFields (GetModelStruct 1) (Fixture.ptrTo "User")
          (Fixture.resolvedState "User")
        = Done (Val pf) (Fixture.resolvedState "User")
        ∧ map fStructField pf = [0].
Proof.
  destruct User_resolved as (m & Hr & Hsf & _).
  destruct (PrimaryFields_flagged (P:=Fixture.program) 0
              (Fixture.ptrTo "User") 0 m (Fixture.resolvedState "User")
              (Fixture_resolvedState_wellFormed "User") Hr (User_walkable m Hr))
    as (pf & H & Hmap & _).
  exists pf. split; [exact H|]. rewrite Hmap, Hsf. vm_compute. reflexivity.
Defined.

(** [HasColumn] of [&User{}] for the column [age]. *)
Lemma HasColumn_normal_witness :
  ∃ b, HasColumn (GetModelStruct 1) (Fixture.ptrTo "User") "age"
         (Fixture.resolvedState "User")
       = Done b (Fixture.resolvedState "User")
       ∧ (b = true ↔
          ∃ a f, a ∈ [0; 1; 2]
                 ∧ fieldHeap (Fixture.resolvedState "User") !! a = Some f
                 ∧ IsNormal f = true ∧ (Name f = "age" ∨ DBName f = "age")).
Proof.
  destruct User_resolved as (m & Hr & Hsf & _).
  destruct (HasColumn_normal (P:=Fixture.program) 0 (Fixture.ptrTo "User") 0 m
              (Fixture.resolvedState "User") "age"
              (Fixture_resolvedState_wellFormed "User") Hr)
    as (b & H & Hspec & _).
  exists b. split; [exact H|]. by rewrite <- Hsf.
Defined.

(** Nil is rejected by every accessor. *)
Lemma rejected_everywhere_witness :
  GetModelStruct 1 None Fixture.engine = Done (Err ErrNilValue) Fixture.engine
  ∧ PrimaryKey (GetModelStruct 1) None Fixture.engine
    = Done (Err ErrNilValue) Fixture.engine
  ∧ HasColumn (GetModelStruct 1) None "id" Fixture.engine
    = Done false Fixture.engine.
Proof.
  destruct (rejected_everywhere (P:=Fixture.program) 0 None ErrNilValue
              Fixture.engine "id") as (H1 & _ & _ & _ & _ & H6 & H7).
  - by left.
  - done.
Defined.

(** [Outer] embeds a pointer to [Inner]: [Fields] of [&Outer{}] panics at
    the name path [Inner.ID]. *)
Lemma Fields_panics_witness :
  Fields (P:=Samples.program) (GetModelStruct (P:=Samples.program) 1)
    (Fixture.ptrTo "Outer") (Samples.resolvedState "Outer")
  = Panics PanicReflect.
Proof.
  assert (∃ m, structHeap (Samples.resolvedState "Outer") !! 1 = Some m
               ∧ StructFields m = [2; 3]) as (m & Hm & Hsf)
    by (eexists; split; vm_compute; reflexivity).
  assert (∃ f, fieldHeap (Samples.resolvedState "Outer") !! 2 = Some f
               ∧ Names f = ["Inner"; "ID"]) as (f & Hf & Hn)
    by (eexists; split; vm_compute; reflexivity).
  apply (Fields_panics (P:=Samples.program) 0 (Fixture.ptrTo "Outer") 1 m
           (Samples.resolvedState "Outer") 2 f).
  - apply Samples_resolvedState_wellFormed.
  - exists (RPtr (RZero (TStruct "Outer"))), "Outer".
    split; [reflexivity|]. split; [reflexivity|].
    split; [vm_compute; reflexivity|exact Hm].
  - reflexivity.
  - rewrite Hsf. by left.
  - exact Hf.
  - rewrite Hn. reflexivity.
Defined.

(** Resolving [Blog] on the engine that has resolved [User]. *)
Lemma Blog_after_User :
  ∃ s', GetModelStruct 3 (Fixture.ptrTo "Blog") (Fixture.resolvedState "User")
        = Done (Val 1) s'
        ∧ (∃ m', structHeap s' !! 1 = Some m' ∧ StructFields m' = [3; 4])
        ∧ StructMap s' !! "Blog" = Some 1.
Proof.
  eexists. split; [vm_compute; reflexivity|].
  split; [eexists; split; vm_compute; reflexivity|].
  vm_compute. reflexivity.
Qed.

(** [User] stays in the cache while [Blog] is resolved. *)
Lemma GetModelStruct_keeps_cache_witness :
  ∃ s', GetModelStruct 3 (Fixture.ptrTo "Blog") (Fixture.resolvedState "User")
        = Done (Val 1) s'
        ∧ StructMap s' !! "User" = Some 0.
Proof.
  destruct Blog_after_User as (s' & H & _).
  exists s'. split; [exact H|].
  apply (GetModelStruct_keeps_cache (P:=Fixture.program) 3
           (Fixture.ptrTo "Blog") (Fixture.resolvedState "User") (Val 1) s' H).
  vm_compute. reflexivity.
Defined.

(** The descriptor of [User.Name] keeps its column while [Blog] is
    resolved. *)
Lemma GetModelStruct_keeps_descriptors_witness :
  ∃ s' f', GetModelStruct 3 (Fixture.ptrTo "Blog")
             (Fixture.resolvedState "User")
           = Done (Val 1) s'
           ∧ fieldHeap s' !! 1 = Some f' ∧ DBName f' = "name".
Proof.
  destruct Blog_after_User as (s' & H & _).
  assert (∃ f, fieldHeap (Fixture.resolvedState "User") !! 1 = Some f
               ∧ DBName f = "name") as (f & Hf & Hdb)
    by (eexists; split; vm_compute; reflexivity).
  destruct (GetModelStruct_keeps_descriptors (P:=Fixture.program) 3
              (Fixture.ptrTo "Blog") (Fixture.resolvedState "User") (Val 1) s'
              1 f H Hf) as (f' & Hf' & _ & _ & Hdb' & _).
  exists s', f'. split; [exact H|]. split; [exact Hf'|].
  rewrite Hdb'. exact Hdb.
Defined.

(** The description of [Blog] in the cache, after [User] and [Blog] are
    resolved. *)
Lemma GetModelStruct_consistent_witness :
  ∃ s' m, GetModelStruct 3 (Fixture.ptrTo "Blog")
            (Fixture.resolvedState "User")
          = Done (Val 1) s'
          ∧ structHeap s' !! 1 = Some m
          ∧ (∀ a, a ∈ PrimaryFields_ m →
                  ∃ f, fieldHeap s' !! a = Some f ∧ IsPrimaryKey f = true).
Proof.
  destruct Blog_after_User as (s' & H & _ & Hc).
  destruct (GetModelStruct_consistent (P:=Fixture.program) 3
              (Fixture.ptrTo "Blog") (Fixture.resolvedState "User") (Val 1) s'
              "Blog" 1 (Fixture_resolvedState_wellFormed "User") H Hc)
    as (m & Hm & _ & Hp & _).
  exists s', m. split; [exact H|]. split; [exact Hm|exact Hp].
Defined.

(** The descriptors of [Blog] are none of those of [User]. *)
Lemma GetModelStruct_fresh_witness :
  ∃ s', GetModelStruct 3 (Fixture.ptrTo "Blog") (Fixture.resolvedState "User")
        = Done (Val 1) s'
        ∧ 3 ∉ [0; 1; 2].
Proof.
  destruct Blog_after_User as (s' & H & (m' & Hm' & Hsf') & _).
  destruct User_resolved as (m & (_ & _ & _ & _ & _ & Hm) & Hsf & _).
  exists s'. split; [exact H|]. rewrite <- Hsf.
  apply (GetModelStruct_fresh (P:=Fixture.program) 3 (Fixture.ptrTo "Blog")
           (Fixture.resolvedState "User") (Val 1) s' 0 1 m m' 3
           (Fixture_resolvedState_wellFormed "User") H Hm Hm').
  - vm_compute. reflexivity.
  - rewrite Hsf'. left.
Defined.

(** The six forms of a value of [User], answered from the cache, and a
    pointer to a pointer, rejected. *)
Lemma GetModelStruct_forms_witness :
  GetModelStruct 1 (Some (RZero (TPtr (TSlice (TPtr (TStruct "User"))))))
    (Fixture.resolvedState "User")
  = Done (Val 0) (Fixture.resolvedState "User")
  ∧ GetModelStruct 1 (Some (RZero (TPtr (TPtr (TStruct "User")))))
      (Fixture.resolvedState "User")
    = Done (Err (ErrNotSupported KPtr)) (Fixture.resolvedState "User").
Proof.
  split.
  - apply (proj1 (GetModelStruct_forms (P:=Fixture.program) 0
                    (RZero (TPtr (TSlice (TPtr (TStruct "User")))))
                    (Fixture.resolvedState "User")) "User" 0).
    + simpl. unfold formsOf. set_solver.
    + vm_compute. reflexivity.
  - apply (proj2 (GetModelStruct_forms (P:=Fixture.program) 0
                    (RZero (TPtr (TPtr (TStruct "User"))))
                    (Fixture.resolvedState "User"))).
    intros id Hin. simpl in Hin. unfold formsOf in Hin.
    repeat (apply elem_of_cons in Hin as [Hin|Hin]; [discriminate|]).
    by apply elem_of_nil in Hin.
Defined.

(** The descriptors of [CustomizeColumn]: the column of [ID] is the one
    annotated. *)
Lemma GetModelStruct_describes_witness :
  ∃ m, structHeap (Fixture.resolvedState "CustomizeColumn") !! 0 = Some m
       ∧ Forall2 (λ fd a,
                    ∃ f, fieldHeap (Fixture.resolvedState "CustomizeColumn") !! a
                         = Some f
                         ∧ describes fd f)
           (List.filter (λ fd, IsExported (fdName fd))
              (sFields (decl "CustomizeColumn")))
           (StructFields m).
Proof.
  apply (GetModelStruct_describes (P:=Fixture.program) 3
           (RPtr (RZero (TStruct "CustomizeColumn"))) "CustomizeColumn"
           Fixture.engine 0 (Fixture.resolvedState "CustomizeColumn")).
  - reflexivity.
  - vm_compute. reflexivity.
  - repeat constructor; intros (_ & _ & _ & _ & H); vm_compute in H;
      discriminate.
  - vm_compute. reflexivity.
Defined.

(** The columns of [CustomizeColumn]. *)
Example CustomizeColumn_columns :
  ∃ m, structHeap (Fixture.resolvedState "CustomizeColumn") !! 0 = Some m
       ∧ namePaths (Fixture.resolvedState "CustomizeColumn") m
         = [Some (["ID"], "mapped_id"); Some (["Name"], "name")].
Proof. eexists. split; vm_compute; reflexivity. Qed.

(** [Scalar] has an [int] annotated [embedded]: it is not resolved. *)
Lemma GetModelStruct_embedded_scalar_witness :
  ∃ s', GetModelStruct (P:=Samples.program) 3 (Fixture.ptrTo "Scalar")
          Fixture.engine
        = Done (Err (ErrNotSupported KOther)) s'
        ∧ shapeError (ErrNotSupported KOther).
Proof.
  assert (∃ s', GetModelStruct (P:=Samples.program) 3 (Fixture.ptrTo "Scalar")
                  Fixture.engine
                = Done (Err (ErrNotSupported KOther)) s') as [s' H]
    by (eexists; vm_compute; reflexivity).
  exists s'. split; [exact H|].
  destruct (GetModelStruct_embedded_scalar (P:=Samples.program) 3
              (RPtr (RZero (TStruct "Scalar"))) "Scalar" Fixture.engine
              (Err (ErrNotSupported KOther)) s'
              (Fixture.fld "Age" Fixture.int "embedded"))
    as (e & [= <-] & He).
  - apply wellFormed_newEngine.
  - reflexivity.
  - vm_compute. reflexivity.
  - right. left.
  - split; [vm_compute; reflexivity|]. split; [vm_compute; reflexivity|].
    split; [vm_compute; reflexivity|]. split; [discriminate|].
    vm_compute. reflexivity.
  - intros id. discriminate.
  - exact H.
  - exact He.
Defined.

(** [PrimaryKey]-less shapes have no [id]: [Keyless]. *)
Lemma GetModelStruct_promotes_id_witness :
  ∃ m, structHeap (Fixture.resolvedState "Keyless") !! 0 = Some m
       ∧ (PrimaryFields_ m = [] →
          GetForeignField "id" (StructFields m)
            (fieldHeap (Fixture.resolvedState "Keyless")) = None).
Proof.
  apply (GetModelStruct_promotes_id (P:=Fixture.program) 3
           (RPtr (RZero (TStruct "Keyless"))) "Keyless" Fixture.engine 0
           (Fixture.resolvedState "Keyless")).
  - apply wellFormed_newEngine.
  - reflexivity.
  - vm_compute. reflexivity.
  - vm_compute. reflexivity.
Defined.

(** The pairing of [Blog.Entries]: the foreign key [BlogID] of [Entry]
    with the key [ID] of [Blog]. *)
Lemma resolvePairs_aligned_witness :
  ∃ rel' s',
    resolvePairs [2; 3] [0; 1] ["ID"] 0 ["BlogID"]
      (setKind "has_many" emptyRelationship) (Fixture.resolvedState "Blog")
    = Done rel' s'
    ∧ aligned rel' ∧ Kind rel' = "has_many".
Proof.
  assert (∃ rel' s',
            resolvePairs [2; 3] [0; 1] ["ID"] 0 ["BlogID"]
              (setKind "has_many" emptyRelationship)
              (Fixture.resolvedState "Blog")
            = Done rel' s') as (rel' & s' & H)
    by (eexists _, _; vm_compute; reflexivity).
  destruct (resolvePairs_aligned (P:=Fixture.program) [2; 3] [0; 1] ["ID"]
              ["BlogID"] 0 (setKind "has_many" emptyRelationship)
              (Fixture.resolvedState "Blog") rel' s' H)
    as (A & _ & K & _).
  exists rel', s'. split; [exact H|]. split; [|exact K].
  apply A. repeat split.
Defined.

(** With the foreign keys [BlogID] and [ID] and the one association key
    [ID], the loop panics at the second foreign key. *)
Lemma resolvePairs_bounds_witness :
  resolvePairs [2; 3] [0; 1] ["ID"] 0 ["BlogID"; "ID"]
    (setKind "has_many" emptyRelationship) (Fixture.resolvedState "Blog")
  = Panics PanicIndexOutOfRange.
Proof.
  apply (proj1 (resolvePairs_bounds (P:=Fixture.program) [2; 3] [0; 1] ["ID"]
                  ["BlogID"; "ID"] 0 (setKind "has_many" emptyRelationship)
                  (Fixture.resolvedState "Blog"))).
  exists 1, "ID". split; [reflexivity|]. split; [|reflexivity].
  vm_compute. eexists. reflexivity.
Defined.

(** The keys of [Blog.Entries], which has no annotation: one pair for the
    primary field of [Blog]. *)
Lemma deriveKeys_enough_witness :
  ∃ keys s1 rel' s',
    deriveKeys "Blog" [0; 1]
      (ownPrimaries {| PrimaryFields_ := [0]; StructFields := [0; 1];
                       ModelType := "Blog"; DefaultTableName := "blogs" |})
      (ret (Val "id")) [] [] (Fixture.resolvedState "Blog")
    = Done (Val keys) s1
    ∧ keys = (["BlogID"], ["ID"])
    ∧ resolvePairs [2; 3] [0; 1] (snd keys) 0 (fst keys)
        (setKind "has_many" emptyRelationship) s1
      = Done rel' s'.
Proof.
  assert (deriveKeys "Blog" [0; 1]
            (ownPrimaries {| PrimaryFields_ := [0]; StructFields := [0; 1];
                             ModelType := "Blog"; DefaultTableName := "blogs" |})
            (ret (Val "id")) [] [] (Fixture.resolvedState "Blog")
          = Done (Val (["BlogID"], ["ID"])) (Fixture.resolvedState "Blog")) as H
    by (vm_compute; reflexivity).
  destruct (deriveKeys_enough (P:=Fixture.program) "Blog" [0; 1] _ _ [] []
              (Fixture.resolvedState "Blog") (["BlogID"], ["ID"])
              (Fixture.resolvedState "Blog") [2; 3] [0; 1]
              (setKind "has_many" emptyRelationship) (or_introl eq_refl) H)
    as (_ & rel' & s' & Hr).
  exists (["BlogID"], ["ID"]), (Fixture.resolvedState "Blog"), rel', s'.
  split; [exact H|]. split; [reflexivity|exact Hr].
Defined.

(** The [Labels] of a [Memo]: the join table has the columns [memo_id]
    and [label_text]. *)
Lemma many2many_join_columns_witness :
  ∃ s' f' rel,
    buildRelationSlice (GetModelStruct 1) (Fixture.ptrTo "Memo") "Memo"
      {| PrimaryFields_ := [0]; StructFields := [0; 1];
         ModelType := "Memo"; DefaultTableName := "memos" |} 1
      (Fixture.resolvedState "Memo")
    = Done (Val tt) s'
    ∧ fieldHeap s' !! 1 = Some f'
    ∧ Relationship_ f' = Some rel
    ∧ Kind rel = "many_to_many"
    ∧ ForeignDBNames rel
      = map (λ n, "memo" +:+ "_" +:+ n) (ForeignFieldNames rel)
    ∧ AssociationForeignDBNames rel
      = map (λ n, "label" +:+ "_" +:+ n) (AssociationForeignFieldNames rel).
Proof.
  assert (∃ s', buildRelationSlice (GetModelStruct 1) (Fixture.ptrTo "Memo")
                  "Memo"
                  {| PrimaryFields_ := [0]; StructFields := [0; 1];
                     ModelType := "Memo"; DefaultTableName := "memos" |} 1
                  (Fixture.resolvedState "Memo")
                = Done (Val tt) s') as [s' H]
    by (eexists; vm_compute; reflexivity).
  assert (∃ f, fieldHeap (Fixture.resolvedState "Memo") !! 1 = Some f
               ∧ stripSlicePtr (fdType (Struct f)) = TStruct "Label"
               ∧ tagValue (TagSettings f) "MANY2MANY" = "memo_labels")
    as (f & Hf & He & Hm)
    by (eexists; split; [|split]; vm_compute; reflexivity).
  destruct (many2many_join_columns (P:=Fixture.program) (GetModelStruct 1)
              (Fixture.ptrTo "Memo") "Memo"
              {| PrimaryFields_ := [0]; StructFields := [0; 1];
                 ModelType := "Memo"; DefaultTableName := "memos" |} 1
              (Fixture.resolvedState "Memo") f "Label" s' Hf He)
    as (f' & rel & Hf' & Hr & Hk & H1 & H2).
  - rewrite Hm. discriminate.
  - exact H.
  - exists s', f', rel. split; [exact H|]. split; [exact Hf'|].
    split; [exact Hr|]. split; [exact Hk|]. split; [exact H1|exact H2].
Defined.

(** The relationship of the [Labels] of a [Memo]. *)
Example Memo_Labels_many_to_many :
  ∃ f rel, fieldHeap (Fixture.resolvedState "Memo") !! 1 = Some f
           ∧ Relationship_ f = Some rel
           ∧ ForeignFieldNames rel = ["id"]
           ∧ ForeignDBNames rel = ["memo_id"]
           ∧ AssociationForeignFieldNames rel = ["text"; "text"]
           ∧ AssociationForeignDBNames rel = ["label_text"; "label_text"].
Proof. eexists _, _. split; [vm_compute; reflexivity|]. repeat split. Qed.
